(** * PGC: mixture of probabilistic circuits over molecular graphs

    A shallow embedding of the orchestration layer of
    [models/pgc_marg.py] (class [PGCMargSort], the size-prior variant) and
    [models/molspn_zero.py] (classes [MolSPNZeroCore], [MolSPNZeroSort], the
    plain variant).

    Conventions.
    - A tensor of integer labels is a list (a batch is a list of rows); an
      edge tensor of one example is a list of rows ([matrix]).
    - Scores are real numbers; [-inf] is a separate constructor.
    - The circuit engine (EinsumNetwork) and the random source of torch are
      not part of the repository: they are Section variables.
    - Python exceptions are values of [exn]; code that mutates a tensor of
      its caller runs in a state monad over a store of tensors. *)

From Stdlib Require Import List Arith ZArith Bool Lia Reals Lra.
From Stdlib Require String.
Import ListNotations.

(** ** Tensors as lists *)

Definition matrix (A : Type) : Type := list (list A).

Section Tensor.
Context {A : Type}.
Variable d : A.

(** [a[i][j]], with [d] out of range (never used out of range below). *)
Definition get (a : matrix A) (i j : nat) : A := nth j (nth i a []) d.

(** [torch.full((N, N), v)] *)
Definition full (N : nat) (v : A) : matrix A := repeat (repeat v N) N.

(** [a.transpose(0, 1)] of an [N]x[N] tensor. *)
Definition transpose (N : nat) (a : matrix A) : matrix A :=
  map (fun i => map (fun j => get a j i) (seq 0 N)) (seq 0 N).

(** Shape test: a tensor of shape [(B, C)]. *)
Definition has_shape (B C : nat) (t : matrix A) : bool :=
  (length t =? B) && forallb (fun r => length r =? C) t.

Definition rows_of_width (N : nat) (rs : matrix A) : Prop :=
  Forall (fun r => length r = N) rs.

(** Boolean-mask indexing of one row: the entries at the true positions,
    left to right. *)
Fixpoint select_row (row : list A) (mrow : list bool) : list A :=
  match row, mrow with
  | v :: row', b :: mrow' =>
      if b then v :: select_row row' mrow' else select_row row' mrow'
  | _, _ => []
  end.

(** [a[m]]: the entries of [a] where [m] is true, in row-major order. *)
Fixpoint masked_select (a : matrix A) (m : matrix bool) : list A :=
  match a, m with
  | r :: a', mr :: m' => select_row r mr ++ masked_select a' m'
  | _, _ => []
  end.

(** One row of [a[m] = l]: true positions take the next values of [l];
    returns the new row and what is left of [l]. *)
Fixpoint assign_row (row : list A) (mrow : list bool) (l : list A)
  : list A * list A :=
  match row, mrow with
  | v :: row', b :: mrow' =>
      if b then
        match l with
        | y :: l' => let (r, rest) := assign_row row' mrow' l' in (y :: r, rest)
        | [] => (row, [])
        end
      else let (r, rest) := assign_row row' mrow' l in (v :: r, rest)
  | _, _ => (row, l)
  end.

(** [a[m] = l] *)
Fixpoint masked_assign (a : matrix A) (m : matrix bool) (l : list A)
  : matrix A :=
  match a, m with
  | r :: a', mr :: m' =>
      let (r', rest) := assign_row r mr l in r' :: masked_assign a' m' rest
  | _, _ => a
  end.
End Tensor.

(** ** The triangular mask

    [self.m = torch.tril(torch.ones(nd_x, nd_x, dtype=torch.bool), diagonal=-1)]:
    entry [(i, j)] is true iff [j <= i - 1]. *)

Definition tril_row (N i : nat) : list bool := map (fun j => j <? i) (seq 0 N).
Definition tril_mask (N : nat) : matrix bool := map (tril_row N) (seq 0 N).

(** Number of mask positions in the rows before row [n]. *)
Fixpoint tri (n : nat) : nat :=
  match n with
  | 0 => 0
  | S k => tri k + k
  end.

(** Modelled from the spec: [nd_a], returned by [backend_selector] of
    [models/backend.py] (a module that is not available), is the length of the
    edge vector, "the N(N-1)/2 strictly-lower-triangular entries";
    [MolSPNZeroSort.__init__] computes the same [nd_n * (nd_n - 1) // 2]. *)
Definition nd_a_of (nd_x : nat) : nat := nd_x * (nd_x - 1) / 2.

(** ** The triangular codec *)

(** [a[:, self.m].view(-1, self.nd_a)], one example. *)
Definition tril_flatten {A} (N : nat) (a : matrix A) : list A :=
  masked_select a (tril_mask N).

(** The edge reconstruction of the samplers, one example:
<<
    a = torch.full((N, N), pad)      # torch.zeros in PGCMargSort
    a[m] = l
    a.transpose(0, 1)[m] = l
>>
    The last line writes through the transposed view of [a]. *)
Definition tril_unflatten {A} (d : A) (N : nat) (pad : A) (l : list A)
  : matrix A :=
  let a0 := full N pad in
  let a1 := masked_assign a0 (tril_mask N) l in
  transpose d N (masked_assign (transpose d N a1) (tril_mask N) l).

Definition symmetric {A} (d : A) (N : nat) (a : matrix A) : Prop :=
  forall i j, i < N -> j < N -> get d a i j = get d a j i.

Definition diagonal_is {A} (d : A) (N : nat) (v : A) (a : matrix A) : Prop :=
  forall i, i < N -> get d a i i = v.

Definition a4 : matrix Z :=
  [[0; 1; 2; 3]; [1; 0; 4; 5]; [2; 4; 0; 6]; [3; 5; 6; 0]]%Z.


(** ** Scores

    Log-likelihoods are real numbers. *)

Definition Rsum (l : list R) : R := fold_right Rplus 0%R l.

(** [torch.logsumexp] *)
Definition logsumexp (l : list R) : R := ln (Rsum (map exp l)).

(** [torch.log_softmax] *)
Definition log_softmax (l : list R) : list R :=
  map (fun v => (v - logsumexp l)%R) l.

(** [torch.softmax] *)
Definition softmax (l : list R) : list R :=
  map (fun v => (exp v / Rsum (map exp l))%R) l.

(** [t.mean()] of a vector. *)
Definition mean (l : list R) : R := (Rsum l / INR (length l))%R.

(** A logit that [masked_fill_] may have set to [-inf]. *)
Inductive logit : Type :=
| NegInf
| Fin (r : R).

(** [torch.distributions.Categorical(logits=l).probs]: the logits are
    normalised by their log-sum-exp, the probabilities are their softmax. *)
Definition Categorical_probs (l : list R) : list R := softmax l.

(** ** Exceptions *)

Inductive exn : Type :=
| TypeError
| ValueError
| IndexError
| RuntimeError
| ZeroDivisionError
| UnboundLocalError (name : String.string).

Definition result (A : Type) : Type := (exn + A)%type.

Definition bindE {A B} (c : result A) (k : A -> result B) : result B :=
  match c with
  | inl e => inl e
  | inr v => k v
  end.

Notation "x <-? c ;; k" := (bindE c (fun x => k))
  (at level 61, c at next level, right associativity).

Fixpoint mapE {A B} (f : A -> result B) (l : list A) : result (list B) :=
  match l with
  | [] => inr []
  | v :: l' => y <-? f v ;; ys <-? mapE f l' ;; inr (y :: ys)
  end.

Definition is_fin (v : logit) : bool :=
  match v with
  | Fin _ => true
  | NegInf => false
  end.

(** The finite entries of a vector of logits: [exp(-inf) = 0] adds
    nothing to the sum under the logarithm. *)
Definition finite_part (l : list logit) : list R :=
  flat_map (fun v => match v with Fin r => [r] | NegInf => [] end) l.

(** [l - l.logsumexp()], the normalisation [Categorical] applies to its
    logits; an entry [-inf] stays [-inf]. *)
Definition normalize_logits (l : list logit) : list logit :=
  map (fun v => match v with
                | Fin r => Fin (r - logsumexp (finite_part l))
                | NegInf => NegInf
                end) l.

(** [Categorical(logits=l)] on a vector: the normalised logits of a vector
    whose entries are all [-inf] are NaN, and the validation of the
    arguments raises [ValueError]. *)
Definition Categorical_valid (l : list logit) : bool :=
  match l with
  | [] => true
  | _ => existsb is_fin l
  end.

(** [Categorical(logits=l).log_prob(n)] for one value: the value must lie
    in the support [0 .. K-1] (argument validation raises [ValueError]);
    the result is the normalised logit. *)
Definition Categorical_log_prob (l : list logit) (n : Z) : result logit :=
  if ((0 <=? n) && (n <? Z.of_nat (length l)))%Z
  then inr (nth (Z.to_nat n) (normalize_logits l) NegInf)
  else inl ValueError.

(** [c + v] where [c] may be [-inf]. *)
Definition logit_plus (c : logit) (v : R) : logit :=
  match c with
  | Fin r => Fin (r + v)
  | NegInf => NegInf
  end.

(** [t.mean()] of a vector whose entries may be [-inf]. *)
Definition logit_mean (l : list logit) : logit :=
  if forallb is_fin l then Fin (mean (finite_part l)) else NegInf.

(** ** Elementwise operations *)

Fixpoint zip_with {A B C} (f : A -> B -> C) (l1 : list A) (l2 : list B)
  : list C :=
  match l1, l2 with
  | v :: l1', w :: l2' => f v w :: zip_with f l1' l2'
  | _, _ => []
  end.

(** [x > -1] *)
Definition gt_m1 (v : Z) : bool := (-1 <? v)%Z.

(** [mask.sum()] of a boolean row. *)
Definition sum_bool (r : list bool) : Z :=
  fold_right (fun b s => (Z.b2z b + s)%Z) 0%Z r.

(** [mask.unsqueeze(2) * mask.unsqueeze(1)], one example: entry [(i, j)]
    is [mask[i] * mask[j]]. *)
Definition outer_and (r : list bool) : matrix bool :=
  map (fun bi => map (fun bj => bi && bj) r) r.

(** [t[~mask] = v], one row. *)
Definition fill_not (v : Z) (row : list Z) (mrow : list bool) : list Z :=
  zip_with (fun w (b : bool) => if b then w else v) row mrow.

(** [masked_fill_(mask, -inf)] on a view obtained by
    [unsqueeze(0).expand(B, -1)] of a vector of [N] entries: the rows of the
    view are the one row of the vector (stride 0), so entry [i] of the
    vector is written when some row of the mask is true at [i]. [fill]
    marks the entries that hold [-inf] already; a missing mark is
    [false]. *)
Definition fill_or (N : nat) (fill : list bool) (mask : matrix bool)
  : list bool :=
  map (fun i => nth i fill false || existsb (fun r => nth i r false) mask)
      (seq 0 N).

(** ** The store of caller-owned tensors

    A node tensor handed to the model is a reference: [x -= 1] writes into
    the caller's tensor. A reference is a view of consecutive rows of a
    stored tensor, which is what [Tensor.chunk] returns. *)

Record tref : Type := mkRef { base : nat; off : nat; len : nat }.

Definition store : Type := nat -> list (list Z).

Definition rows (h : store) (x : tref) : list (list Z) :=
  firstn (len x) (skipn (off x) (h (base x))).

Definition valid (h : store) (x : tref) : Prop :=
  off x + len x <= length (h (base x)).

(** The whole tensor stored at [b]. *)
Definition whole (h : store) (b : nat) : tref :=
  {| base := b; off := 0; len := length (h b) |}.

(** The store after [x -= k]. *)
Definition store_isub (h : store) (x : tref) (k : Z) : store :=
  fun b =>
    if b =? base x then
      firstn (off x) (h b)
      ++ map (map (fun v => (v - k)%Z)) (firstn (len x) (skipn (off x) (h b)))
      ++ skipn (off x + len x) (h b)
    else h b.

(** [Tensor.chunk(chunks)] (torch): the rows are split into pieces of
    [ceil(L / chunks)] rows, the last one shorter when [L] is not a
    multiple; the pieces are views, given here as (offset, length).
    Used below with [L > 0] only. *)
Definition torch_chunk_bounds (L chunks : nat) : list (nat * nat) :=
  let split_size := (L + chunks - 1) / chunks in
  map (fun i => (i * split_size, Nat.min split_size (L - i * split_size)))
      (seq 0 ((L + split_size - 1) / split_size)).

Definition chunk_ref (x : tref) (chunks : nat) : list tref :=
  map (fun p => {| base := base x; off := off x + fst p; len := snd p |})
      (torch_chunk_bounds (len x) chunks).

Definition chunk_list {A} (l : list A) (chunks : nat) : list (list A) :=
  map (fun p => firstn (snd p) (skipn (fst p) l))
      (torch_chunk_bounds (length l) chunks).

(** ** The circuit engine and the random source

    [EinsumNetwork] and torch's generator are external. A network scores a
    batch under the marginalisation mask last set on it and returns one
    row of per-component log-likelihoods per example; it samples a batch
    given one component index per example and optional evidence. [G] is
    the state of the random source. *)

Record engine : Type := mkEngine {
  G : Type;
  network_x : option (matrix bool) -> list (list Z) -> list (list R);
  network_a : option (matrix bool) -> list (list Z) -> list (list R);
  network_x_sample :
    option (matrix bool) -> nat -> list nat -> option (list (list Z)) ->
    G -> list (list Z) * G;
  network_a_sample :
    option (matrix bool) -> nat -> list nat -> option (list (list Z)) ->
    G -> list (list Z) * G;
  (** [Categorical(logits=l).sample()], one index per row of [l]. *)
  Categorical_sample : list (list logit) -> G -> list nat * G
}.

(** What a call can change: the caller's tensors, the random source, the
    marginalisation mask held by each network, and the parameter
    [logits_n] of the model: [_sample] overwrites entries of it with
    [-inf], and [fill_n] marks the entries overwritten so far (a missing
    mark is [false]). *)
Record state (E : engine) : Type := mkState {
  heap : store;
  rng : G E;
  marg_x : option (matrix bool);
  marg_a : option (matrix bool);
  fill_n : list bool
}.
Arguments mkState {E} _ _ _ _ _.
Arguments heap {E} _.
Arguments rng {E} _.
Arguments marg_x {E} _.
Arguments marg_a {E} _.
Arguments fill_n {E} _.

(** A computation either raises or returns, and leaves a state behind in
    both cases. *)
Definition ST (S A : Type) : Type := S -> result A * S.

Definition M (E : engine) (A : Type) : Type := ST (state E) A.

Definition ret {S A} (v : A) : ST S A := fun s => (inr v, s).

Definition raise {S A} (e : exn) : ST S A := fun s => (inl e, s).

Definition bind {S A B} (c : ST S A) (k : A -> ST S B) : ST S B :=
  fun s =>
    match c s with
    | (inl e, s') => (inl e, s')
    | (inr v, s') => k v s'
    end.

Notation "x <- c ;; k" := (bind c (fun x => k))
  (at level 61, c at next level, right associativity).
Notation "' pat <- c ;; k" :=
  (bind c (fun x => match x with pat => k end))
  (at level 61, pat pattern, c at next level, right associativity).
Notation "c ;;; k" := (bind c (fun _ => k))
  (at level 61, right associativity).

Definition guard {S} (b : bool) (e : exn) : ST S unit :=
  if b then ret tt else raise e.

Definition lift {S A} (c : result A) : ST S A := fun s => (c, s).

Fixpoint mapM {S A B} (f : A -> ST S B) (l : list A) : ST S (list B) :=
  match l with
  | [] => ret []
  | v :: l' => y <- f v ;; ys <- mapM f l' ;; ret (y :: ys)
  end.

(** A computation that leaves a component [f] of the state (the store,
    the random source, a mask) as it is, or changes it by [F], whether it
    raises or returns. *)
Definition keeps {E A T} (f : state E -> T) (c : M E A) : Prop :=
  forall s, f (snd (c s)) = f s.

Definition changes {E A T} (f : state E -> T) (F : T -> T) (c : M E A)
  : Prop :=
  forall s, f (snd (c s)) = F (f s).

(** [x -= k] on a caller's tensor. *)
Definition isub {E} (x : tref) (k : Z) : M E unit :=
  fun s => (inr tt, mkState (store_isub (heap s) x k) (rng s) (marg_x s)
                            (marg_a s) (fill_n s)).

Definition read {E} (x : tref) : M E (list (list Z)) :=
  fun s => (inr (rows (heap s) x), s).

(** [self.network_x.set_marginalization_mask(mask)] *)
Definition set_marginalization_mask_x {E} (m : matrix bool) : M E unit :=
  fun s => (inr tt, mkState (heap s) (rng s) (Some m) (marg_a s) (fill_n s)).

Definition set_marginalization_mask_a {E} (m : matrix bool) : M E unit :=
  fun s => (inr tt, mkState (heap s) (rng s) (marg_x s) (Some m) (fill_n s)).

(** [self.network_x(x)] *)
Definition call_network_x {E} (x : list (list Z)) : M E (list (list R)) :=
  fun s => (inr (network_x E (marg_x s) x), s).

Definition call_network_a {E} (l : list (list Z)) : M E (list (list R)) :=
  fun s => (inr (network_a E (marg_a s) l), s).

(** A draw from the random source. *)
Definition draw {E A} (f : G E -> A * G E) : M E A :=
  fun s => let (v, g) := f (rng s) in
           (inr v, mkState (heap s) g (marg_x s) (marg_a s) (fill_n s)).

Definition call_network_x_sample {E} (n : nat) (class_idxs : list nat)
  (x : option (list (list Z))) : M E (list (list Z)) :=
  fun s => draw (network_x_sample E (marg_x s) n class_idxs x) s.

Definition call_network_a_sample {E} (n : nat) (class_idxs : list nat)
  (x : option (list (list Z))) : M E (list (list Z)) :=
  fun s => draw (network_a_sample E (marg_a s) n class_idxs x) s.

(** [Categorical(logits=l).sample()] on a batch [l] of rows of logits.
    On a batch without elements (no row, or rows of no entry) a [reshape]
    of the validation or of the draw raises [RuntimeError]; a row whose
    entries are all [-inf] normalises to NaN and the validation raises
    [ValueError]; nothing is drawn in either case. *)
Definition Categorical_draw {E} (l : list (list logit)) : M E (list nat) :=
  guard ((0 <? length l) && (0 <? length (hd [] l))) RuntimeError ;;;
  guard (forallb (existsb is_fin) l) ValueError ;;;
  draw (Categorical_sample E l).

(** [torch.cat] of a list of batches; an empty list raises. *)
Definition torch_cat {S A} (l : list (list A)) : ST S (list A) :=
  match l with
  | [] => raise RuntimeError
  | _ => ret (concat l)
  end.

(** ** [PGCMargSort]: the size-prior variant

    The learned parameters. [logits_n = randn(nd_x)] and
    [logits_w = randn(nc)], so the sizes [nd_x] and [nc] are read off
    them. The values are real numbers; the entries of [logits_n] that
    [_sample] has since overwritten with [-inf] are marked in the state
    ([fill_n]). *)

Record PGCMargSort : Type := mkPGC {
  logits_n : list R;
  logits_w : list R
}.

Definition nd_x (self : PGCMargSort) : nat := length (logits_n self).
Definition nc (self : PGCMargSort) : nat := length (logits_w self).
Definition nd_a (self : PGCMargSort) : nat := nd_a_of (nd_x self).
Definition m (self : PGCMargSort) : matrix bool := tril_mask (nd_x self).

(** [(mask_xn.unsqueeze(2) * mask_xn.unsqueeze(1))[:, self.m].view(-1, self.nd_a)] *)
Definition edge_mask (self : PGCMargSort) (mask_xn : matrix bool)
  : matrix bool :=
  map (fun r => tril_flatten (nd_x self) (outer_and r)) mask_xn.

(** [logs_x + logs_a + logs_w] with [logs_w] of shape [(1, nc)]. *)
Definition add_logs (logs_x logs_a : list (list R)) (logs_w : list R)
  : list (list R) :=
  zip_with (fun rx ra =>
              zip_with Rplus (zip_with Rplus rx ra) logs_w) logs_x logs_a.

(** The parameter [self.logits_n] as it is stored now: the values of
    [self], with [-inf] at the entries marked in [fill]. *)
Definition logits_n_now (self : PGCMargSort) (fill : list bool)
  : list logit :=
  map (fun i => if nth i fill false then NegInf
                else Fin (nth i (logits_n self) 0%R))
      (seq 0 (nd_x self)).

(** Reading [self.logits_n]. *)
Definition read_logits_n {E} (self : PGCMargSort) : M E (list logit) :=
  fun s => (inr (logits_n_now self (fill_n s)), s).

(** [self.logits_n.unsqueeze(0).expand(num_samples, -1).masked_fill_(mask_x, -inf)]:
    the write goes through the expanded view into the parameter, and
    stays there. *)
Definition masked_fill_logits_n {E} (self : PGCMargSort)
  (mask_x : matrix bool) : M E unit :=
  fun s => (inr tt, mkState (heap s) (rng s) (marg_x s) (marg_a s)
                            (fill_or (nd_x self) (fill_n s) mask_x)).

(** [PGCMargSort.forward]. Shapes the engine does not respect (its
    scores are [(batch, nc)] by contract) raise here. The node-count
    distribution is built from the parameter as it is stored at the time
    of the call. *)
Definition forward (E : engine) (self : PGCMargSort)
  (x : tref) (a : list (matrix Z)) : M E (list logit) :=
  isub x 1 ;;;
  xv <- read x ;;
  let mask_xn := map (map gt_m1) xv in
  guard (forallb (fun r => length r =? nd_x self) xv) IndexError ;;;
  let mask_an := edge_mask self mask_xn in
  set_marginalization_mask_x mask_xn ;;;
  set_marginalization_mask_a mask_an ;;;
  let n := map (fun r => (sum_bool r - 1)%Z) mask_xn in
  logits <- read_logits_n self ;;
  guard (Categorical_valid logits) ValueError ;;;
  logs_c <- lift (mapE (Categorical_log_prob logits) n) ;;
  logs_x <- call_network_x xv ;;
  guard (forallb (has_shape (nd_x self) (nd_x self)) a) IndexError ;;;
  logs_a <- call_network_a (map (tril_flatten (nd_x self)) a) ;;
  let logs_w := log_softmax (logits_w self) in
  guard (has_shape (length xv) (nc self) logs_x
         && has_shape (length xv) (nc self) logs_a) RuntimeError ;;;
  ret (zip_with logit_plus logs_c
                (map logsumexp (add_logs logs_x logs_a logs_w))).

(** [PGCMargSort.logpdf] *)
Definition logpdf (E : engine) (self : PGCMargSort)
  (x : tref) (a : list (matrix Z)) : M E logit :=
  r <- forward E self x a ;; ret (logit_mean r).

(** The logits of the component posterior in [_sample]:
    [logs_w = logs_x + logs_a + self.logits_w.unsqueeze(0)]. *)
Definition sample_logs_w (self : PGCMargSort) (logs_x logs_a : list (list R))
  : list (list R) :=
  add_logs logs_x logs_a (logits_w self).

(** [torch.arange(self.nd_x).unsqueeze(0) <= samp_n.unsqueeze(1)] *)
Definition size_mask (self : PGCMargSort) (samp_n : list nat) : matrix bool :=
  map (fun n => map (fun i => i <=? n) (seq 0 (nd_x self))) samp_n.

(** [mask_x + mask_xn] on boolean tensors is the elementwise "or". *)
Definition mask_add (m1 m2 : matrix bool) : matrix bool :=
  zip_with (zip_with orb) m1 m2.

(** [PGCMargSort._sample]. [num_samples] is a size here: a negative one
    makes [torch.zeros] raise, which [sample] below accounts for. When a
    mask or an engine result has not the shape [(num_samples, ...)] the
    model raises (torch raises, or broadcasts a batch of one, which is not
    modelled). [logs_n] is an expanded view of the parameter [logits_n]:
    its rows are all the one row of the parameter, with the [-inf] that
    this call and the calls before it have written there. *)
Definition _sample (E : engine) (self : PGCMargSort) (num_samples : nat)
  (cond_x : option tref) (cond_a : option (list (matrix Z)))
  : M E (list (list Z) * list (matrix Z)) :=
  num_samples <-
    match cond_x, cond_a with
    | Some cx, Some ca =>
        if len cx =? length ca then ret (len cx) else raise TypeError
    | _, _ => ret num_samples
    end ;;
  '(cond_x, mask_x, logs_x, logs_n) <-
    match cond_x with
    | Some cx =>
        isub cx 1 ;;;
        xv <- read cx ;;
        let mask_x := map (map gt_m1) xv in
        guard (has_shape num_samples (nd_x self) mask_x) RuntimeError ;;;
        masked_fill_logits_n self mask_x ;;;
        logits <- read_logits_n self ;;
        let logs_n := repeat logits num_samples in
        set_marginalization_mask_x mask_x ;;;
        logs_x <- call_network_x xv ;;
        ret (Some xv, mask_x, logs_x, logs_n)
    | None =>
        let mask_x := repeat (repeat false (nd_x self)) num_samples in
        let logs_x := repeat (repeat 0%R (nc self)) num_samples in
        logits <- read_logits_n self ;;
        let logs_n := repeat logits num_samples in
        ret (None, mask_x, logs_x, logs_n)
    end ;;
  '(cond_a, mask_a, logs_a) <-
    match cond_a with
    | Some ca =>
        guard (forallb (has_shape (nd_x self) (nd_x self)) ca) IndexError ;;;
        let mask_a := map (fun a => tril_flatten (nd_x self) (map (map gt_m1) a)) ca in
        let cond_a := map (tril_flatten (nd_x self)) ca in
        set_marginalization_mask_a mask_a ;;;
        logs_a <- call_network_a cond_a ;;
        ret (Some cond_a, mask_a, logs_a)
    | None =>
        let mask_a := repeat (repeat false (nd_a self)) num_samples in
        let logs_a := repeat (repeat 0%R (nc self)) num_samples in
        ret (None, mask_a, logs_a)
    end ;;
  guard (has_shape num_samples (nc self) logs_x
         && has_shape num_samples (nc self) logs_a) RuntimeError ;;;
  let logs_w := sample_logs_w self logs_x logs_a in
  samp_n <- Categorical_draw logs_n ;;
  samp_w <- Categorical_draw (map (map Fin) logs_w) ;;
  let mask_xn := size_mask self samp_n in
  let mask_an := edge_mask self mask_xn in
  guard ((length samp_n =? num_samples) && (length mask_a =? num_samples))
        RuntimeError ;;;
  let mask_xx := mask_add mask_x mask_xn in
  let mask_aa := mask_add mask_a mask_an in
  x <- call_network_x_sample num_samples samp_w cond_x ;;
  l <- call_network_a_sample num_samples samp_w cond_a ;;
  guard (has_shape num_samples (nd_x self) x) IndexError ;;;
  let x := zip_with (fill_not (-1)) x mask_xx in
  guard (has_shape num_samples (nd_a self) l) IndexError ;;;
  let l := zip_with (fill_not 0) l mask_aa in
  let a := map (tril_unflatten 0%Z (nd_x self) 0%Z) l in
  let x := map (map (fun v => (v + 1)%Z)) x in
  ret (x, a).

(** [num_samples // chunk_size*[chunk_size]
     + ([num_samples % chunk_size] if num_samples % chunk_size > 0 else [])];
    a list times a negative number is empty. *)
Definition chunk_sizes (num_samples chunk_size : Z) : result (list Z) :=
  if (chunk_size =? 0)%Z then inl ZeroDivisionError
  else inr (repeat chunk_size (Z.to_nat (num_samples / chunk_size))
            ++ (if (0 <? num_samples mod chunk_size)%Z
                then [(num_samples mod chunk_size)%Z] else [])).

Definition unzip_cat {E} (rs : list (list (list Z) * list (matrix Z)))
  : M E (list (list Z) * list (matrix Z)) :=
  x_sam <- torch_cat (map fst rs) ;;
  a_sam <- torch_cat (map snd rs) ;;
  ret (x_sam, a_sam).

(** [_sample(n)] called with a Python integer: [torch.zeros] raises on a
    negative size before anything else happens. *)
Definition _sample_int (E : engine) (self : PGCMargSort) (n : Z)
  : M E (list (list Z) * list (matrix Z)) :=
  if (n <? 0)%Z then raise RuntimeError
  else _sample E self (Z.to_nat n) None None.

(** [PGCMargSort.sample]. [Tensor.chunk] raises unless its argument is
    positive. *)
Definition sample (E : engine) (self : PGCMargSort) (num_samples : Z)
  (cond_x : option tref) (cond_a : option (list (matrix Z)))
  (chunk_size : Z) : M E (list (list Z) * list (matrix Z)) :=
  match cond_x, cond_a with
  | Some cx, Some ca =>
      if len cx =? length ca then
        if (chunk_size <? Z.of_nat (len cx))%Z then
          guard (0 <? chunk_size)%Z RuntimeError ;;;
          let chunks := combine (chunk_ref cx (Z.to_nat chunk_size))
                                (chunk_list ca (Z.to_nat chunk_size)) in
          rs <- mapM (fun p => _sample E self 1 (Some (fst p)) (Some (snd p)))
                     chunks ;;
          unzip_cat rs
        else _sample E self 1 (Some cx) (Some ca)
      else raise TypeError
  | _, _ =>
      if (chunk_size <? num_samples)%Z then
        chunks <- lift (chunk_sizes num_samples chunk_size) ;;
        rs <- mapM (_sample_int E self) chunks ;;
        unzip_cat rs
      else _sample_int E self num_samples
  end.


(** ** A small engine to run the model on

    Scores are all zero; a sampled label is 1 wherever the evidence is
    unknown (the evidence is copied through elsewhere); a categorical draw
    returns the first index whose logit is finite. The random source counts
    nothing but the batch sizes asked of the node sampler. *)

Definition first_finite (row : list logit) : nat :=
  length (fst (fold_left
    (fun (acc : list logit * bool) v =>
       let (seen, found) := acc in
       if found then acc
       else match v with
            | NegInf => (v :: seen, false)
            | Fin _ => (seen, true)
            end) row ([], false))).

Definition toy_fill (width n : nat) (x : option (list (list Z)))
  : list (list Z) :=
  match x with
  | Some ev => map (map (fun v => if gt_m1 v then v else 1%Z)) ev
  | None => repeat (repeat 1%Z width) n
  end.

Definition toy_engine (nc nd : nat) : engine := {|
  G := list nat;
  network_x := fun _ x => map (fun _ => repeat 0%R nc) x;
  network_a := fun _ l => map (fun _ => repeat 0%R nc) l;
  network_x_sample := fun _ n _ x g => (toy_fill nd n x, g ++ [n]);
  network_a_sample := fun _ n _ x g => (toy_fill (nd_a_of nd) n x, g);
  Categorical_sample := fun l g => (map first_finite l, g)
|}.

Definition toy_model (nc nd : nat) : PGCMargSort :=
  {| logits_n := repeat 0%R nd; logits_w := repeat 0%R nc |}.

Definition toy_state (nc nd : nat) (h : store) : state (toy_engine nc nd) :=
  mkState (E := toy_engine nc nd) h [] None None [].

(** ** [MolSPNZeroCore] and [MolSPNZeroSort]: the plain variant *)

Module MolSPNZero.

Import String.StringSyntax.
Local Open Scope string_scope.

#[local] Abbreviation string := String.string.

(** [ExponentialFamilyArray.*Array], the leaf families of the engine. *)
Inductive exponential_family : Type :=
| CategoricalArray
| BinomialArray
| NormalArray.

(** The [exponential_family_args] dictionaries. *)
Inductive ef_args : Type :=
| args_K (K : Z)
| args_N (N : Z)
| args_var (min_var max_var : R).

(** [EinsumNetwork.Args(...)] *)
Record Args : Type := mkArgs {
  num_var : nat;
  num_dims : Z;
  num_input_distributions : Z;
  num_sums : Z;
  num_classes : nat;
  exponential_family_ : exponential_family;
  exponential_family_args : ef_args;
  use_em : bool
}.

(** [Graph.random_binary_trees(nd, nl, nr)], kept as its description. *)
Inductive Graph : Type :=
| random_binary_trees (nd : nat) (nl nr : Z).

(** [EinsumNetwork.EinsumNetwork(graph, args)], initialised. *)
Record EinsumNetwork : Type := mkNet { graph : Graph; args : Args }.

(** The local variables the branch on [regime] assigns in [__init__];
    [None] is a name that has not been assigned. *)
Record locals : Type := mkLocals {
  ef_dist_n : option exponential_family;
  ef_dist_e : option exponential_family;
  ef_args_n : option ef_args;
  ef_args_e : option ef_args;
  num_dim_n : option Z;
  num_dim_e : option Z
}.

(** Reading a local variable. *)
Definition local {A} (name : string) (v : option A) : result A :=
  match v with
  | Some a => inr a
  | None => inl (UnboundLocalError name)
  end.

(** Lines 35-59 of [__init__]. In the last branch
    [os.error('Unsupported \'regime\'.')] builds an [OSError] and drops
    it: there is no [raise], and no local is assigned. *)
Definition regime_locals (regime : string) (nk_n nk_e : Z) : locals :=
  if String.eqb regime "cat" then
    mkLocals (Some CategoricalArray) (Some CategoricalArray)
             (Some (args_K nk_n)) (Some (args_K nk_e)) (Some 1%Z) (Some 1%Z)
  else if String.eqb regime "bin" then
    mkLocals (Some BinomialArray) (Some BinomialArray)
             (Some (args_N (nk_n - 1))) (Some (args_N (nk_e - 1)))
             (Some 1%Z) (Some 1%Z)
  else if String.eqb regime "deq" then
    mkLocals (Some NormalArray) (Some NormalArray)
             (Some (args_var (1 / 1000) (1 / 10)))
             (Some (args_var (1 / 1000) (1 / 10)))
             (Some nk_n) (Some nk_e)
  else
    mkLocals None None None None None None.

Record MolSPNZeroCore : Type := mkCore {
  nd_nodes : nat;
  nd_edges : nat;
  nk_nodes : Z;
  nk_edges : Z;
  regime : string;
  (** [self.dc_n], [self.dc_e]: attributes set in the 'deq' branch only. *)
  dc_n : option R;
  dc_e : option R;
  network_nodes : EinsumNetwork;
  network_edges : EinsumNetwork
}.

(** [MolSPNZeroCore.__init__]. The keyword arguments of
    [EinsumNetwork.Args] are evaluated in the order they are written. *)
Definition MolSPNZeroCore_init (nc nd_n nd_e : nat) (nk_n nk_e ns_n ns_e ni_n ni_e : Z)
  (graph_nodes graph_edges : Graph) (regime : string) (dc_n dc_e : R)
  : result MolSPNZeroCore :=
  let L := regime_locals regime nk_n nk_e in
  let dc := if String.eqb regime "deq" then (Some dc_n, Some dc_e) else (None, None) in
  num_dims_n <-? local "num_dim_n" (num_dim_n L) ;;
  dist_n <-? local "ef_dist_n" (ef_dist_n L) ;;
  eargs_n <-? local "ef_args_n" (ef_args_n L) ;;
  let args_nodes := mkArgs nd_n num_dims_n ni_n ns_n nc dist_n eargs_n false in
  num_dims_e <-? local "num_dim_e" (num_dim_e L) ;;
  dist_e <-? local "ef_dist_e" (ef_dist_e L) ;;
  eargs_e <-? local "ef_args_e" (ef_args_e L) ;;
  let args_edges := mkArgs nd_e num_dims_e ni_e ns_e nc dist_e eargs_e false in
  inr (mkCore nd_n nd_e nk_n nk_e regime (fst dc) (snd dc)
              (mkNet graph_nodes args_nodes) (mkNet graph_edges args_edges)).

Record MolSPNZeroSort : Type := mkSort {
  core : MolSPNZeroCore;
  (** [torch.ones(1, nc)]: one row. *)
  logits_w : list R;
  m : matrix bool
}.

(** [MolSPNZeroSort.__init__] *)
Definition MolSPNZeroSort_init (nc nd_n : nat)
  (nk_n nk_e nl_n nl_e nr_n nr_e ns_n ns_e ni_n ni_e : Z)
  (regime : string) (dc_n dc_e : R) : result MolSPNZeroSort :=
  let nd_e := nd_n * (nd_n - 1) / 2 in
  let graph_nodes := random_binary_trees nd_n nl_n nr_n in
  let graph_edges := random_binary_trees nd_e nl_e nr_e in
  c <-? MolSPNZeroCore_init nc nd_n nd_e nk_n nk_e ns_n ns_e ni_n ni_e
          graph_nodes graph_edges regime dc_n dc_e ;;
  inr (mkSort c (repeat 1%R nc) (tril_mask (nd_nodes c))).

(** The default [dc_n=0.6], [dc_e=0.6]. *)
Definition default_dc : R := 6 / 10.

(** A batch handed to, or returned by, a network: integer labels, or
    vectors of width K in the dequantised regime. *)
Inductive batch : Type :=
| IntBatch (v : list (list Z))
| RealBatch (v : list (list (list R))).

(** The engine and the random source, as above. *)
Record engine : Type := mkEngine {
  G : Type;
  network : EinsumNetwork -> batch -> list (list R);
  network_sample : EinsumNetwork -> nat -> list nat -> G -> batch * G;
  (** [Categorical(logits=l).sample((n,)).squeeze()] *)
  Categorical_sample : list R -> nat -> G -> list nat * G;
  (** [torch.rand] of shapes [(B, N, K)] and [(B, N, N, K)]. *)
  rand3 : nat -> nat -> nat -> G -> list (list (list R)) * G;
  rand4 : nat -> nat -> nat -> nat -> G -> list (matrix (list R)) * G
}.

Definition draw {E A} (f : G E -> A * G E) : ST (G E) A :=
  fun g => let (v, g') := f g in (inr v, g').

(** Modelled from the spec: [cat2ohe] of [models/utils.py] (a module that
    is not available): "integer indices are first expanded into one-hot
    vectors of width K". *)
Definition one_hot (K : Z) (v : Z) : list R :=
  map (fun k => if (Z.of_nat k =? v)%Z then 1%R else 0%R) (seq 0 (Z.to_nat K)).

Definition cat2ohe (x : list (list Z)) (a : list (matrix Z)) (nk_n nk_e : Z)
  : list (list (list R)) * list (matrix (list R)) :=
  (map (map (one_hot nk_n)) x, map (map (map (one_hot nk_e))) a).

(** Modelled from the spec: [ohe2cat] of [models/utils.py] (a module that
    is not available): the inverse "must pick the arg-max dimension of the
    produced vector", "lowest index wins" on ties. *)
Fixpoint argmax_from (best_i : nat) (best : R) (i : nat) (l : list R) : nat :=
  match l with
  | [] => best_i
  | v :: l' =>
      if Rlt_dec best v then argmax_from i v (S i) l'
      else argmax_from best_i best (S i) l'
  end.

Definition argmax (l : list R) : Z :=
  match l with
  | [] => 0%Z
  | v :: l' => Z.of_nat (argmax_from 0 v 1 l')
  end.

Definition ohe2cat (x : list (list (list R))) (a : list (matrix (list R)))
  : list (list Z) * list (matrix Z) :=
  (map (map argmax) x, map (map (map argmax)) a).

(** [t + c * noise], elementwise on the last dimension. *)
Definition add_noise (c : R) (t noise : list R) : list R :=
  zip_with (fun v u => (v + c * u)%R) t noise.

(** What [forward] hands to [_forward]. *)
Inductive adapted : Type :=
| Cat (x : list (list Z)) (a : list (matrix Z))
| Deq (x : list (list (list R))) (a : list (matrix (list R))).

(** Reading an attribute that may not have been set. *)
Definition attr {S A} (v : option A) : ST S A :=
  match v with
  | Some a => ret a
  | None => raise RuntimeError
  end.

(** [MolSPNZeroSort._forward]; after the branch on the regime,
    [ll_edges] is read. *)
Definition _forward (E : engine) (self : MolSPNZeroSort) (xa : option adapted)
  : ST (G E) (list R) :=
  let c := core self in
  match xa with
  | None => raise (UnboundLocalError "_x")
  | Some xa =>
      let ll_nodes :=
        match xa with
        | Cat x _ => network E (network_nodes c) (IntBatch x)
        | Deq x _ => network E (network_nodes c) (RealBatch x)
        end in
      ll_edges <-
        (if String.eqb (regime c) "cat" || String.eqb (regime c) "bin" then
           match xa with
           | Cat _ a =>
               guard (forallb (has_shape (nd_nodes c) (nd_nodes c)) a) IndexError ;;;
               ret (network E (network_edges c)
                      (IntBatch (map (fun a => masked_select a (m self)) a)))
           | Deq _ _ => raise RuntimeError
           end
         else if String.eqb (regime c) "deq" then
           match xa with
           | Deq _ a =>
               guard (forallb (has_shape (nd_nodes c) (nd_nodes c)) a) IndexError ;;;
               ret (network E (network_edges c)
                      (RealBatch (map (fun a => masked_select a (m self)) a)))
           | Cat _ _ => raise RuntimeError
           end
         else raise (UnboundLocalError "ll_edges")) ;;
      guard (has_shape (length ll_nodes) (length (logits_w self)) ll_nodes
             && has_shape (length ll_nodes) (length (logits_w self)) ll_edges)
            RuntimeError ;;;
      ret (map logsumexp
             (add_logs ll_nodes ll_edges (log_softmax (logits_w self))))
  end.

(** [MolSPNZeroCore.forward]: in the last branch [os.error('Unknown regime')]
    raises nothing, and [_x] is read unassigned. *)
Definition forward (E : engine) (self : MolSPNZeroSort)
  (x : list (list Z)) (a : list (matrix Z)) : ST (G E) (list R) :=
  let c := core self in
  xa <-
    (if String.eqb (regime c) "cat" || String.eqb (regime c) "bin" then ret (Some (Cat x a))
     else if String.eqb (regime c) "deq" then
       let (x1, a1) := cat2ohe x a (nk_nodes c) (nk_edges c) in
       dcn <- attr (dc_n c) ;;
       nx <- draw (rand3 E (length x1) (nd_nodes c) (Z.to_nat (nk_nodes c))) ;;
       dce <- attr (dc_e c) ;;
       na <- draw (rand4 E (length a1) (nd_nodes c) (nd_nodes c)
                         (Z.to_nat (nk_edges c))) ;;
       ret (Some (Deq (zip_with (zip_with (add_noise dcn)) x1 nx)
                      (zip_with (zip_with (zip_with (add_noise dce))) a1 na)))
     else ret None) ;;
  _forward E self xa.

Definition logpdf (E : engine) (self : MolSPNZeroSort)
  (x : list (list Z)) (a : list (matrix Z)) : ST (G E) R :=
  r <- forward E self x a ;; ret (mean r).

(** [MolSPNZeroSort.sample]. [dist_w.sample((num_samples, ))] raises
    [RuntimeError] when there is nothing to draw ([multinomial] refuses to
    draw 0 samples, and a distribution over no component has no row to
    draw from). In the 'deq' branch the edge tensor is not mirrored. In
    the last branch nothing is raised and [a] is read unassigned. *)
Definition sample (E : engine) (self : MolSPNZeroSort) (num_samples : nat)
  : ST (G E) (list (list Z) * list (matrix Z)) :=
  let c := core self in
  guard ((0 <? num_samples) && (0 <? length (logits_w self))) RuntimeError ;;;
  samp_w <- draw (Categorical_sample E (logits_w self) num_samples) ;;
  x <- draw (network_sample E (network_nodes c) num_samples samp_w) ;;
  l <- draw (network_sample E (network_edges c) num_samples samp_w) ;;
  if String.eqb (regime c) "cat" || String.eqb (regime c) "bin" then
    match x, l with
    | IntBatch x, IntBatch l =>
        guard (has_shape num_samples (nd_edges c) l) RuntimeError ;;;
        ret (x, map (tril_unflatten 0%Z (nd_nodes c) (nk_edges c - 1)%Z) l)
    | _, _ => raise RuntimeError
    end
  else if String.eqb (regime c) "deq" then
    match x, l with
    | RealBatch x, RealBatch l =>
        guard (has_shape num_samples (nd_edges c) l) RuntimeError ;;;
        let a0 := full (nd_nodes c) (repeat 0%R (Z.to_nat (nk_edges c))) in
        ret (ohe2cat x (map (masked_assign a0 (m self)) l))
    | _, _ => raise RuntimeError
    end
  else raise (UnboundLocalError "a").

End MolSPNZero.

(** ** Notions of the specification *)

(** "A node is present iff its entry is not the padding sentinel"; the
    sentinel is 0 in the caller's encoding of the labels. *)
Definition present (v : Z) : bool := negb (v =? 0)%Z.

(** "count of non-padding node entries" *)
Definition count_non_padding (x : list Z) : Z :=
  Z.of_nat (length (filter present x)).

(** The values of a node tensor after [x -= 1]. *)
Definition decrement (x : list (list Z)) : list (list Z) :=
  map (map (fun v => (v - 1)%Z)) x.

(** "logpdf = logprob(n) + logsumexp_c( score_node[c] + score_edge[c]
    + logsoftmax(w)[c] )" for one example, [n] being the count of
    non-padding entries minus one and [logprob] the normalised logit of
    the node-count distribution. *)
Definition spec_logpdf (self : PGCMargSort) (x : list Z)
  (score_node score_edge : list R) : R :=
  (nth (Z.to_nat (count_non_padding x - 1)) (log_softmax (logits_n self)) 0
   + logsumexp
       (map (fun c => nth c score_node 0 + nth c score_edge 0
                      + nth c (log_softmax (logits_w self)) 0)
            (seq 0 (nc self))))%R.

(** The number of examples of a call of [_sample]: that of the evidence
    when both kinds are given, [num_samples] otherwise. *)
Definition resolved_size (num_samples : nat) (cond_x : option tref)
  (cond_a : option (list (matrix Z))) : nat :=
  match cond_x, cond_a with
  | Some cx, Some _ => len cx
  | _, _ => num_samples
  end.

(** The node evidence a call of [_sample] conditions on: the caller's
    tensor after [cond_x -= 1]. *)
Definition node_evidence {E} (s : state E) (cond_x : option tref)
  : option (list (list Z)) :=
  option_map (fun cx => decrement (rows (heap s) cx)) cond_x.

(** Where node evidence is given ([mask_x]). *)
Definition node_evidence_mask (self : PGCMargSort) (B : nat)
  (ev : option (list (list Z))) : matrix bool :=
  match ev with
  | Some xv => map (map gt_m1) xv
  | None => repeat (repeat false (nd_x self)) B
  end.

(** Where edge evidence is given ([mask_a]), on the triangular vector. *)
Definition edge_evidence_mask (self : PGCMargSort) (B : nat)
  (cond_a : option (list (matrix Z))) : matrix bool :=
  match cond_a with
  | Some ca => map (fun a => tril_flatten (nd_x self) (map (map gt_m1) a)) ca
  | None => repeat (repeat false (nd_a self)) B
  end.

(** The parameter [logits_n] holds the values of [self]: no entry of it
    has been overwritten. *)
Definition intact (fill : list bool) : Prop :=
  forall i, nth i fill false = false.

(** The marks of the parameter [logits_n] after a call of [_sample] has
    written the node evidence [ev] into it. *)
Definition fill_after (self : PGCMargSort) (fill : list bool)
  (ev : option (list (list Z))) : list bool :=
  match ev with
  | Some xv => fill_or (nd_x self) fill (map (map gt_m1) xv)
  | None => fill
  end.

(** The logits of the size draw ([logs_n]) and the sizes drawn ([samp_n]):
    example [b] has the nodes [0 .. samp_n[b]]. *)
Definition size_logits (self : PGCMargSort) (fill : list bool) (B : nat)
  (ev : option (list (list Z))) : list (list logit) :=
  repeat (logits_n_now self (fill_after self fill ev)) B.

Definition sampled_sizes (E : engine) (self : PGCMargSort)
  (fill : list bool) (B : nat) (ev : option (list (list Z))) (g : G E)
  : list nat :=
  fst (Categorical_sample E (size_logits self fill B ev) g).

(** The scores a call of [_sample] conditions on: those of the evidence
    under the evidence masks ([logs_x], [logs_a]), zero where no evidence
    is given. *)
Definition node_scores (E : engine) (self : PGCMargSort) (B : nat)
  (ev : option (list (list Z))) : list (list R) :=
  match ev with
  | Some xv => network_x E (Some (map (map gt_m1) xv)) xv
  | None => repeat (repeat 0%R (nc self)) B
  end.

Definition edge_scores (E : engine) (self : PGCMargSort) (B : nat)
  (cond_a : option (list (matrix Z))) : list (list R) :=
  match cond_a with
  | Some ca => network_a E (Some (edge_evidence_mask self B cond_a))
                           (map (tril_flatten (nd_x self)) ca)
  | None => repeat (repeat 0%R (nc self)) B
  end.

(** "per-component log-weight as score_node[c] + score_edge[c]
    + logsoftmax(w)[c]", for one example. *)
Definition spec_posterior_logits (self : PGCMargSort)
  (score_node score_edge : list R) : list R :=
  map (fun c => (nth c score_node 0 + nth c score_edge 0
                 + nth c (log_softmax (logits_w self)) 0)%R)
      (seq 0 (nc self)).

(** Some size can be drawn: an entry of the parameter [logits_n] is
    finite. *)
Definition drawable (self : PGCMargSort) (fill : list bool) : Prop :=
  existsb is_fin (logits_n_now self fill) = true.

(** The contract of the engine that unconditional sampling relies on: one
    index per row of logits, and batches of shape (n, nd_x), (n, nd_a). *)
Definition sampler_ok (E : engine) (self : PGCMargSort) : Prop :=
  (forall l g, length (fst (Categorical_sample E l g)) = length l) /\
  (forall mk n c g,
     has_shape n (nd_x self) (fst (network_x_sample E mk n c None g)) = true) /\
  (forall mk n c g,
     has_shape n (nd_a self) (fst (network_a_sample E mk n c None g)) = true).

(** "full-size chunks plus an optional final remainder chunk" *)
Definition spec_chunks (num_samples chunk_size : Z) : list Z :=
  repeat chunk_size (Z.to_nat (num_samples / chunk_size))
  ++ (if (0 <? num_samples mod chunk_size)%Z
      then [(num_samples mod chunk_size)%Z] else []).

(** An edge tensor of one example as the samplers promise it: [N] x [N],
    symmetric, with [pad] on the diagonal. *)
Definition well_formed_edges (N : nat) (pad : Z) (a : matrix Z) : Prop :=
  has_shape N N a = true /\ symmetric 0%Z N a /\ diagonal_is 0%Z N pad a.

(** A returned pair of [B] node rows and [B] edge tensors. *)
Definition well_formed_sample (self : PGCMargSort) (B : nat)
  (r : list (list Z) * list (matrix Z)) : Prop :=
  length (fst r) = B /\ length (snd r) = B /\
  rows_of_width (nd_x self) (fst r) /\
  Forall (well_formed_edges (nd_x self) 0%Z) (snd r).

(** The contract of the engine the plain variant's sampler relies on in
    the 'cat' and 'bin' regimes: batches of integer labels of shape
    (n, nd_nodes) and (n, nd_edges). *)
Definition zero_sampler_ok (E : MolSPNZero.engine)
  (self : MolSPNZero.MolSPNZeroSort) : Prop :=
  forall n c g,
    (exists v,
       fst (MolSPNZero.network_sample E
              (MolSPNZero.network_nodes (MolSPNZero.core self)) n c g)
       = MolSPNZero.IntBatch v /\
       has_shape n (MolSPNZero.nd_nodes (MolSPNZero.core self)) v = true) /\
    (exists v,
       fst (MolSPNZero.network_sample E
              (MolSPNZero.network_edges (MolSPNZero.core self)) n c g)
       = MolSPNZero.IntBatch v /\
       has_shape n (MolSPNZero.nd_edges (MolSPNZero.core self)) v = true).

(** A small engine for the plain variant: every sampled label is 1. *)
Definition toy_zero_engine : MolSPNZero.engine := {|
  MolSPNZero.G := unit;
  MolSPNZero.network := fun _ _ => [];
  MolSPNZero.network_sample := fun net n _ g =>
    (MolSPNZero.IntBatch
       (repeat (repeat 1%Z (MolSPNZero.num_var (MolSPNZero.args net))) n), g);
  MolSPNZero.Categorical_sample := fun _ n g => (repeat 0 n, g);
  MolSPNZero.rand3 := fun _ _ _ g => ([], g);
  MolSPNZero.rand4 := fun _ _ _ _ g => ([], g)
|}.

(** "three calls of sizes [n1], [n2], [n3] concatenated in order", each on
    the random source the previous one left. *)
Definition three_calls (E : engine) (self : PGCMargSort) (n1 n2 n3 : nat)
  : M E (list (list Z) * list (matrix Z)) :=
  r1 <- _sample E self n1 None None ;;
  r2 <- _sample E self n2 None None ;;
  r3 <- _sample E self n3 None None ;;
  ret (fst r1 ++ fst r2 ++ fst r3, snd r1 ++ snd r2 ++ snd r3).

(** ** Notions used by the further properties *)

(** The number of true entries of a mask. *)
Definition count_true (mk : matrix bool) : nat :=
  length (filter (fun b : bool => b) (concat mk)).

(** The model whose node-count logits are all raised by [cn] and whose
    mixture logits are all raised by [cw]. *)
Definition shift_logits (self : PGCMargSort) (cn cw : R) : PGCMargSort :=
  {| logits_n := map (fun v => (v + cn)%R) (logits_n self);
     logits_w := map (fun v => (v + cw)%R) (logits_w self) |}.

(** A logit raised by [c]; [-inf] stays [-inf]. *)
Definition shift_logit (c : R) (v : logit) : logit :=
  match v with
  | Fin r => Fin (r + c)
  | NegInf => NegInf
  end.

(** "logpdf(x, a) = logsumexp_c( score_node[c] + score_edge[c]
    + logsoftmax(w)[c] )" of the plain mixture, for one example. *)
Definition spec_plain_logpdf (w score_node score_edge : list R) : R :=
  logsumexp
    (map (fun c => (nth c score_node 0 + nth c score_edge 0
                    + nth c (log_softmax w) 0)%R)
         (seq 0 (length w))).

(** The sizes of a model of the plain variant agree with each other. *)
Definition consistent_sizes (nc nd_n : nat)
  (self : MolSPNZero.MolSPNZeroSort) : Prop :=
  let c := MolSPNZero.core self in
  MolSPNZero.nd_nodes c = nd_n /\
  MolSPNZero.nd_edges c = nd_n * (nd_n - 1) / 2 /\
  MolSPNZero.m self = tril_mask nd_n /\
  count_true (MolSPNZero.m self) = MolSPNZero.nd_edges c /\
  length (MolSPNZero.logits_w self) = nc /\
  MolSPNZero.num_var (MolSPNZero.args (MolSPNZero.network_nodes c)) = nd_n /\
  MolSPNZero.num_var (MolSPNZero.args (MolSPNZero.network_edges c))
  = MolSPNZero.nd_edges c /\
  MolSPNZero.num_classes (MolSPNZero.args (MolSPNZero.network_nodes c)) = nc /\
  MolSPNZero.num_classes (MolSPNZero.args (MolSPNZero.network_edges c)) = nc.

(** A small engine for the plain variant that scores: two components,
    every log-likelihood 0. *)
Definition toy_zero_scorer : MolSPNZero.engine := {|
  MolSPNZero.G := unit;
  MolSPNZero.network := fun _ b =>
    match b with
    | MolSPNZero.IntBatch v => map (fun _ => [0%R; 0%R]) v
    | MolSPNZero.RealBatch v => map (fun _ => [0%R; 0%R]) v
    end;
  MolSPNZero.network_sample := fun _ _ _ g => (MolSPNZero.IntBatch [], g);
  MolSPNZero.Categorical_sample := fun _ n g => (repeat 0 n, g);
  MolSPNZero.rand3 := fun _ _ _ g => ([], g);
  MolSPNZero.rand4 := fun _ _ _ _ g => ([], g)
|}.

(** The contract of a circuit sampler on evidence: "positions that are
    evidence must be copied through unchanged into the result"; a position
    is evidence when its value is above the sentinel -1. *)
Definition copies_evidence {G : Type}
  (f : option (matrix bool) -> nat -> list nat -> option (list (list Z)) ->
       G -> list (list Z) * G) : Prop :=
  forall mk n c ev g b i,
    b < length ev -> i < length (nth b ev []) ->
    gt_m1 (nth i (nth b ev []) 0%Z) = true ->
    nth i (nth b (fst (f mk n c (Some ev) g)) []) 0%Z
    = nth i (nth b ev []) 0%Z.

(** Two batches of edge tensors that agree strictly below the diagonal. *)
Definition agree_below_diagonal (N : nat) (a a' : list (matrix Z)) : Prop :=
  length a = length a' /\
  forall b i j, b < length a -> i < N -> j < i ->
    get 0%Z (nth b a []) i j = get 0%Z (nth b a' []) i j.

(** * Properties *)

(** ** Facts on the mask *)

Lemma tri_closed n : tri n = n * (n - 1) / 2.
Proof.
  induction n as [|n IH]; [reflexivity|].
  cbn [tri]. rewrite IH.
  replace (S n - 1) with n by lia.
  destruct n as [|n]; [reflexivity|].
  replace (S n - 1) with n by lia.
  replace (S (S n) * S n) with (S n * n + S n * 2) by lia.
  rewrite Nat.div_add by lia. lia.
Qed.

Lemma tri_nd_a N : tri N = nd_a_of N.
Proof. apply tri_closed. Qed.

Lemma tri_le n m : n <= m -> tri n <= tri m.
Proof. induction 1; cbn [tri]; lia. Qed.

Lemma tri_lt i j N : j < i -> i < N -> tri i + j < tri N.
Proof.
  intros Hj Hi. assert (H : tri (S i) <= tri N) by (apply tri_le; lia).
  cbn [tri] in H. lia.
Qed.

Lemma length_tril_row N i : length (tril_row N i) = N.
Proof. unfold tril_row. now rewrite length_map, length_seq. Qed.

Lemma length_tril_mask N : length (tril_mask N) = N.
Proof. unfold tril_mask. now rewrite length_map, length_seq. Qed.

Lemma nth_map_seq {A} (f : nat -> A) s n i d :
  i < n -> nth i (map f (seq s n)) d = f (s + i).
Proof.
  intros Hi. rewrite nth_indep with (d' := f 0) by now rewrite length_map, length_seq.
  rewrite map_nth. now rewrite seq_nth.
Qed.

Lemma get_tril_mask N i j :
  i < N -> j < N -> get false (tril_mask N) i j = (j <? i).
Proof.
  intros Hi Hj. unfold get, tril_mask.
  rewrite nth_map_seq by assumption. unfold tril_row.
  now rewrite nth_map_seq.
Qed.

(** ** Facts on mask indexing *)

Section Codec.
Context {A : Type}.
Variable d : A.

Lemma select_row_prefix (row : list A) i s :
  select_row row (map (fun j => j <? i) (seq s (length row)))
  = firstn (i - s) row.
Proof.
  revert s. induction row as [|v row IH]; intros s; cbn [length seq map select_row].
  - now rewrite firstn_nil.
  - rewrite IH. destruct (Nat.ltb_spec s i) as [Hlt|Hge].
    + replace (i - s) with (S (i - S s)) by lia. reflexivity.
    + replace (i - s) with 0 by lia. replace (i - S s) with 0 by lia. reflexivity.
Qed.

Lemma select_row_tril N (row : list A) i :
  length row = N -> select_row row (tril_row N i) = firstn i row.
Proof.
  intros <-. unfold tril_row. rewrite select_row_prefix. now rewrite Nat.sub_0_r.
Qed.

Lemma assign_row_prefix (row : list A) i s (l : list A) :
  i - s <= length l ->
  assign_row row (map (fun j => j <? i) (seq s (length row))) l
  = (firstn (Nat.min (i - s) (length row)) l ++ skipn (i - s) row,
     skipn (Nat.min (i - s) (length row)) l).
Proof.
  revert s l. induction row as [|v row IH]; intros s l Hl;
    cbn [length seq map assign_row].
  - rewrite Nat.min_0_r. cbn. now rewrite skipn_nil.
  - destruct (Nat.ltb_spec s i) as [Hlt|Hge].
    + destruct l as [|y l]; [cbn in Hl; lia|].
      rewrite IH by (cbn in Hl; lia).
      replace (i - s) with (S (i - S s)) by lia.
      rewrite <- Nat.succ_min_distr. reflexivity.
    + rewrite IH by lia.
      replace (i - s) with 0 by lia. replace (i - S s) with 0 by lia.
      reflexivity.
Qed.

Lemma assign_row_tril N (row : list A) i (l : list A) :
  length row = N -> i <= N -> i <= length l ->
  assign_row row (tril_row N i) l = (firstn i l ++ skipn i row, skipn i l).
Proof.
  intros <- Hi Hl. unfold tril_row. rewrite assign_row_prefix by lia.
  rewrite Nat.sub_0_r. now rewrite Nat.min_l by assumption.
Qed.

(** Rows [s .. s+n-1] of the mask against as many rows of a tensor. *)
Lemma nth_masked_select N (rs : matrix A) s k j :
  Forall (fun r => length r = N) rs ->
  k < length rs -> j < s + k -> s + length rs <= N ->
  nth (tri (s + k) - tri s + j)
      (masked_select rs (map (tril_row N) (seq s (length rs)))) d
  = get d rs k j.
Proof.
  revert s k. induction rs as [|r rs IH]; intros s k HN Hk Hj Hs;
    [cbn in Hk; lia|].
  inversion HN as [|? ? Hr HN']; subst.
  cbn [length seq map masked_select]. rewrite select_row_tril by reflexivity.
  cbn [length] in Hk, Hs.
  destruct k as [|k].
  - rewrite Nat.add_0_r, Nat.sub_diag. cbn [Nat.add].
    rewrite app_nth1 by (rewrite length_firstn; lia).
    unfold get. cbn [nth]. rewrite Nat.add_0_r in Hj.
    rewrite <- (firstn_skipn s r) at 2. now rewrite app_nth1 by (rewrite length_firstn; lia).
  - assert (Hle : tri (S s) <= tri (S s + k)) by (apply tri_le; lia).
    cbn [tri] in Hle.
    rewrite app_nth2 by (rewrite length_firstn; replace (s + S k) with (S s + k) by lia; lia).
    rewrite length_firstn, Nat.min_l by lia.
    replace (tri (s + S k) - tri s + j - s) with (tri (S s + k) - tri (S s) + j)
      by (replace (s + S k) with (S s + k) by lia; cbn [tri]; lia).
    rewrite IH by (assumption || lia). reflexivity.
Qed.

Lemma nth_tril_flatten N (a : matrix A) i j :
  has_shape N N a = true -> i < N -> j < i ->
  nth (tri i + j) (tril_flatten N a) d = get d a i j.
Proof.
  intros Hs Hi Hj. unfold has_shape in Hs.
  apply andb_prop in Hs as [Hl Hr]. apply Nat.eqb_eq in Hl.
  rewrite forallb_forall in Hr.
  unfold tril_flatten, tril_mask. rewrite <- Hl at 2.
  pose proof (nth_masked_select N a 0 i j) as H.
  cbn [Nat.add tri] in H. rewrite Nat.sub_0_r in H. apply H; try lia.
  apply Forall_forall. intros r Hin. now apply Nat.eqb_eq, Hr.
Qed.

Lemma has_shape_spec B N (a : matrix A) :
  has_shape B N a = true <-> length a = B /\ rows_of_width N a.
Proof.
  unfold has_shape, rows_of_width. rewrite andb_true_iff, Nat.eqb_eq.
  rewrite forallb_forall, Forall_forall.
  split; intros [H1 H2]; (split; [assumption|]); intros r Hr;
    apply Nat.eqb_eq; now apply H2.
Qed.

Lemma masked_assign_rows N (rs : matrix A) s (l : list A) :
  rows_of_width N rs -> s + length rs <= N ->
  tri (s + length rs) - tri s <= length l ->
  let r := masked_assign rs (map (tril_row N) (seq s (length rs))) l in
  length r = length rs /\ rows_of_width N r /\
  forall k j, k < length rs -> j < N ->
    get d r k j
    = if j <? s + k then nth (tri (s + k) - tri s + j) l d else get d rs k j.
Proof.
  revert s l. induction rs as [|r0 rs IH]; intros s l HN Hs Hl.
  - cbn. repeat split; [constructor|]. intros k j Hk. cbn in Hk. lia.
  - inversion HN as [|? ? Hr HN']; subst. cbn [length] in Hs, Hl.
    assert (Hle : tri (S s) <= tri (s + S (length rs))) by (apply tri_le; lia).
    cbn [tri] in Hle.
    cbn [length seq map masked_assign].
    rewrite assign_row_tril by (reflexivity || lia).
    destruct (IH (S s) (skipn s l) HN') as (IH1 & IH2 & IH3);
      [lia | rewrite length_skipn;
             replace (S s + length rs) with (s + S (length rs)) by lia;
             cbn [tri]; lia |].
    cbn zeta. split; [cbn [length]; now rewrite IH1|].
    split.
    + constructor; [|exact IH2].
      rewrite length_app, length_firstn, length_skipn. lia.
    + intros k j Hk Hj. destruct k as [|k].
      * rewrite Nat.add_0_r, Nat.sub_diag. unfold get. cbn [nth Nat.add].
        destruct (Nat.ltb_spec j s) as [Hlt|Hge].
        -- rewrite app_nth1 by (rewrite length_firstn; lia).
           rewrite nth_firstn. now apply Nat.ltb_lt in Hlt as ->.
        -- rewrite app_nth2 by (rewrite length_firstn; lia).
           rewrite length_firstn, Nat.min_l by lia.
           rewrite nth_skipn. f_equal. lia.
      * change (get d (?x :: ?r) (S k) j) with (get d r k j).
        rewrite IH3 by lia.
        replace (S s + k) with (s + S k) by lia.
        destruct (j <? s + S k); [|reflexivity].
        rewrite nth_skipn. f_equal.
        assert (tri (S s) <= tri (s + S k)) by (apply tri_le; lia).
        cbn [tri] in *. lia.
Qed.

Lemma masked_assign_tril N (a : matrix A) (l : list A) :
  has_shape N N a = true -> tri N <= length l ->
  has_shape N N (masked_assign a (tril_mask N) l) = true /\
  forall i j, i < N -> j < N ->
    get d (masked_assign a (tril_mask N) l) i j
    = if j <? i then nth (tri i + j) l d else get d a i j.
Proof.
  intros Hs Hl. apply has_shape_spec in Hs as [Hlen Hw].
  pose proof (masked_assign_rows N a 0 l Hw) as H.
  cbn [Nat.add tri] in H. rewrite Nat.sub_0_r, Hlen in H.
  destruct (H (Nat.le_refl _) Hl) as (H1 & H2 & H3).
  split; [apply has_shape_spec; now split|].
  intros i j Hi Hj. rewrite H3 by assumption. now rewrite Nat.sub_0_r.
Qed.

Lemma has_shape_full N (v : A) :
  has_shape N N (full N v) = true.
Proof.
  apply has_shape_spec. unfold full. split; [apply repeat_length|].
  apply Forall_forall. intros r Hr. apply repeat_spec in Hr. subst.
  apply repeat_length.
Qed.

Lemma get_full N (v : A) i j : i < N -> j < N -> get d (full N v) i j = v.
Proof.
  intros Hi Hj. unfold get, full.
  rewrite nth_repeat_lt by assumption. now rewrite nth_repeat_lt.
Qed.

Lemma has_shape_transpose N (a : matrix A) :
  has_shape N N (transpose d N a) = true.
Proof.
  apply has_shape_spec. unfold transpose.
  split; [now rewrite length_map, length_seq|].
  apply Forall_forall. intros r Hr. apply in_map_iff in Hr as (i & <- & _).
  now rewrite length_map, length_seq.
Qed.

Lemma get_transpose N (a : matrix A) i j :
  i < N -> j < N -> get d (transpose d N a) i j = get d a j i.
Proof.
  intros Hi Hj. unfold transpose. unfold get at 1.
  rewrite nth_map_seq by assumption. now rewrite nth_map_seq.
Qed.

(** The entries of a reconstructed edge tensor. *)
Lemma get_tril_unflatten N pad (l : list A) i j :
  length l = tri N -> i < N -> j < N ->
  get d (tril_unflatten d N pad l) i j
  = if j <? i then nth (tri i + j) l d
    else if i <? j then nth (tri j + i) l d
    else pad.
Proof.
  intros Hl Hi Hj. unfold tril_unflatten.
  rewrite get_transpose by assumption.
  destruct (masked_assign_tril N (full N pad) l) as [Hs1 He1];
    [apply (has_shape_full N) | lia |].
  destruct (masked_assign_tril N
              (transpose d N (masked_assign (full N pad) (tril_mask N) l)) l)
    as [Hs2 He2]; [apply has_shape_transpose | lia |].
  rewrite He2 by assumption.
  destruct (Nat.ltb_spec i j) as [Hij|Hij].
  - assert (Hji : (j <? i) = false) by (apply Nat.ltb_ge; lia).
    now rewrite Hji.
  - rewrite get_transpose, He1 by assumption.
    destruct (j <? i); [reflexivity|]. now apply get_full.
Qed.

Lemma has_shape_tril_unflatten N pad (l : list A) :
  has_shape N N (tril_unflatten d N pad l) = true.
Proof. apply has_shape_transpose. Qed.

Lemma matrix_ext B N (a b : matrix A) :
  has_shape B N a = true -> has_shape B N b = true ->
  (forall i j, i < B -> j < N -> get d a i j = get d b i j) ->
  a = b.
Proof.
  intros Ha Hb H.
  apply has_shape_spec in Ha as [Hla Hwa], Hb as [Hlb Hwb].
  apply nth_ext with (d := []) (d' := []); [congruence|].
  intros i Hi.
  assert (Hra : length (nth i a []) = N)
    by (apply (proj1 (Forall_nth _ _) Hwa); assumption).
  assert (Hrb : length (nth i b []) = N)
    by (apply (proj1 (Forall_nth _ _) Hwb); congruence).
  apply nth_ext with (d := d) (d' := d); [congruence|].
  intros j Hj. apply H; congruence.
Qed.

Lemma length_tril_flatten N (a : matrix A) :
  has_shape N N a = true -> length (tril_flatten N a) = tri N.
Proof.
  intros Hs. apply has_shape_spec in Hs as [Hlen Hw].
  unfold tril_flatten, tril_mask. rewrite <- Hlen at 2.
  assert (H : forall s (rs : matrix A), rows_of_width N rs -> s + length rs <= N ->
            length (masked_select rs (map (tril_row N) (seq s (length rs))))
            = tri (s + length rs) - tri s).
  { clear. intros s rs. revert s. induction rs as [|r rs IH]; intros s Hw Hs.
    - cbn. rewrite Nat.add_0_r. lia.
    - inversion Hw; subst. cbn [length seq map masked_select] in *.
      rewrite length_app, select_row_tril, length_firstn, IH by (reflexivity || assumption || lia).
      assert (tri (S s) <= tri (S s + length rs)) by (apply tri_le; lia).
      replace (s + S (length rs)) with (S s + length rs) by lia.
      cbn [tri] in *. lia. }
  rewrite (H 0 a Hw) by lia. rewrite Hlen. cbn [Nat.add tri]. lia.
Qed.
End Codec.

(** ** The triangular codec: round trip *)

(** Counterexample to C2 as stated: a symmetric matrix whose diagonal is not the pad
    value is not reproduced; the diagonal of the result holds the pad. *)
Lemma tril_roundtrip_diagonal_counterexample :
  let a := [[7; 1]; [1; 7]]%Z in
  has_shape 2 2 a = true /\ symmetric 0%Z 2 a /\
  tril_flatten 2 a = [1%Z] /\
  tril_unflatten 0%Z 2 0%Z (tril_flatten 2 a) = [[0; 1]; [1; 0]]%Z /\
  tril_unflatten 0%Z 2 0%Z (tril_flatten 2 a) <> a.
Proof.
  cbv zeta. repeat split; try reflexivity; try discriminate.
  intros [|[|i]] [|[|j]] Hi Hj; try reflexivity; lia.
Qed.

(** C2 (amended): for every symmetric N x N matrix whose diagonal entries
    equal the pad value, flattening at the strictly-lower-triangular
    positions in row-major order and unflattening (fill with the pad,
    write the mask positions, mirror) reproduces the matrix exactly; the
    flattened vector has tri N = N(N-1)/2 entries, entry [tri i + j] being
    [a[i][j]]; and the 4x4 scenario holds. *)
Theorem tril_roundtrip (N : nat) (pad : Z) (a : matrix Z) :
  has_shape N N a = true ->
  symmetric 0%Z N a ->
  diagonal_is 0%Z N pad a ->
  tril_unflatten 0%Z N pad (tril_flatten N a) = a /\
  length (tril_flatten N a) = nd_a_of N /\
  (forall i j, i < N -> j < i ->
     nth (tri i + j) (tril_flatten N a) 0%Z = get 0%Z a i j) /\
  tril_flatten 4 a4 = [1; 2; 4; 3; 5; 6]%Z /\
  tril_unflatten 0%Z 4 0%Z [1; 2; 4; 3; 5; 6]%Z = a4.
Proof.
  intros Hs Hsym Hdiag.
  assert (Hlen : length (tril_flatten N a) = tri N)
    by now apply length_tril_flatten.
  split; [|split; [now rewrite <- tri_nd_a|split; [|split; reflexivity]]].
  - apply matrix_ext with (d := 0%Z) (B := N) (N := N);
      [apply has_shape_tril_unflatten | assumption |].
    intros i j Hi Hj. rewrite get_tril_unflatten by assumption.
    destruct (Nat.ltb_spec j i) as [Hji|Hji].
    + now apply nth_tril_flatten.
    + destruct (Nat.ltb_spec i j) as [Hij|Hij].
      * rewrite nth_tril_flatten by assumption. now apply Hsym.
      * assert (i = j) by lia. subst. symmetry. now apply Hdiag.
  - intros i j Hi Hj. now apply nth_tril_flatten.
Qed.

Lemma tril_roundtrip_witness :
  tril_unflatten 0%Z 4 0%Z (tril_flatten 4 a4) = a4.
Proof.
  apply (tril_roundtrip 4 0%Z a4).
  - reflexivity.
  - intros i j Hi Hj.
    destruct i as [|[|[|[|i]]]]; destruct j as [|[|[|[|j]]]];
      try reflexivity; lia.
  - intros i Hi. destruct i as [|[|[|[|i]]]]; try reflexivity; lia.
Defined.

(** ** The store *)

Lemma rows_store_isub (h : store) (x : tref) (k : Z) :
  rows (store_isub h x k) x
  = map (map (fun v => (v - k)%Z)) (rows h x).
Proof.
  unfold rows, store_isub. rewrite Nat.eqb_refl.
  set (hb := h (base x)).
  destruct (Nat.le_gt_cases (off x) (length hb)) as [Hle|Hgt].
  - rewrite skipn_app, skipn_firstn_comm.
    rewrite length_firstn, Nat.min_l by assumption.
    rewrite Nat.sub_diag. cbn [firstn skipn app].
    rewrite firstn_app, length_map, length_firstn, length_skipn.
    destruct (Nat.le_gt_cases (len x) (length hb - off x)) as [Hl|Hl].
    + rewrite Nat.min_l by assumption. rewrite Nat.sub_diag. cbn [firstn].
      rewrite app_nil_r. apply firstn_all2. rewrite length_map, length_firstn, length_skipn. lia.
    + rewrite (@skipn_all2 _ (off x + len x) hb) by lia.
      rewrite firstn_nil, app_nil_r.
      apply firstn_all2. rewrite length_map, length_firstn, length_skipn. lia.
  - rewrite (@skipn_all2 _ (off x + len x) hb) by lia.
    rewrite (@skipn_all2 _ (off x) hb) by lia.
    rewrite firstn_nil. cbn [map app]. rewrite app_nil_r.
    rewrite skipn_all2 by (rewrite length_firstn; lia). now rewrite firstn_nil.
Qed.

Lemma length_decrement x : length (decrement x) = length x.
Proof. apply length_map. Qed.

Lemma rows_of_width_decrement N x :
  rows_of_width N x -> rows_of_width N (decrement x).
Proof.
  unfold rows_of_width, decrement. intros H. apply Forall_map.
  eapply Forall_impl; [|exact H]. intros r Hr. cbn. now rewrite length_map.
Qed.

Lemma forallb_width N {A} (x : matrix A) :
  rows_of_width N x -> forallb (fun r => length r =? N) x = true.
Proof.
  intros H. apply forallb_forall. intros r Hr. apply Nat.eqb_eq.
  unfold rows_of_width in H. rewrite Forall_forall in H. now apply H.
Qed.

(** On labels that are not negative, [x - 1 > -1] says that the label is
    not the padding sentinel. *)
Lemma gt_m1_decrement_row (r : list Z) :
  Forall (fun v => 0 <= v)%Z r ->
  map gt_m1 (map (fun v => (v - 1)%Z) r) = map present r.
Proof.
  intros H. rewrite map_map. apply map_ext_Forall.
  eapply Forall_impl; [|exact H]. intros v Hv. cbn beta.
  unfold gt_m1, present.
  cbn beta in Hv.
  destruct (Z.ltb_spec (-1) (v - 1)), (Z.eqb_spec v 0); cbn;
    try reflexivity; exfalso; lia.
Qed.

Lemma gt_m1_decrement (x : list (list Z)) :
  Forall (Forall (fun v => 0 <= v)%Z) x ->
  map (map gt_m1) (decrement x) = map (map present) x.
Proof.
  intros H. unfold decrement. rewrite map_map. apply map_ext_Forall.
  eapply Forall_impl; [|exact H]. intros r Hr. now apply gt_m1_decrement_row.
Qed.

(** ** The monad *)

Lemma bind_inr {S A B} (c : ST S A) (k : A -> ST S B) s v s' :
  c s = (inr v, s') -> bind c k s = k v s'.
Proof. unfold bind. now intros ->. Qed.

Lemma bind_inl {S A B} (c : ST S A) (k : A -> ST S B) s e s' :
  c s = (inl e, s') -> bind c k s = (inl e, s').
Proof. unfold bind. now intros ->. Qed.

Lemma guard_true {S} (b : bool) e (s : S) :
  b = true -> guard b e s = (inr tt, s).
Proof. now intros ->. Qed.

Lemma keeps_bind {E A B T} (f : state E -> T) (c : M E A) (k : A -> M E B) :
  keeps f c -> (forall v, keeps f (k v)) -> keeps f (bind c k).
Proof.
  intros Hc Hk s. unfold bind. specialize (Hc s).
  destruct (c s) as [[e|v] s1]; cbn in *; [assumption|].
  now rewrite Hk.
Qed.

Lemma keeps_ret {E A T} (f : state E -> T) (v : A) : keeps f (ret v).
Proof. now intros s. Qed.

Lemma keeps_raise {E A T} (f : state E -> T) e : keeps f (@raise _ A e).
Proof. now intros s. Qed.

Lemma keeps_guard {E T} (f : state E -> T) b e : keeps f (guard b e).
Proof. destruct b; [apply keeps_ret | apply keeps_raise]. Qed.

Lemma keeps_lift {E A T} (f : state E -> T) (c : result A) : keeps f (lift c).
Proof. now intros s. Qed.

Lemma keeps_read {E T} (f : state E -> T) x : keeps f (read x).
Proof. now intros s. Qed.

Lemma keeps_call_network_x {E T} (f : state E -> T) x :
  keeps f (call_network_x x).
Proof. now intros s. Qed.

Lemma keeps_call_network_a {E T} (f : state E -> T) x :
  keeps f (call_network_a x).
Proof. now intros s. Qed.

Lemma keeps_torch_cat {E A T} (f : state E -> T) (l : list (list A)) :
  keeps f (torch_cat l).
Proof. destruct l; [apply keeps_raise | apply keeps_ret]. Qed.

Lemma keeps_heap_set_x {E} mk : keeps (E := E) heap (set_marginalization_mask_x mk).
Proof. now intros s. Qed.

Lemma keeps_heap_set_a {E} mk : keeps (E := E) heap (set_marginalization_mask_a mk).
Proof. now intros s. Qed.

Lemma keeps_heap_draw {E A} (g : G E -> A * G E) : keeps heap (draw g).
Proof. intros s. unfold draw. now destruct (g (rng s)). Qed.

Lemma keeps_heap_x_sample {E} n c x :
  keeps (E := E) heap (call_network_x_sample n c x).
Proof. intros s. unfold call_network_x_sample. apply keeps_heap_draw. Qed.

Lemma keeps_heap_a_sample {E} n c x :
  keeps (E := E) heap (call_network_a_sample n c x).
Proof. intros s. unfold call_network_a_sample. apply keeps_heap_draw. Qed.

Lemma keeps_rng_set_x {E} mk : keeps (E := E) rng (set_marginalization_mask_x mk).
Proof. now intros s. Qed.

Lemma keeps_rng_set_a {E} mk : keeps (E := E) rng (set_marginalization_mask_a mk).
Proof. now intros s. Qed.

Lemma keeps_rng_isub {E} x k : keeps (E := E) rng (isub x k).
Proof. now intros s. Qed.

Lemma keeps_marg_x_set_a {E} mk :
  keeps (E := E) marg_x (set_marginalization_mask_a mk).
Proof. now intros s. Qed.

Lemma keeps_marg_a_set_x {E} mk :
  keeps (E := E) marg_a (set_marginalization_mask_x mk).
Proof. now intros s. Qed.

Lemma keeps_read_logits_n {E T} (f : state E -> T) self :
  keeps f (read_logits_n self).
Proof. now intros s. Qed.

Lemma keeps_heap_fill {E} self mk :
  keeps (E := E) heap (masked_fill_logits_n self mk).
Proof. now intros s. Qed.

Lemma keeps_rng_fill {E} self mk :
  keeps (E := E) rng (masked_fill_logits_n self mk).
Proof. now intros s. Qed.

Lemma keeps_marg_x_fill {E} self mk :
  keeps (E := E) marg_x (masked_fill_logits_n self mk).
Proof. now intros s. Qed.

Lemma keeps_marg_a_fill {E} self mk :
  keeps (E := E) marg_a (masked_fill_logits_n self mk).
Proof. now intros s. Qed.

Lemma keeps_fill_isub {E} x k : keeps (E := E) fill_n (isub x k).
Proof. now intros s. Qed.

Lemma keeps_fill_set_x {E} mk :
  keeps (E := E) fill_n (set_marginalization_mask_x mk).
Proof. now intros s. Qed.

Lemma keeps_fill_set_a {E} mk :
  keeps (E := E) fill_n (set_marginalization_mask_a mk).
Proof. now intros s. Qed.

Lemma keeps_fill_draw {E A} (g : G E -> A * G E) : keeps fill_n (draw g).
Proof. intros s. unfold draw. now destruct (g (rng s)). Qed.

Lemma keeps_fill_x_sample {E} n c x :
  keeps (E := E) fill_n (call_network_x_sample n c x).
Proof. intros s. unfold call_network_x_sample. apply keeps_fill_draw. Qed.

Lemma keeps_fill_a_sample {E} n c x :
  keeps (E := E) fill_n (call_network_a_sample n c x).
Proof. intros s. unfold call_network_a_sample. apply keeps_fill_draw. Qed.

(** A draw that is refused leaves everything as it is; a draw that is made
    changes what the random source changes. *)
Lemma keeps_Categorical_draw {E T} (f : state E -> T) l :
  keeps f (draw (Categorical_sample E l)) -> keeps f (Categorical_draw l).
Proof.
  intros H. unfold Categorical_draw.
  apply keeps_bind; [apply keeps_guard|]. intros _.
  apply keeps_bind; [apply keeps_guard|]. intros _. exact H.
Qed.

Lemma keeps_heap_Categorical_draw {E} l :
  keeps (E := E) heap (Categorical_draw l).
Proof. apply keeps_Categorical_draw, keeps_heap_draw. Qed.

Lemma keeps_fill_Categorical_draw {E} l :
  keeps (E := E) fill_n (Categorical_draw l).
Proof. apply keeps_Categorical_draw, keeps_fill_draw. Qed.

Create HintDb frame.
#[export] Hint Resolve keeps_ret keeps_raise keeps_guard keeps_lift keeps_read
  keeps_call_network_x keeps_call_network_a keeps_torch_cat
  keeps_heap_set_x keeps_heap_set_a keeps_heap_draw keeps_heap_x_sample
  keeps_heap_a_sample keeps_rng_set_x keeps_rng_set_a keeps_rng_isub
  keeps_marg_x_set_a keeps_marg_a_set_x
  keeps_read_logits_n keeps_heap_fill keeps_rng_fill keeps_marg_x_fill
  keeps_marg_a_fill keeps_fill_isub keeps_fill_set_x keeps_fill_set_a
  keeps_fill_draw keeps_fill_x_sample keeps_fill_a_sample
  keeps_heap_Categorical_draw keeps_fill_Categorical_draw : frame.

Ltac frame :=
  repeat first
    [ solve [auto with frame]
    | apply keeps_bind; [|intros ?]
    | match goal with
      | |- keeps _ (match ?x with _ => _ end) => destruct x
      | |- keeps _ (if ?b then _ else _) => destruct b
      | |- keeps _ (let (_, _) := ?p in _) => destruct p
      end ].

Ltac by_frame :=
  match goal with
  | |- ?f (snd (?c ?s1)) = _ =>
      change (f (snd (c s1)) = f s1);
      apply (fun H : keeps f c => H s1); frame
  end.

(** ** [forward]: effects *)

Lemma forward_heap E self x a s :
  heap (snd (forward E self x a s)) = store_isub (heap s) x 1.
Proof.
  unfold forward. unfold bind at 1. unfold isub at 1. cbv beta iota.
  by_frame.
Qed.

Lemma forward_prefix E self x a s :
  rows_of_width (nd_x self) (rows (heap s) x) ->
  let mask_xn := map (map gt_m1) (decrement (rows (heap s) x)) in
  exists c : M E (list logit),
    forward E self x a s
    = c (mkState (store_isub (heap s) x 1) (rng s)
                 (Some mask_xn) (Some (edge_mask self mask_xn)) (fill_n s)) /\
    keeps marg_x c /\ keeps marg_a c.
Proof.
  intros Hw mask_xn. eexists. split.
  - unfold forward.
    unfold bind at 1. unfold isub at 1. cbv beta iota.
    unfold bind at 1. unfold read at 1. cbv beta iota. cbn [heap].
    rewrite rows_store_isub. fold (decrement (rows (heap s) x)). fold mask_xn.
    unfold bind at 1.
    rewrite guard_true
      by (apply forallb_width; now apply rows_of_width_decrement).
    unfold bind at 1. unfold set_marginalization_mask_x at 1. cbv beta iota.
    unfold bind at 1. unfold set_marginalization_mask_a at 1. cbv beta iota.
    cbn [heap rng marg_x marg_a fill_n]. reflexivity.
  - split; frame.
Qed.

Lemma forward_masks E self x a s :
  rows_of_width (nd_x self) (rows (heap s) x) ->
  let mask_xn := map (map gt_m1) (decrement (rows (heap s) x)) in
  marg_x (snd (forward E self x a s)) = Some mask_xn /\
  marg_a (snd (forward E self x a s)) = Some (edge_mask self mask_xn).
Proof.
  intros Hw mask_xn.
  destruct (forward_prefix E self x a s Hw) as (c & -> & Hx & Ha).
  now rewrite Hx, Ha.
Qed.

Lemma has_shape_outer_and (r : list bool) :
  has_shape (length r) (length r) (outer_and r) = true.
Proof.
  apply has_shape_spec. unfold outer_and. split; [apply length_map|].
  apply Forall_forall. intros q Hq. apply in_map_iff in Hq as (b & <- & _).
  apply length_map.
Qed.

Lemma get_outer_and (r : list bool) i j :
  i < length r -> j < length r ->
  get false (outer_and r) i j = nth i r false && nth j r false.
Proof.
  intros Hi Hj. unfold get, outer_and.
  rewrite nth_indep with (d' := map (fun bj => false && bj) r)
    by now rewrite length_map.
  rewrite (map_nth (fun bi => map (fun bj => bi && bj) r) r false i).
  rewrite nth_indep with (d' := nth i r false && false) by now rewrite length_map.
  now rewrite (map_nth (fun bj => nth i r false && bj) r false j).
Qed.

Lemma nth_map_default {A B} (f : A -> B) (l : list A) i d d' :
  i < length l -> nth i (map f l) d' = f (nth i l d).
Proof.
  intros Hi. rewrite nth_indep with (d' := f d) by now rewrite length_map.
  apply map_nth.
Qed.

(** The edge mask derived from a node mask, position by position. *)
Lemma nth_edge_mask self (mask_xn : matrix bool) b i j :
  rows_of_width (nd_x self) mask_xn ->
  b < length mask_xn -> i < nd_x self -> j < i ->
  nth (tri i + j) (nth b (edge_mask self mask_xn) []) false
  = nth i (nth b mask_xn []) false && nth j (nth b mask_xn []) false.
Proof.
  intros Hw Hb Hi Hj. unfold edge_mask.
  rewrite nth_map_default with (d := []) by assumption.
  assert (Hr : length (nth b mask_xn []) = nd_x self)
    by (apply (proj1 (Forall_nth _ _) Hw); assumption).
  rewrite nth_tril_flatten; try assumption.
  - apply get_outer_and; lia.
  - rewrite <- Hr. apply has_shape_outer_and.
Qed.

(** C8: in [forward] of the size-prior variant, the marginalisation mask
    set on the edge network is computed from the node presence mask of the
    same call (a node is present iff its entry is not the padding
    sentinel): the triangular position of the pair (i, j) is marked
    observed iff both nodes i and j are present. [forward] takes no edge
    mask: the one it sets is a function of [x] alone. *)
Theorem forward_edge_mask_from_node_mask E self x a s :
  let xv := rows (heap s) x in
  rows_of_width (nd_x self) xv ->
  Forall (Forall (fun v => 0 <= v)%Z) xv ->
  let s' := snd (forward E self x a s) in
  marg_x s' = Some (map (map present) xv) /\
  marg_a s' = Some (edge_mask self (map (map present) xv)) /\
  forall b i j, b < length xv -> i < nd_x self -> j < i ->
    nth (tri i + j) (nth b (edge_mask self (map (map present) xv)) []) false
    = present (nth i (nth b xv []) 0%Z) && present (nth j (nth b xv []) 0%Z).
Proof.
  intros xv Hw Hpos s'.
  destruct (forward_masks E self x a s Hw) as [Hx Ha].
  fold xv in Hx, Ha. rewrite (gt_m1_decrement xv Hpos) in Hx, Ha.
  split; [exact Hx|]. split; [exact Ha|].
  intros b i j Hb Hi Hj.
  assert (Hr : length (nth b xv []) = nd_x self)
    by (apply (proj1 (Forall_nth _ _) Hw); assumption).
  rewrite nth_edge_mask; try assumption.
  - rewrite nth_map_default with (d := []) by assumption.
    rewrite !nth_map_default with (d := 0%Z) by lia. reflexivity.
  - unfold rows_of_width in *. apply Forall_map.
    eapply Forall_impl; [|exact Hw]. intros r Hlen. cbn. now rewrite length_map.
  - now rewrite length_map.
Qed.

(** ** In-place decrement of the caller's node tensor *)

Lemma changes_bind {E A B T} (f : state E -> T) (F : T -> T)
  (c : M E A) (k : A -> M E B) :
  changes f F c -> (forall v, keeps f (k v)) -> changes f F (bind c k).
Proof.
  intros Hc Hk s. unfold bind. specialize (Hc s).
  destruct (c s) as [[e|v] s1]; cbn in *; [assumption|].
  now rewrite Hk.
Qed.

Lemma changes_isub {E} x k :
  changes (E := E) heap (fun h => store_isub h x k) (isub x k).
Proof. now intros s. Qed.

Lemma forward_fill E self x a s :
  fill_n (snd (forward E self x a s)) = fill_n s.
Proof. unfold forward. by_frame. Qed.

Lemma logpdf_fill E self x a s :
  fill_n (snd (logpdf E self x a s)) = fill_n s.
Proof.
  unfold logpdf, bind. pose proof (forward_fill E self x a s) as H.
  destruct (forward E self x a s) as [[e|v] s1]; exact H.
Qed.

Lemma forward_value_rows E self x x' a s s' :
  rows (heap s) x = rows (heap s') x' -> fill_n s = fill_n s' ->
  fst (forward E self x a s) = fst (forward E self x' a s').
Proof.
  intros Hrows Hfill.
  unfold forward, bind, isub, read, guard, set_marginalization_mask_x,
    set_marginalization_mask_a, call_network_x, call_network_a,
    read_logits_n, lift, ret, raise.
  cbn [heap rng marg_x marg_a fill_n]. rewrite !rows_store_isub, Hrows, Hfill.
  destruct (forallb _ _); [|reflexivity].
  cbn [heap rng marg_x marg_a fill_n].
  destruct (Categorical_valid _); [|reflexivity].
  destruct (mapE _ _); [reflexivity|].
  destruct (forallb _ a); [|reflexivity].
  cbn [heap rng marg_x marg_a fill_n].
  destruct (_ && _); reflexivity.
Qed.

Lemma logpdf_value_rows E self x x' a s s' :
  rows (heap s) x = rows (heap s') x' -> fill_n s = fill_n s' ->
  fst (logpdf E self x a s) = fst (logpdf E self x' a s').
Proof.
  intros Hrows Hfill.
  pose proof (forward_value_rows E self x x' a s s' Hrows Hfill) as H.
  unfold logpdf, bind.
  destruct (forward E self x a s) as [[e|v] s1],
           (forward E self x' a s') as [[e'|v'] s1']; cbn in *;
    congruence.
Qed.

Lemma logpdf_heap E self x a s :
  heap (snd (logpdf E self x a s)) = store_isub (heap s) x 1.
Proof.
  unfold logpdf, bind. pose proof (forward_heap E self x a s) as H.
  destruct (forward E self x a s) as [[e|v] s1]; exact H.
Qed.

Lemma _sample_heap E self n x cond_a s :
  (forall ca, cond_a = Some ca -> len x = length ca) ->
  heap (snd (_sample E self n (Some x) cond_a s)) = store_isub (heap s) x 1.
Proof.
  intros Hlen. unfold _sample.
  match goal with
  | |- heap (snd (bind ?c ?k s)) = _ =>
      assert (Hc : exists v, c s = (inr v, s))
  end.
  { destruct cond_a as [ca|]; [|now eexists].
    rewrite (Hlen ca eq_refl), Nat.eqb_refl. now eexists. }
  destruct Hc as [v Hc]. rewrite (bind_inr _ _ _ _ _ Hc).
  match goal with
  | |- heap (snd (?c s)) = _ =>
      apply (fun H : changes heap (fun h => store_isub h x 1) c => H s)
  end.
  apply changes_bind.
  - apply changes_bind; [apply changes_isub | intros; frame].
  - intros; frame.
Qed.

Lemma decrement_neq (x : list (list Z)) :
  (exists r, In r x /\ r <> []) -> decrement x <> x.
Proof.
  intros (r & Hin & Hr) Heq.
  assert (H : map (fun v => (v - 1)%Z) r = r).
  { unfold decrement in Heq. revert Heq Hin. clear.
    induction x as [|q x IH]; intros Heq Hin; [destruct Hin|].
    cbn in Heq. inversion Heq. destruct Hin as [->|Hin]; [assumption|].
    now apply IH. }
  destruct r as [|v r]; [congruence|]. cbn in H. inversion H. lia.
Qed.

(** C10: [forward]/[logpdf] of the size-prior variant subtract 1 from the
    caller's node tensor in place before scoring, and [_sample] does the
    same to a node-evidence tensor; after the call the caller's tensor
    holds other values (whenever it has an entry), and a second [logpdf]
    on the same tensor returns what a first call (on the same parameters)
    would on the tensor [x - 1]: the two calls score different inputs. *)
Theorem logpdf_decrements_caller_tensor E self x a s :
  let xv := rows (heap s) x in
  let s1 := snd (logpdf E self x a s) in
  let s2 := snd (logpdf E self x a s1) in
  rows (heap (snd (forward E self x a s))) x = decrement xv /\
  rows (heap s1) x = decrement xv /\
  rows (heap s2) x = decrement (decrement xv) /\
  ((exists r, In r xv /\ r <> []) -> rows (heap s1) x <> xv) /\
  (forall y sy, rows (heap sy) y = decrement xv -> fill_n sy = fill_n s ->
     fst (logpdf E self x a s1) = fst (logpdf E self y a sy)) /\
  (forall n cond_a, (forall ca, cond_a = Some ca -> len x = length ca) ->
     rows (heap (snd (_sample E self n (Some x) cond_a s))) x = decrement xv).
Proof.
  intros xv s1 s2.
  assert (H1 : rows (heap s1) x = decrement xv)
    by (unfold s1; rewrite logpdf_heap; apply rows_store_isub).
  split; [rewrite forward_heap; apply rows_store_isub|].
  split; [exact H1|].
  split; [unfold s2; rewrite logpdf_heap, rows_store_isub, H1; reflexivity|].
  split; [intros Hne; rewrite H1; now apply decrement_neq|].
  split.
  - intros y sy Hy Hfill. apply logpdf_value_rows; [now rewrite H1, Hy|].
    unfold s1. now rewrite logpdf_fill, Hfill.
  - intros n cond_a Hlen. rewrite _sample_heap by assumption.
    apply rows_store_isub.
Qed.

(** ** Elementwise operations *)

Lemma length_zip_with {A B C} (f : A -> B -> C) l1 l2 :
  length (zip_with f l1 l2) = Nat.min (length l1) (length l2).
Proof.
  revert l2. induction l1 as [|v l1 IH]; intros [|w l2]; cbn; try reflexivity.
  now rewrite IH.
Qed.

Lemma nth_zip_with {A B C} (f : A -> B -> C) l1 l2 i d d1 d2 :
  i < length l1 -> i < length l2 ->
  nth i (zip_with f l1 l2) d = f (nth i l1 d1) (nth i l2 d2).
Proof.
  revert l2 i. induction l1 as [|v l1 IH]; intros [|w l2] [|i] H1 H2;
    cbn in *; try lia; try reflexivity.
  apply IH; lia.
Qed.

Lemma zip_with_map_r {A B C D} (f : A -> B -> C) (g : D -> B) l1 l2 :
  zip_with f l1 (map g l2) = zip_with (fun v w => f v (g w)) l1 l2.
Proof.
  revert l2. induction l1 as [|v l1 IH]; intros [|w l2]; cbn; try reflexivity.
  now rewrite IH.
Qed.

Lemma has_shape_nth {A} B N (t : matrix A) b :
  has_shape B N t = true -> b < B -> length (nth b t []) = N.
Proof.
  intros Hs Hb. apply has_shape_spec in Hs as [Hl Hw].
  apply (proj1 (Forall_nth _ _) Hw). lia.
Qed.

Lemma has_shape_length {A} B N (t : matrix A) :
  has_shape B N t = true -> length t = B.
Proof. intros Hs. now apply has_shape_spec in Hs as [Hl _]. Qed.

Lemma mapE_inr {A B} (f : A -> result B) (g : A -> B) (l : list A) :
  Forall (fun v => f v = inr (g v)) l -> mapE f l = inr (map g l).
Proof.
  induction 1 as [|v l Hv _ IH]; [reflexivity|].
  cbn. now rewrite Hv, IH.
Qed.

(** ** The size of an example *)

Lemma sum_bool_count (r : list Z) :
  sum_bool (map present r) = count_non_padding r.
Proof.
  unfold count_non_padding. induction r as [|v r IH]; [reflexivity|].
  cbn [map sum_bool fold_right filter]. fold (sum_bool (map present r)).
  rewrite IH. destruct (present v); cbn [Z.b2z length]; lia.
Qed.

Lemma count_non_padding_bounds (r : list Z) :
  (exists v, In v r /\ v <> 0%Z) ->
  (1 <= count_non_padding r <= Z.of_nat (length r))%Z.
Proof.
  intros (v & Hin & Hv). unfold count_non_padding.
  assert (Hf : In v (filter present r)).
  { apply filter_In. split; [assumption|]. unfold present.
    now destruct (Z.eqb_spec v 0). }
  pose proof (filter_length_le present r).
  destruct (filter present r); [destruct Hf|]. cbn [length] in *. lia.
Qed.

(** ** Logits that may be [-inf] *)

Lemma length_log_softmax l : length (log_softmax l) = length l.
Proof. apply length_map. Qed.

Lemma finite_part_Fin (l : list R) : finite_part (map Fin l) = l.
Proof.
  unfold finite_part. induction l as [|v l IH]; [reflexivity|].
  cbn. now rewrite IH.
Qed.

Lemma normalize_logits_Fin (l : list R) :
  normalize_logits (map Fin l) = map Fin (log_softmax l).
Proof.
  unfold normalize_logits, log_softmax. rewrite !map_map.
  apply map_ext. intros v. now rewrite finite_part_Fin.
Qed.

Lemma Categorical_valid_Fin (l : list R) : Categorical_valid (map Fin l) = true.
Proof. now destruct l. Qed.

Lemma logits_n_now_intact self fill :
  intact fill -> logits_n_now self fill = map Fin (logits_n self).
Proof.
  intros H. unfold logits_n_now, nd_x.
  apply nth_ext with (d := NegInf) (d' := NegInf).
  - now rewrite !length_map, length_seq.
  - intros i Hi. rewrite length_map, length_seq in Hi.
    rewrite nth_map_seq by assumption. rewrite H. cbn [Nat.add].
    symmetry. now apply nth_map_default.
Qed.

Lemma length_logits_n_now self fill :
  length (logits_n_now self fill) = nd_x self.
Proof. unfold logits_n_now. now rewrite length_map, length_seq. Qed.

Lemma Categorical_log_prob_Fin (l : list R) (n : Z) :
  (0 <= n < Z.of_nat (length l))%Z ->
  Categorical_log_prob (map Fin l) n
  = inr (Fin (nth (Z.to_nat n) (log_softmax l) 0%R)).
Proof.
  intros Hn. unfold Categorical_log_prob. rewrite length_map.
  destruct (Z.leb_spec 0 n); [|lia].
  destruct (Z.ltb_spec n (Z.of_nat (length l))); [|lia].
  cbn [andb]. rewrite normalize_logits_Fin. f_equal.
  apply nth_map_default. rewrite length_log_softmax. lia.
Qed.

Lemma zip_with_logit_plus_Fin (l1 l2 : list R) :
  zip_with logit_plus (map Fin l1) l2 = map Fin (zip_with Rplus l1 l2).
Proof.
  revert l2. induction l1 as [|v l1 IH]; intros [|w l2]; cbn; try reflexivity.
  now rewrite IH.
Qed.

Lemma logit_mean_Fin (l : list R) : logit_mean (map Fin l) = Fin (mean l).
Proof.
  unfold logit_mean. rewrite finite_part_Fin.
  replace (forallb is_fin (map Fin l)) with true; [reflexivity|].
  symmetry. apply forallb_forall. intros v Hv.
  apply in_map_iff in Hv as (r & <- & _). reflexivity.
Qed.

(** ** [forward]: the returned log-density *)

Lemma add_logs_row (rx ra w : list R) n :
  length rx = n -> length ra = n -> length w = n ->
  zip_with Rplus (zip_with Rplus rx ra) w
  = map (fun c => (nth c rx 0 + nth c ra 0 + nth c w 0)%R) (seq 0 n).
Proof.
  intros Hx Ha Hw.
  apply nth_ext with (d := 0%R) (d' := 0%R).
  - rewrite !length_zip_with, length_map, length_seq. lia.
  - intros c Hc. rewrite !length_zip_with in Hc.
    rewrite nth_zip_with with (d1 := 0%R) (d2 := 0%R)
      by (rewrite ?length_zip_with; lia).
    rewrite nth_zip_with with (d1 := 0%R) (d2 := 0%R) by lia.
    rewrite nth_map_seq by lia. reflexivity.
Qed.

(** C1: for a batch of node labels [x] (labels are not negative, every
    example has a node, rows of [nd_x] labels) and edge matrices [a]
    ([nd_x] x [nd_x]), with scores of shape (batch, nc), [forward] of the
    size-prior variant returns, for every example, logprob(n) +
    logsumexp_c (score_node[c] + score_edge[c] + logsoftmax(w)[c]), where
    n is the count of non-padding node entries minus one, scored under
    the categorical node-count distribution, outside the log-sum-exp; and
    [logpdf] returns the mean of it over the batch. The scores are those
    of [x - 1] and of the flattened [a] under the presence masks. The
    node-count distribution is that of the parameter [logits_n] of
    [self], no entry of which has been overwritten. *)
Theorem forward_is_size_prior_mixture E self x a s :
  let xv := rows (heap s) x in
  let mask_xn : matrix bool := map (map present) xv in
  let score_node := network_x E (Some mask_xn) (decrement xv) in
  let score_edge :=
    network_a E (Some (edge_mask self mask_xn))
              (map (tril_flatten (nd_x self)) a) in
  let density :=
    map (fun b => spec_logpdf self (nth b xv [])
                    (nth b score_node []) (nth b score_edge []))
        (seq 0 (length xv)) in
  intact (fill_n s) ->
  rows_of_width (nd_x self) xv ->
  Forall (Forall (fun v => 0 <= v)%Z) xv ->
  Forall (fun r => exists v, In v r /\ v <> 0%Z) xv ->
  forallb (has_shape (nd_x self) (nd_x self)) a = true ->
  has_shape (length xv) (nc self) score_node = true ->
  has_shape (length xv) (nc self) score_edge = true ->
  fst (forward E self x a s) = inr (map Fin density) /\
  fst (logpdf E self x a s) = inr (Fin (mean density)).
Proof.
  intros xv mask_xn score_node score_edge density Hfill Hw Hpos Hnode Ha
    Hsx Hsa.
  assert (Hf : fst (forward E self x a s) = inr (map Fin density)).
  { unfold forward, bind, isub, read, guard, set_marginalization_mask_x,
      set_marginalization_mask_a, call_network_x, call_network_a,
      read_logits_n, lift, ret, raise.
    cbn [heap rng marg_x marg_a fill_n]. rewrite rows_store_isub.
    fold (decrement (rows (heap s) x)). fold xv.
    rewrite forallb_width by now apply rows_of_width_decrement.
    cbn [heap rng marg_x marg_a fill_n].
    rewrite (gt_m1_decrement xv Hpos). fold mask_xn.
    rewrite (logits_n_now_intact self _ Hfill), Categorical_valid_Fin.
    rewrite (mapE_inr _
               (fun n => Fin (nth (Z.to_nat n)
                                  (log_softmax (logits_n self)) 0%R))).
    2:{ unfold mask_xn. rewrite map_map. apply Forall_map.
        unfold rows_of_width in Hw.
        rewrite Forall_forall in Hw, Hnode |- *. intros r Hr.
        rewrite sum_bool_count.
        pose proof (count_non_padding_bounds r (Hnode r Hr)) as Hb.
        specialize (Hw r Hr). apply Categorical_log_prob_Fin.
        fold (nd_x self). lia. }
    rewrite Ha. cbn [heap rng marg_x marg_a fill_n].
    rewrite length_decrement. fold score_node score_edge. rewrite Hsx, Hsa.
    cbn [andb fst]. f_equal.
    rewrite <- (map_map (fun n => nth (Z.to_nat n)
                                    (log_softmax (logits_n self)) 0%R) Fin).
    rewrite zip_with_logit_plus_Fin. f_equal. unfold density.
    pose proof (has_shape_length _ _ _ Hsx) as Hlx.
    pose proof (has_shape_length _ _ _ Hsa) as Hla.
    assert (Hlm : length mask_xn = length xv) by apply length_map.
    apply nth_ext with (d := 0%R) (d' := 0%R).
    - rewrite length_zip_with, !length_map, length_seq.
      unfold add_logs. rewrite length_zip_with. lia.
    - intros b Hb. rewrite length_zip_with, !length_map in Hb.
      unfold add_logs in *. rewrite length_zip_with in Hb.
      assert (Hbx : b < length xv) by lia.
      rewrite nth_zip_with with (d1 := 0%R) (d2 := 0%R)
        by (rewrite ?length_map, ?length_zip_with; lia).
      rewrite nth_map_seq by assumption. cbn [Nat.add].
      unfold spec_logpdf. f_equal.
      + unfold mask_xn. rewrite !map_map.
        rewrite nth_map_default with (d := []) by assumption.
        now rewrite sum_bool_count.
      + rewrite nth_map_default with (d := [])
          by (rewrite length_zip_with; lia).
        f_equal.
        rewrite nth_zip_with with (d1 := []) (d2 := []) by lia.
        apply add_logs_row.
        * now apply has_shape_nth with (B := length xv).
        * now apply has_shape_nth with (B := length xv).
        * apply length_log_softmax. }
  split; [exact Hf|].
  unfold logpdf, bind.
  destruct (forward E self x a s) as [[e|v] s1]; cbn in Hf |- *;
    [discriminate Hf|].
  injection Hf as ->. unfold ret. cbn [fst]. now rewrite logit_mean_Fin.
Qed.

(** ** The component posterior *)

Lemma map_zip_with {A B C D} (g : C -> D) (f : A -> B -> C) l1 l2 :
  map g (zip_with f l1 l2) = zip_with (fun v w => g (f v w)) l1 l2.
Proof.
  revert l2. induction l1 as [|v l1 IH]; intros [|w l2]; cbn; try reflexivity.
  now rewrite IH.
Qed.

Lemma zip_with_ext {A B C} (f g : A -> B -> C) l1 l2 :
  (forall v w, f v w = g v w) -> zip_with f l1 l2 = zip_with g l1 l2.
Proof.
  intros H. revert l2.
  induction l1 as [|v l1 IH]; intros [|w l2]; cbn; try reflexivity.
  now rewrite H, IH.
Qed.

Lemma Rsum_exp_pos (l : list R) : l <> [] -> (0 < Rsum (map exp l))%R.
Proof.
  destruct l as [|v l]; [congruence|]. intros _. unfold Rsum.
  assert (H : (0 <= fold_right Rplus 0 (map exp l))%R).
  { induction l as [|w l IH]; cbn [map fold_right]; [lra|].
    pose proof (exp_pos w). lra. }
  cbn [map fold_right]. pose proof (exp_pos v). lra.
Qed.

Lemma Rsum_exp_shift (l : list R) (c : R) :
  Rsum (map exp (map (fun v => (v + c)%R) l))
  = (exp c * Rsum (map exp l))%R.
Proof.
  unfold Rsum. induction l as [|v l IH]; cbn [map fold_right]; [lra|].
  rewrite IH, exp_plus. lra.
Qed.

(** A constant shift of the logits leaves the softmax as it is. *)
Lemma softmax_shift (l : list R) (c : R) :
  softmax (map (fun v => (v + c)%R) l) = softmax l.
Proof.
  unfold softmax. rewrite map_map, Rsum_exp_shift.
  apply map_ext_in. intros v Hv.
  assert (Hl : l <> []) by (intros ->; destruct Hv).
  pose proof (Rsum_exp_pos l Hl). pose proof (exp_pos c).
  rewrite exp_plus. field. lra.
Qed.

Lemma zip_with_plus_shift (t w : list R) (c : R) :
  zip_with Rplus t (map (fun v => (v - c)%R) w)
  = map (fun v => (v + - c)%R) (zip_with Rplus t w).
Proof.
  rewrite zip_with_map_r, map_zip_with. apply zip_with_ext. intros; lra.
Qed.

(** ** Inversion of a run that returns *)

Lemma bind_inv {S A B} (c : ST S A) (k : A -> ST S B) s r s' :
  bind c k s = (inr r, s') ->
  exists v s1, c s = (inr v, s1) /\ k v s1 = (inr r, s').
Proof.
  unfold bind. destruct (c s) as [[e|v] s1]; [discriminate|].
  intros H. now exists v, s1.
Qed.

Lemma guard_inv {S} (b : bool) e (s : S) r s' :
  guard b e s = (inr r, s') -> b = true /\ s' = s.
Proof. destruct b; cbn; [|discriminate]. intros H. now inversion H. Qed.

Lemma ret_inv {S A} (v : A) (s : S) r s' :
  ret v s = (inr r, s') -> r = v /\ s' = s.
Proof. intros H. now inversion H. Qed.

Lemma isub_inv {E} x k (s : state E) r s' :
  isub x k s = (inr r, s') ->
  s' = mkState (store_isub (heap s) x k) (rng s) (marg_x s) (marg_a s)
               (fill_n s).
Proof. intros H. now inversion H. Qed.

Lemma read_inv {E} x (s : state E) r s' :
  read x s = (inr r, s') -> r = rows (heap s) x /\ s' = s.
Proof. intros H. now inversion H. Qed.

Lemma set_x_inv {E} mk (s : state E) r s' :
  set_marginalization_mask_x mk s = (inr r, s') ->
  s' = mkState (heap s) (rng s) (Some mk) (marg_a s) (fill_n s).
Proof. intros H. now inversion H. Qed.

Lemma set_a_inv {E} mk (s : state E) r s' :
  set_marginalization_mask_a mk s = (inr r, s') ->
  s' = mkState (heap s) (rng s) (marg_x s) (Some mk) (fill_n s).
Proof. intros H. now inversion H. Qed.

Lemma call_x_inv {E} x (s : state E) r s' :
  call_network_x x s = (inr r, s') ->
  r = network_x E (marg_x s) x /\ s' = s.
Proof. intros H. now inversion H. Qed.

Lemma call_a_inv {E} x (s : state E) r s' :
  call_network_a x s = (inr r, s') ->
  r = network_a E (marg_a s) x /\ s' = s.
Proof. intros H. now inversion H. Qed.

Lemma draw_inv {E A} (f : G E -> A * G E) (s : state E) r s' :
  draw f s = (inr r, s') ->
  r = fst (f (rng s)) /\
  s' = mkState (heap s) (snd (f (rng s))) (marg_x s) (marg_a s) (fill_n s).
Proof. unfold draw. destruct (f (rng s)). intros H. now inversion H. Qed.

Lemma x_sample_inv {E} n c x (s : state E) r s' :
  call_network_x_sample n c x s = (inr r, s') ->
  r = fst (network_x_sample E (marg_x s) n c x (rng s)) /\
  s' = mkState (heap s) (snd (network_x_sample E (marg_x s) n c x (rng s)))
               (marg_x s) (marg_a s) (fill_n s).
Proof. unfold call_network_x_sample. apply draw_inv. Qed.

Lemma a_sample_inv {E} n c x (s : state E) r s' :
  call_network_a_sample n c x s = (inr r, s') ->
  r = fst (network_a_sample E (marg_a s) n c x (rng s)) /\
  s' = mkState (heap s) (snd (network_a_sample E (marg_a s) n c x (rng s)))
               (marg_x s) (marg_a s) (fill_n s).
Proof. unfold call_network_a_sample. apply draw_inv. Qed.

Lemma read_logits_n_inv {E} self (s : state E) r s' :
  read_logits_n self s = (inr r, s') ->
  r = logits_n_now self (fill_n s) /\ s' = s.
Proof. intros H. now inversion H. Qed.

Lemma fill_inv {E} self mk (s : state E) r s' :
  masked_fill_logits_n self mk s = (inr r, s') ->
  s' = mkState (heap s) (rng s) (marg_x s) (marg_a s)
               (fill_or (nd_x self) (fill_n s) mk).
Proof. intros H. now inversion H. Qed.

(** A draw that returns was made on a batch with elements, every row of
    which has a finite logit. *)
Lemma Categorical_draw_inv {E} l (s : state E) r s' :
  Categorical_draw l s = (inr r, s') ->
  0 < length l /\ 0 < length (hd [] l) /\
  forallb (existsb is_fin) l = true /\
  r = fst (Categorical_sample E l (rng s)) /\
  s' = mkState (heap s) (snd (Categorical_sample E l (rng s)))
               (marg_x s) (marg_a s) (fill_n s).
Proof.
  unfold Categorical_draw. intros H.
  apply bind_inv in H as (u1 & s1 & H1 & H).
  apply guard_inv in H1 as [Hg1 ->].
  apply bind_inv in H as (u2 & s2 & H2 & H).
  apply guard_inv in H2 as [Hg2 ->].
  apply draw_inv in H as [-> ->].
  apply andb_prop in Hg1 as [Hl Hw].
  apply Nat.ltb_lt in Hl, Hw. now repeat split.
Qed.

Ltac proj H := cbn [heap rng marg_x marg_a fill_n] in H.

Ltac minv H :=
  cbv beta iota in H; proj H;
  lazymatch type of H with
  | bind _ _ _ = (inr _, _) =>
      let v := fresh "v" in
      let s1 := fresh "s" in
      let H1 := fresh "H" in
      let H2 := fresh "H" in
      apply bind_inv in H; destruct H as (v & s1 & H1 & H2);
      minv H1; minv H2
  | guard _ _ _ = (inr _, _) =>
      let Hb := fresh "Hg" in
      apply guard_inv in H; destruct H as [Hb H]; subst
  | ret _ _ = (inr ?r, _) =>
      let Hr := fresh "Hr" in
      apply ret_inv in H; destruct H as [Hr H];
      first [subst r | idtac]; subst
  | isub _ _ _ = (inr _, _) => apply isub_inv in H; proj H; subst
  | read _ _ = (inr _, _) => apply read_inv in H; destruct H; subst
  | set_marginalization_mask_x _ _ = (inr _, _) =>
      apply set_x_inv in H; proj H; subst
  | set_marginalization_mask_a _ _ = (inr _, _) =>
      apply set_a_inv in H; proj H; subst
  | call_network_x _ _ = (inr _, _) => apply call_x_inv in H; destruct H; subst
  | call_network_a _ _ = (inr _, _) => apply call_a_inv in H; destruct H; subst
  | call_network_x_sample _ _ _ _ = (inr _, _) =>
      let Hs := fresh "Hs" in
      apply x_sample_inv in H; destruct H as [H Hs]; proj Hs; subst
  | call_network_a_sample _ _ _ _ = (inr _, _) =>
      let Hs := fresh "Hs" in
      apply a_sample_inv in H; destruct H as [H Hs]; proj Hs; subst
  | draw _ _ = (inr _, _) =>
      let Hs := fresh "Hs" in
      apply draw_inv in H; destruct H as [H Hs]; proj Hs; subst
  | read_logits_n _ _ = (inr _, _) =>
      apply read_logits_n_inv in H; destruct H; subst
  | masked_fill_logits_n _ _ _ = (inr _, _) =>
      apply fill_inv in H; proj H; subst
  | Categorical_draw _ _ = (inr _, _) =>
      let Hl := fresh "Hdl" in
      let Hw := fresh "Hdw" in
      let Hf := fresh "Hdf" in
      let Hs := fresh "Hs" in
      apply Categorical_draw_inv in H;
      destruct H as (Hl & Hw & Hf & H & Hs); proj Hs; subst
  | raise _ _ = (inr _, _) => discriminate H
  | _ => idtac
  end.

Lemma has_shape_repeat {A} B N (v : A) :
  has_shape B N (repeat (repeat v N) B) = true.
Proof.
  apply has_shape_spec. split; [apply repeat_length|].
  apply Forall_forall. intros r Hr. apply repeat_spec in Hr. subst.
  apply repeat_length.
Qed.

Lemma has_shape_map_map {A B} (f : A -> B) n k (t : matrix A) :
  has_shape n k t = true -> has_shape n k (map (map f) t) = true.
Proof.
  intros H. apply has_shape_spec in H as [Hl Hw]. apply has_shape_spec.
  split; [now rewrite length_map|].
  unfold rows_of_width in *. apply Forall_map.
  eapply Forall_impl; [|exact Hw]. intros r Hr. cbn. now rewrite length_map.
Qed.

Lemma edge_evidence_rows self B ca :
  forallb (has_shape (nd_x self) (nd_x self)) ca = true ->
  rows_of_width (nd_a self) (edge_evidence_mask self B (Some ca)).
Proof.
  intros H. rewrite forallb_forall in H. unfold rows_of_width.
  cbn [edge_evidence_mask]. apply Forall_map, Forall_forall. intros a Ha.
  unfold nd_a. rewrite <- tri_nd_a. apply length_tril_flatten.
  apply has_shape_map_map. now apply H.
Qed.

(** What a call of [_sample] that returns has computed. *)
Lemma _sample_inv E self n cond_x cond_a s xs as_ s' :
  _sample E self n cond_x cond_a s = (inr (xs, as_), s') ->
  let B := resolved_size n cond_x cond_a in
  let ev := node_evidence s cond_x in
  let mask_x := node_evidence_mask self B ev in
  let mask_a := edge_evidence_mask self B cond_a in
  let samp_n := sampled_sizes E self (fill_n s) B ev (rng s) in
  exists x l,
    has_shape B (nd_x self) mask_x = true /\
    has_shape B (nd_a self) mask_a = true /\
    length samp_n = B /\
    has_shape B (nd_x self) x = true /\
    has_shape B (nd_a self) l = true /\
    xs = map (map (fun v => (v + 1)%Z))
             (zip_with (fill_not (-1)) x
                       (mask_add mask_x (size_mask self samp_n))) /\
    as_ = map (tril_unflatten 0%Z (nd_x self) 0%Z)
              (zip_with (fill_not 0) l
                 (mask_add mask_a (edge_mask self (size_mask self samp_n)))).
Proof.
  intros H. unfold _sample in H. unfold bind at 1 in H.
  destruct cond_x as [cx|], cond_a as [ca|]; cbn zeta;
    try (destruct (len cx =? length ca) eqn:Hlen; [|discriminate H]);
    unfold ret at 1 in H; minv H;
    cbn [heap rng marg_x marg_a fill_n] in *; rewrite ?rows_store_isub in *;
    match goal with
    | Hr : (xs, as_) = _ |- _ => inversion Hr; clear Hr
    end;
    match goal with
    | Hg : (length _ =? _) && (length _ =? _) = true |- _ =>
        apply andb_prop in Hg; destruct Hg as [Hn Hma];
        apply Nat.eqb_eq in Hn, Hma
    end;
    do 2 eexists;
    (split; [first [eassumption | apply has_shape_repeat]|]);
    (split; [first [apply has_shape_repeat
                   | apply has_shape_spec; split;
                     [exact Hma | now apply edge_evidence_rows]]|]);
    (split; [exact Hn|]);
    (split; [eassumption|]); (split; [eassumption|]);
    split; reflexivity.
Qed.

Lemma nth_fill_not v row mrow i :
  i < length row -> i < length mrow ->
  nth i (fill_not v row mrow) 0%Z
  = if nth i mrow false then nth i row 0%Z else v.
Proof.
  intros Hr Hm. unfold fill_not.
  now rewrite nth_zip_with with (d1 := 0%Z) (d2 := false).
Qed.

Lemma length_fill_not v row mrow :
  length (fill_not v row mrow) = Nat.min (length row) (length mrow).
Proof. apply length_zip_with. Qed.

Lemma has_shape_size_mask self samp_n :
  has_shape (length samp_n) (nd_x self) (size_mask self samp_n) = true.
Proof.
  apply has_shape_spec. unfold size_mask. split; [apply length_map|].
  apply Forall_map, Forall_forall. intros k _. now rewrite length_map, length_seq.
Qed.


Lemma has_shape_edge_mask self B mk :
  has_shape B (nd_x self) mk = true ->
  has_shape B (nd_a self) (edge_mask self mk) = true.
Proof.
  intros H. apply has_shape_spec in H as [Hl Hw]. apply has_shape_spec.
  unfold edge_mask. split; [now rewrite length_map|].
  apply Forall_map. eapply Forall_impl; [|exact Hw]. intros r Hr. cbn beta.
  unfold nd_a. rewrite <- tri_nd_a. apply length_tril_flatten.
  rewrite <- Hr. apply has_shape_outer_and.
Qed.

Lemma has_shape_mask_add B N m1 m2 :
  has_shape B N m1 = true -> has_shape B N m2 = true ->
  has_shape B N (mask_add m1 m2) = true.
Proof.
  intros H1 H2.
  apply has_shape_spec in H1 as [Hl1 Hw1], H2 as [Hl2 Hw2].
  apply has_shape_spec. unfold mask_add.
  split; [rewrite length_zip_with; lia|].
  apply Forall_nth. intros b d Hb. rewrite length_zip_with in Hb.
  rewrite nth_zip_with with (d1 := []) (d2 := []) by lia.
  rewrite length_zip_with.
  rewrite (proj1 (Forall_nth _ _) Hw1 b []) by lia.
  rewrite (proj1 (Forall_nth _ _) Hw2 b []) by lia. lia.
Qed.

Lemma nth_mask_add B N m1 m2 b i :
  has_shape B N m1 = true -> has_shape B N m2 = true ->
  b < B -> i < N ->
  nth i (nth b (mask_add m1 m2) []) false
  = nth i (nth b m1 []) false || nth i (nth b m2 []) false.
Proof.
  intros H1 H2 Hb Hi. unfold mask_add.
  pose proof (has_shape_length _ _ _ H1). pose proof (has_shape_length _ _ _ H2).
  rewrite nth_zip_with with (d1 := []) (d2 := []) by lia.
  apply nth_zip_with.
  - now rewrite (has_shape_nth _ _ _ _ H1 Hb).
  - now rewrite (has_shape_nth _ _ _ _ H2 Hb).
Qed.

(** ** [_sample]: positions beyond the sampled size *)

Lemma nth_sampled_nodes B N (x : list (list Z)) (mk : matrix bool) b i :
  has_shape B N x = true -> has_shape B N mk = true -> b < B -> i < N ->
  nth i (nth b (map (map (fun v => (v + 1)%Z))
                    (zip_with (fill_not (-1)) x mk)) []) 0%Z
  = ((if nth i (nth b mk []) false then nth i (nth b x []) 0 else -1) + 1)%Z.
Proof.
  intros Hx Hm Hb Hi.
  pose proof (has_shape_length _ _ _ Hx). pose proof (has_shape_length _ _ _ Hm).
  pose proof (has_shape_nth _ _ _ _ Hx Hb). pose proof (has_shape_nth _ _ _ _ Hm Hb).
  rewrite nth_map_default with (d := []) by (rewrite length_zip_with; lia).
  rewrite nth_zip_with with (d1 := []) (d2 := []) by lia.
  rewrite nth_map_default with (d := 0%Z) by (rewrite length_fill_not; lia).
  now rewrite nth_fill_not by lia.
Qed.

Lemma nth_sampled_edges B N (l : list (list Z)) (mk : matrix bool) b :
  has_shape B (tri N) l = true -> has_shape B (tri N) mk = true -> b < B ->
  nth b (map (tril_unflatten 0%Z N 0%Z) (zip_with (fill_not 0) l mk)) []
  = tril_unflatten 0%Z N 0%Z (fill_not 0 (nth b l []) (nth b mk [])) /\
  length (fill_not 0 (nth b l []) (nth b mk [])) = tri N.
Proof.
  intros Hl Hm Hb.
  pose proof (has_shape_length _ _ _ Hl). pose proof (has_shape_length _ _ _ Hm).
  pose proof (has_shape_nth _ _ _ _ Hl Hb). pose proof (has_shape_nth _ _ _ _ Hm Hb).
  split; [|rewrite length_fill_not; lia].
  rewrite nth_map_default with (d := []) by (rewrite length_zip_with; lia).
  now rewrite nth_zip_with with (d1 := []) (d2 := []) by lia.
Qed.

(** An edge tensor rebuilt with pad 0 is symmetric with a zero diagonal. *)
Lemma tril_unflatten_symmetric N pad (l : list Z) :
  length l = tri N ->
  symmetric 0%Z N (tril_unflatten 0%Z N pad l) /\
  diagonal_is 0%Z N pad (tril_unflatten 0%Z N pad l).
Proof.
  intros Hl. split.
  - intros i j Hi Hj. rewrite !get_tril_unflatten by assumption.
    destruct (Nat.ltb_spec j i), (Nat.ltb_spec i j); try reflexivity; lia.
  - intros i Hi. rewrite get_tril_unflatten by assumption.
    now rewrite Nat.ltb_irrefl.
Qed.




(** ** [_sample]: shapes of what is returned *)

Lemma _sample_shapes E self n cond_x cond_a s r s' :
  _sample E self n cond_x cond_a s = (inr r, s') ->
  well_formed_sample self (resolved_size n cond_x cond_a) r.
Proof.
  destruct r as [xs as_]. intros H.
  destruct (_sample_inv E self n cond_x cond_a s xs as_ s' H)
    as (x & l & Hmx & Hma & Hn & Hx & Hl & Hxs & Has).
  set (B := resolved_size n cond_x cond_a) in *.
  set (samp_n := sampled_sizes E self (fill_n s) B (node_evidence s cond_x)
                  (rng s)) in *.
  assert (Hsz : has_shape B (nd_x self) (size_mask self samp_n) = true)
    by (rewrite <- Hn; apply has_shape_size_mask).
  pose proof (has_shape_mask_add _ _ _ _ Hmx Hsz) as Hxx.
  pose proof (has_shape_mask_add _ _ _ _ Hma (has_shape_edge_mask _ _ _ Hsz))
    as Haa.
  unfold nd_a in Hl, Haa. rewrite <- tri_nd_a in Hl, Haa.
  pose proof (has_shape_length _ _ _ Hx) as Hlx.
  pose proof (has_shape_length _ _ _ Hl) as Hll.
  pose proof (has_shape_length _ _ _ Hxx) as Hlxx.
  pose proof (has_shape_length _ _ _ Haa) as Hlaa.
  unfold well_formed_sample. cbn [fst snd].
  split; [rewrite Hxs, length_map, length_zip_with; lia|].
  split; [rewrite Has, length_map, length_zip_with; lia|].
  split.
  - rewrite Hxs. apply Forall_nth. intros b d Hb.
    rewrite length_map, length_zip_with in Hb.
    assert (Hb' : b < B) by lia.
    rewrite nth_map_default with (d := []) by (rewrite length_zip_with; lia).
    rewrite nth_zip_with with (d1 := []) (d2 := []) by lia.
    rewrite length_map, length_fill_not.
    rewrite (has_shape_nth _ _ _ _ Hx Hb'), (has_shape_nth _ _ _ _ Hxx Hb'). lia.
  - rewrite Has. apply Forall_nth. intros b d Hb.
    rewrite length_map, length_zip_with in Hb.
    assert (Hb' : b < B) by lia.
    rewrite nth_indep with (d' := ([] : matrix Z))
      by (rewrite length_map, length_zip_with; lia).
    destruct (nth_sampled_edges _ _ _ _ _ Hl Haa Hb') as [-> Hlen].
    split; [apply has_shape_tril_unflatten|].
    now apply tril_unflatten_symmetric.
Qed.

(** ** [_sample]: the draws *)

(** What a call of [_sample] that returns has drawn, and from what. *)
Lemma _sample_inv_draws E self n cond_x cond_a s xs as_ s' :
  _sample E self n cond_x cond_a s = (inr (xs, as_), s') ->
  let B := resolved_size n cond_x cond_a in
  let ev := node_evidence s cond_x in
  let mask_x := node_evidence_mask self B ev in
  let mask_a := edge_evidence_mask self B cond_a in
  let logs_n := size_logits self (fill_n s) B ev in
  let logs_w :=
    sample_logs_w self (node_scores E self B ev)
                       (edge_scores E self B cond_a) in
  let samp_n := fst (Categorical_sample E logs_n (rng s)) in
  let g1 := snd (Categorical_sample E logs_n (rng s)) in
  let samp_w := fst (Categorical_sample E (map (map Fin) logs_w) g1) in
  let g2 := snd (Categorical_sample E (map (map Fin) logs_w) g1) in
  0 < B /\
  has_shape B (nc self) (node_scores E self B ev) = true /\
  has_shape B (nc self) (edge_scores E self B cond_a) = true /\
  forallb (existsb is_fin) logs_n = true /\
  fill_n s' = fill_after self (fill_n s) ev /\
  exists mkx mka,
    let x := fst (network_x_sample E mkx B samp_w ev g2) in
    let g3 := snd (network_x_sample E mkx B samp_w ev g2) in
    let l := fst (network_a_sample E mka B samp_w
                    (option_map (map (tril_flatten (nd_x self))) cond_a)
                    g3) in
    xs = map (map (fun v => (v + 1)%Z))
             (zip_with (fill_not (-1)) x
                       (mask_add mask_x (size_mask self samp_n))) /\
    as_ = map (tril_unflatten 0%Z (nd_x self) 0%Z)
              (zip_with (fill_not 0) l
                 (mask_add mask_a (edge_mask self (size_mask self samp_n)))).
Proof.
  intros H. unfold _sample in H. unfold bind at 1 in H.
  destruct cond_x as [cx|], cond_a as [ca|]; cbn zeta;
    try (destruct (len cx =? length ca) eqn:Hlen; [|discriminate H]);
    unfold ret at 1 in H; minv H;
    cbn [heap rng marg_x marg_a fill_n] in *; rewrite ?rows_store_isub in *;
    match goal with
    | Hr : (xs, as_) = _ |- _ => inversion Hr; clear Hr
    end;
    match goal with
    | Hg : has_shape _ _ _ && has_shape _ _ _ = true |- _ =>
        apply andb_prop in Hg; destruct Hg as [Hsx Hsa]
    end;
    match goal with
    | Hd : 0 < length (repeat _ _) |- _ => rewrite repeat_length in Hd
    end;
    (split; [assumption|]); (split; [exact Hsx|]); (split; [exact Hsa|]);
    (split; [assumption|]); (split; [reflexivity|]);
    do 2 eexists; cbv zeta; split; reflexivity.
Qed.

Lemma nth_sample_logs_w self B (logs_x logs_a : list (list R)) (w : list R) b :
  has_shape B (nc self) logs_x = true -> has_shape B (nc self) logs_a = true ->
  length w = nc self -> b < B ->
  nth b (add_logs logs_x logs_a w) []
  = map (fun c => (nth c (nth b logs_x []) 0 + nth c (nth b logs_a []) 0
                   + nth c w 0)%R)
        (seq 0 (nc self)).
Proof.
  intros Hx Ha Hw Hb.
  pose proof (has_shape_length _ _ _ Hx) as Hlx.
  pose proof (has_shape_length _ _ _ Ha) as Hla.
  unfold add_logs.
  rewrite nth_zip_with with (d1 := []) (d2 := []) by lia.
  apply add_logs_row; [| | exact Hw].
  - now apply has_shape_nth with (B := B).
  - now apply has_shape_nth with (B := B).
Qed.

(** C9: in a call of [_sample] that returns, the component index of every
    example is the draw of [Categorical(logits=logs_w)], made after the
    draw of the sizes, with
    [logs_w = score_node + score_edge + logits_w] (the raw weights), the
    scores being those of the evidence under the evidence masks (zero
    where none is given); both circuit samplers are handed the indices
    drawn. The probabilities of that distribution are, for every example,
    the softmax over the components of
    score_node[c] + score_edge[c] + logsoftmax(w)[c]: the two logit
    vectors differ by the per-example constant logsumexp(w), and a
    constant shift leaves the softmax as it is. *)
Theorem component_posterior_is_softmax E self n cond_x cond_a s xs as_ s' :
  _sample E self n cond_x cond_a s = (inr (xs, as_), s') ->
  let B := resolved_size n cond_x cond_a in
  let ev := node_evidence s cond_x in
  let mask_x := node_evidence_mask self B ev in
  let mask_a := edge_evidence_mask self B cond_a in
  let score_node := node_scores E self B ev in
  let score_edge := edge_scores E self B cond_a in
  let logs_n := size_logits self (fill_n s) B ev in
  let logs_w := sample_logs_w self score_node score_edge in
  let samp_n := fst (Categorical_sample E logs_n (rng s)) in
  let g1 := snd (Categorical_sample E logs_n (rng s)) in
  let samp_w := fst (Categorical_sample E (map (map Fin) logs_w) g1) in
  let g2 := snd (Categorical_sample E (map (map Fin) logs_w) g1) in
  (exists mkx mka,
     let x := fst (network_x_sample E mkx B samp_w ev g2) in
     let g3 := snd (network_x_sample E mkx B samp_w ev g2) in
     let l := fst (network_a_sample E mka B samp_w
                     (option_map (map (tril_flatten (nd_x self))) cond_a)
                     g3) in
     xs = map (map (fun v => (v + 1)%Z))
              (zip_with (fill_not (-1)) x
                        (mask_add mask_x (size_mask self samp_n))) /\
     as_ = map (tril_unflatten 0%Z (nd_x self) 0%Z)
               (zip_with (fill_not 0) l
                  (mask_add mask_a
                     (edge_mask self (size_mask self samp_n))))) /\
  length logs_w = B /\
  (forall b, b < B ->
     nth b logs_w []
     = map (fun c => (nth c (nth b score_node []) 0
                      + nth c (nth b score_edge []) 0
                      + nth c (logits_w self) 0)%R)
           (seq 0 (nc self)) /\
     Categorical_probs (nth b logs_w [])
     = softmax (spec_posterior_logits self (nth b score_node [])
                                      (nth b score_edge []))) /\
  (forall (l : list R) (c : R),
     Categorical_probs (map (fun v => (v + c)%R) l) = Categorical_probs l).
Proof.
  intros H B ev mask_x mask_a score_node score_edge logs_n logs_w samp_n g1
    samp_w g2.
  destruct (_sample_inv_draws E self n cond_x cond_a s xs as_ s' H)
    as (HB & Hsx & Hsa & _ & _ & Hdraw).
  fold B ev score_node score_edge in Hsx, Hsa.
  split; [exact Hdraw|].
  pose proof (has_shape_length _ _ _ Hsx) as Hlx.
  pose proof (has_shape_length _ _ _ Hsa) as Hla.
  split.
  { unfold logs_w, sample_logs_w, add_logs. rewrite length_zip_with. lia. }
  split; [|intros l c; apply softmax_shift].
  intros b Hb.
  assert (Hraw : nth b logs_w []
                 = map (fun c => (nth c (nth b score_node []) 0
                                  + nth c (nth b score_edge []) 0
                                  + nth c (logits_w self) 0)%R)
                       (seq 0 (nc self)))
    by (apply (nth_sample_logs_w self B); auto).
  split; [exact Hraw|].
  unfold Categorical_probs, spec_posterior_logits.
  rewrite <- (nth_sample_logs_w self B score_node score_edge
                (log_softmax (logits_w self)) b Hsx Hsa
                (length_log_softmax _) Hb).
  unfold logs_w, sample_logs_w, add_logs.
  rewrite !nth_zip_with with (d1 := []) (d2 := []) by lia.
  unfold log_softmax. rewrite zip_with_plus_shift.
  now rewrite softmax_shift.
Qed.

Lemma component_posterior_is_softmax_witness :
  let E := toy_engine 2 2 in
  let self := toy_model 2 2 in
  let h : store := fun b => if b =? 0 then [[2; 0]%Z] else [] in
  let s := toy_state 2 2 h in
  let cond_x := Some (mkRef 0 0 1) in
  let cond_a := Some [[[-1; -1]; [1; -1]]%Z] in
  let r := _sample E self 1 cond_x cond_a s in
  fst r = inr ([[2; 2]%Z], [[[0; 1]; [1; 0]]%Z]) /\
  Categorical_probs
    (nth 0 (sample_logs_w self (node_scores E self 1 (node_evidence s cond_x))
                               (edge_scores E self 1 cond_a)) [])
  = softmax (spec_posterior_logits self [0; 0]%R [0; 0]%R).
Proof.
  intros E self h s cond_x cond_a r.
  assert (Hr : r = (inr ([[2; 2]%Z], [[[0; 1]; [1; 0]]%Z]), snd r)).
  { rewrite (surjective_pairing r) at 1. now f_equal. }
  split; [now rewrite Hr|].
  destruct (component_posterior_is_softmax E self 1 cond_x cond_a s _ _
              (snd r) Hr) as (_ & _ & H & _).
  destruct (H 0) as [_ Hp]; [cbn; lia|]. exact Hp.
Defined.

(** ** [_sample]: when it returns *)

Lemma bind_ret_l {S A B} (v : A) (k : A -> ST S B) s :
  bind (ret v) k s = k v s.
Proof. reflexivity. Qed.

Lemma bind_guard_true {S B} (b : bool) e (k : unit -> ST S B) s :
  b = true -> bind (guard b e) k s = k tt s.
Proof. now intros ->. Qed.

Lemma bind_draw {E A B} (f : G E -> A * G E) (k : A -> M E B) s :
  bind (draw f) k s
  = k (fst (f (rng s)))
      (mkState (heap s) (snd (f (rng s))) (marg_x s) (marg_a s) (fill_n s)).
Proof. unfold bind, draw. now destruct (f (rng s)). Qed.

Lemma bind_bind {S A B C} (c : ST S A) (k1 : A -> ST S B)
  (k2 : B -> ST S C) s :
  bind (bind c k1) k2 s = bind c (fun v => bind (k1 v) k2) s.
Proof. unfold bind. now destruct (c s) as [[e|v] s1]. Qed.

Lemma bind_read_logits_n {E B} self (k : list logit -> M E B) s :
  bind (read_logits_n self) k s = k (logits_n_now self (fill_n s)) s.
Proof. reflexivity. Qed.

Lemma bind_Categorical_draw {E B} l (k : list nat -> M E B) s :
  0 < length l -> 0 < length (hd [] l) ->
  forallb (existsb is_fin) l = true ->
  bind (Categorical_draw l) k s
  = k (fst (Categorical_sample E l (rng s)))
      (mkState (heap s) (snd (Categorical_sample E l (rng s)))
               (marg_x s) (marg_a s) (fill_n s)).
Proof.
  intros Hl Hw Hf. unfold Categorical_draw.
  assert (Hb : (0 <? length l) && (0 <? length (hd [] l)) = true).
  { apply andb_true_intro. split; now apply Nat.ltb_lt. }
  unfold bind at 1. unfold bind at 1. rewrite Hb. cbn [guard ret].
  unfold bind at 1. rewrite Hf. cbn [guard ret].
  fold (bind (draw (Categorical_sample E l)) k s). apply bind_draw.
Qed.

(** A batch of finite logits of shape (B, K) with elements can be drawn
    from. *)
Lemma finite_batch_drawable B K (t : list (list R)) :
  has_shape B K t = true -> 0 < B -> 0 < K ->
  0 < length (map (map Fin) t) /\
  0 < length (hd [] (map (map Fin) t)) /\
  forallb (existsb is_fin) (map (map Fin) t) = true.
Proof.
  intros Hs HB HK. apply has_shape_spec in Hs as [Hl Hw].
  unfold rows_of_width in Hw. rewrite Forall_forall in Hw.
  split; [rewrite length_map; lia|]. split.
  - destruct t as [|r t]; [cbn in Hl; lia|]. cbn [map hd].
    rewrite length_map, (Hw r) by now left. exact HK.
  - apply forallb_forall. intros q Hq.
    apply in_map_iff in Hq as (r & <- & Hr). specialize (Hw r Hr).
    destruct r as [|v r]; [cbn in Hw; lia|]. reflexivity.
Qed.

Lemma has_shape_add_logs B K (logs_x logs_a : list (list R)) (w : list R) :
  has_shape B K logs_x = true -> has_shape B K logs_a = true ->
  length w = K -> has_shape B K (add_logs logs_x logs_a w) = true.
Proof.
  intros Hx Ha Hw.
  pose proof (has_shape_length _ _ _ Hx) as Hlx.
  pose proof (has_shape_length _ _ _ Ha) as Hla.
  apply has_shape_spec. unfold add_logs.
  split; [rewrite length_zip_with; lia|].
  apply Forall_nth. intros b d Hb. rewrite length_zip_with in Hb.
  rewrite nth_indep with (d' := []) by (rewrite length_zip_with; lia).
  rewrite nth_zip_with with (d1 := []) (d2 := []) by lia.
  rewrite !length_zip_with.
  rewrite (has_shape_nth _ _ _ _ Hx) by lia.
  rewrite (has_shape_nth _ _ _ _ Ha) by lia. lia.
Qed.

Lemma drawable_rows self fill n :
  drawable self fill -> 0 < n ->
  0 < length (repeat (logits_n_now self fill) n) /\
  0 < length (hd [] (repeat (logits_n_now self fill) n)) /\
  forallb (existsb is_fin) (repeat (logits_n_now self fill) n) = true.
Proof.
  intros Hd Hn. unfold drawable in Hd.
  split; [rewrite repeat_length; lia|]. split.
  - destruct n as [|n]; [lia|]. cbn [repeat hd].
    destruct (logits_n_now self fill); [discriminate Hd | cbn; lia].
  - apply forallb_forall. intros r Hr. apply repeat_spec in Hr. now subst.
Qed.

Lemma bind_x_sample {E B} n c x (k : list (list Z) -> M E B) s :
  bind (call_network_x_sample n c x) k s
  = k (fst (network_x_sample E (marg_x s) n c x (rng s)))
      (mkState (heap s) (snd (network_x_sample E (marg_x s) n c x (rng s)))
               (marg_x s) (marg_a s) (fill_n s)).
Proof.
  unfold bind, call_network_x_sample, draw.
  now destruct (network_x_sample E (marg_x s) n c x (rng s)).
Qed.

Lemma bind_a_sample {E B} n c x (k : list (list Z) -> M E B) s :
  bind (call_network_a_sample n c x) k s
  = k (fst (network_a_sample E (marg_a s) n c x (rng s)))
      (mkState (heap s) (snd (network_a_sample E (marg_a s) n c x (rng s)))
               (marg_x s) (marg_a s) (fill_n s)).
Proof.
  unfold bind, call_network_a_sample, draw.
  now destruct (network_a_sample E (marg_a s) n c x (rng s)).
Qed.

(** Under the contract of the engine, an unconditional [_sample] of at
    least one example returns, when there is a component and a size to
    draw; the parameter is as before. *)
Lemma _sample_returns E self n s :
  sampler_ok E self -> 0 < n -> 0 < nc self -> drawable self (fill_n s) ->
  exists r s', _sample E self n None None s = (inr r, s') /\
               fill_n s' = fill_n s.
Proof.
  intros (Hcat & Hxs & Has) Hn Hnc Hd. unfold _sample.
  rewrite !bind_ret_l. cbv beta iota zeta.
  rewrite bind_bind, bind_read_logits_n, bind_ret_l. cbv beta iota zeta.
  rewrite bind_ret_l. cbv beta iota zeta.
  rewrite bind_guard_true by (now rewrite !has_shape_repeat).
  destruct (drawable_rows self (fill_n s) n Hd Hn) as (D1 & D2 & D3).
  rewrite (bind_Categorical_draw _ _ _ D1 D2 D3).
  assert (Hw : has_shape n (nc self)
                 (sample_logs_w self (repeat (repeat 0%R (nc self)) n)
                                     (repeat (repeat 0%R (nc self)) n)) = true).
  { apply has_shape_add_logs; [apply has_shape_repeat .. | reflexivity]. }
  destruct (finite_batch_drawable _ _ _ Hw Hn Hnc) as (W1 & W2 & W3).
  rewrite (bind_Categorical_draw _ _ _ W1 W2 W3).
  cbn [heap rng marg_x marg_a fill_n].
  rewrite bind_guard_true
    by (now rewrite Hcat, !repeat_length, Nat.eqb_refl).
  rewrite bind_x_sample, bind_a_sample. cbn [heap rng marg_x marg_a fill_n].
  rewrite bind_guard_true by apply Hxs.
  rewrite bind_guard_true by apply Has.
  now do 2 eexists.
Qed.

Lemma _sample_int_returns E self (k : Z) s :
  sampler_ok E self -> (0 < k)%Z -> 0 < nc self ->
  drawable self (fill_n s) ->
  exists r s', _sample_int E self k s = (inr r, s') /\
               fill_n s' = fill_n s /\
               well_formed_sample self (Z.to_nat k) r.
Proof.
  intros Hok Hk Hnc Hd. unfold _sample_int.
  destruct (Z.ltb_spec k 0) as [Hlt|_]; [lia|].
  destruct (_sample_returns E self (Z.to_nat k) s Hok ltac:(lia) Hnc Hd)
    as (r & s' & H & Hf).
  exists r, s'. split; [exact H|]. split; [exact Hf|].
  apply (_sample_shapes E self (Z.to_nat k) None None s r s' H).
Qed.

Lemma mapM_sample_int_returns E self (chunks : list Z) s :
  sampler_ok E self -> Forall (fun k => 0 < k)%Z chunks -> 0 < nc self ->
  drawable self (fill_n s) ->
  exists rs s', mapM (_sample_int E self) chunks s = (inr rs, s') /\
    Forall2 (fun k r => well_formed_sample self (Z.to_nat k) r) chunks rs.
Proof.
  intros Hok Hpos Hnc. revert s.
  induction Hpos as [|k chunks Hk _ IH]; intros s Hd.
  - exists [], s. split; [reflexivity|constructor].
  - destruct (_sample_int_returns E self k s Hok Hk Hnc Hd)
      as (r & s1 & Hr & Hf & Hwf).
    destruct (IH s1) as (rs & s2 & Hrs & Hall); [now rewrite Hf|].
    exists (r :: rs), s2. split; [|now constructor].
    cbn [mapM]. rewrite (bind_inr _ _ _ _ _ Hr).
    now rewrite (bind_inr _ _ _ _ _ Hrs).
Qed.

Lemma well_formed_concat self (chunks : list Z)
  (rs : list (list (list Z) * list (matrix Z))) :
  Forall2 (fun k r => well_formed_sample self (Z.to_nat k) r) chunks rs ->
  well_formed_sample self (list_sum (map Z.to_nat chunks))
    (concat (map fst rs), concat (map snd rs)).
Proof.
  induction 1 as [|k r chunks rs (H1 & H2 & H3 & H4) _ IH].
  - repeat split; constructor.
  - destruct IH as (I1 & I2 & I3 & I4). unfold well_formed_sample in *.
    cbn [fst snd map concat list_sum] in *.
    rewrite !length_app, H1, H2, I1, I2.
    repeat split; try reflexivity; unfold rows_of_width in *;
      apply Forall_app; now split.
Qed.

Lemma list_sum_repeat k n : list_sum (repeat k n) = n * k.
Proof.
  unfold list_sum. induction n as [|n IH]; cbn [repeat fold_right]; [reflexivity|].
  rewrite IH. lia.
Qed.

Lemma spec_chunks_sum (n c : Z) :
  (0 < c)%Z -> (0 <= n)%Z ->
  Forall (fun k => 0 <= k)%Z (spec_chunks n c) /\
  list_sum (map Z.to_nat (spec_chunks n c)) = Z.to_nat n.
Proof.
  intros Hc Hn. unfold spec_chunks.
  pose proof (Z.mod_pos_bound n c Hc) as Hm.
  pose proof (Z.div_pos n c Hn Hc) as Hq.
  pose proof (Z.div_mod n c ltac:(lia)) as Hdm.
  split.
  - apply Forall_app. split.
    + apply Forall_forall. intros k Hk. apply repeat_spec in Hk. lia.
    + destruct (0 <? n mod c)%Z; repeat constructor. lia.
  - rewrite map_app, list_sum_app, map_repeat, list_sum_repeat.
    assert (Hsum : Z.to_nat n
                   = Z.to_nat (n / c) * Z.to_nat c + Z.to_nat (n mod c)).
    { rewrite Hdm at 1.
      rewrite Z2Nat.inj_add, Z2Nat.inj_mul by nia. lia. }
    rewrite Hsum. unfold list_sum.
    destruct (Z.ltb_spec 0 (n mod c)); cbn [map fold_right]; lia.
Qed.

Lemma spec_chunks_pos (n c : Z) :
  (0 < c)%Z -> Forall (fun k => 0 < k)%Z (spec_chunks n c).
Proof.
  intros Hc. unfold spec_chunks. apply Forall_app. split.
  - apply Forall_forall. intros k Hk. apply repeat_spec in Hk. lia.
  - destruct (Z.ltb_spec 0 (n mod c)); repeat constructor. assumption.
Qed.

Lemma unzip_cat_cons {E} (r : list (list Z) * list (matrix Z)) rs
  (s : state E) :
  unzip_cat (r :: rs) s
  = (inr (concat (map fst (r :: rs)), concat (map snd (r :: rs))), s).
Proof. reflexivity. Qed.

(** ** [sample]: shapes, for a count above zero *)

Lemma sample_unconditional_returns E self (count chunk_size : Z) s :
  sampler_ok E self -> (0 < chunk_size)%Z -> (0 < count)%Z ->
  0 < nc self -> drawable self (fill_n s) ->
  exists r s',
    sample E self count None None chunk_size s = (inr r, s') /\
    well_formed_sample self (Z.to_nat count) r.
Proof.
  intros Hok Hc Hn Hnc Hd. unfold sample.
  destruct (Z.ltb_spec chunk_size count) as [Hlt|Hge].
  - unfold chunk_sizes. destruct (Z.eqb_spec chunk_size 0) as [|_]; [lia|].
    fold (spec_chunks count chunk_size).
    destruct (spec_chunks_sum count chunk_size Hc ltac:(lia)) as [_ Hsum].
    destruct (mapM_sample_int_returns E self _ s Hok
                (spec_chunks_pos count chunk_size Hc) Hnc Hd)
      as (rs & s1 & Hrs & Hall).
    rewrite (bind_inr _ _ s (spec_chunks count chunk_size) s) by reflexivity.
    rewrite (bind_inr _ _ _ _ _ Hrs).
    destruct rs as [|r rs].
    + exfalso. inversion Hall as [Hnil|]. unfold spec_chunks in Hnil.
      symmetry in Hnil. apply app_eq_nil in Hnil as [Hrep _].
      assert (Hq : (0 < count / chunk_size)%Z) by (apply Z.div_str_pos; lia).
      destruct (Z.to_nat (count / chunk_size)) eqn:Hz; [lia|discriminate].
    + rewrite unzip_cat_cons. do 2 eexists. split; [reflexivity|].
      rewrite <- Hsum. now apply well_formed_concat.
  - destruct (_sample_int_returns E self count s Hok Hn Hnc Hd)
      as (r & s' & Hr & _ & Hwf).
    now exists r, s'.
Qed.

Section PlainVariant.
Import String.StringSyntax.
Local Open Scope string_scope.

Lemma zbind_draw {E A B} (f : MolSPNZero.G E -> A * MolSPNZero.G E)
  (k : A -> ST (MolSPNZero.G E) B) g :
  bind (MolSPNZero.draw f) k g = k (fst (f g)) (snd (f g)).
Proof. unfold bind, MolSPNZero.draw. now destruct (f g). Qed.

Lemma plain_sample_returns E self nc nd_n nk_n nk_e nl_n nl_e nr_n nr_e
  ns_n ns_e ni_n ni_e regime dc_n dc_e n g :
  MolSPNZero.MolSPNZeroSort_init nc nd_n nk_n nk_e nl_n nl_e nr_n nr_e
    ns_n ns_e ni_n ni_e regime dc_n dc_e = inr self ->
  regime = "cat" \/ regime = "bin" ->
  zero_sampler_ok E self -> 0 < n -> 0 < nc ->
  exists xs as_ g',
    MolSPNZero.sample E self n g = (inr (xs, as_), g') /\
    length xs = n /\ length as_ = n /\
    rows_of_width nd_n xs /\
    Forall (well_formed_edges nd_n (nk_e - 1)%Z) as_.
Proof.
  intros Hinit Hregime Hok Hn Hnc.
  assert (Hself : MolSPNZero.nd_nodes (MolSPNZero.core self) = nd_n /\
                  MolSPNZero.nd_edges (MolSPNZero.core self) = tri nd_n /\
                  MolSPNZero.nk_edges (MolSPNZero.core self) = nk_e /\
                  MolSPNZero.regime (MolSPNZero.core self) = regime /\
                  length (MolSPNZero.logits_w self) = nc).
  { rewrite tri_closed.
    destruct Hregime; subst regime; cbn in Hinit; inversion Hinit;
      cbn; now rewrite repeat_length. }
  destruct Hself as (Hnd & Hne & Hnk & Hrg & Hw).
  unfold MolSPNZero.sample.
  rewrite bind_guard_true
    by (rewrite Hw; apply andb_true_intro; split; now apply Nat.ltb_lt).
  rewrite !zbind_draw.
  set (cls := fst (MolSPNZero.Categorical_sample E _ n g)).
  set (g1 := snd (MolSPNZero.Categorical_sample E _ n g)).
  destruct (Hok n cls g1) as [(x & Hx & Hsx) _].
  set (g2 := snd (MolSPNZero.network_sample E _ n cls g1)).
  destruct (Hok n cls g2) as [_ (l & Hl & Hsl)].
  rewrite Hx, Hl, Hrg, Hnd, Hne, Hnk in *.
  assert (Hb : String.eqb regime "cat" || String.eqb regime "bin" = true)
    by (destruct Hregime; subst regime; reflexivity).
  rewrite Hb, bind_guard_true by assumption.
  do 3 eexists. split; [reflexivity|].
  apply has_shape_spec in Hsx as [Hlx Hwx], Hsl as [Hll Hwl].
  split; [assumption|]. split; [now rewrite length_map|].
  split; [assumption|].
  apply Forall_map. eapply Forall_impl; [|exact Hwl]. intros r Hr. cbn beta.
  split; [apply has_shape_tril_unflatten|].
  now apply tril_unflatten_symmetric.
Qed.

(** Counterexample to C5 as stated: the plain variant in the 'cat' regime
    with four edge labels returns edge tensors whose diagonal holds the
    pad label [nk_edges - 1 = 3], not zero. *)
Lemma plain_sample_diagonal_counterexample :
  exists self,
    MolSPNZero.MolSPNZeroSort_init 1 2 4 4 1 1 1 1 1 1 1 1 "cat"
      MolSPNZero.default_dc MolSPNZero.default_dc = inr self /\
    fst (MolSPNZero.sample toy_zero_engine self 1 tt)
    = inr ([[1; 1]%Z], [[[3; 1]; [1; 3]]%Z]) /\
    ~ diagonal_is 0%Z 2 0%Z [[3; 1]; [1; 3]]%Z.
Proof.
  eexists. split; [reflexivity|]. split; [reflexivity|].
  intros H. specialize (H 0 ltac:(lia)). discriminate H.
Qed.

Lemma toy_zero_sampler_ok self nd_n nk :
  MolSPNZero.MolSPNZeroSort_init 1 nd_n nk nk 1 1 1 1 1 1 1 1 "cat"
    MolSPNZero.default_dc MolSPNZero.default_dc = inr self ->
  zero_sampler_ok toy_zero_engine self.
Proof.
  intros H. cbn in H. inversion H. intros n c g. cbn.
  split; eexists; (split; [reflexivity|]); apply has_shape_repeat.
Qed.

Lemma toy_sampler_ok nc nd : sampler_ok (toy_engine nc nd) (toy_model nc nd).
Proof.
  assert (Hnd : nd_x (toy_model nc nd) = nd) by apply repeat_length.
  unfold sampler_ok, nd_a. rewrite Hnd. unfold toy_engine, toy_fill.
  cbn [Categorical_sample network_x_sample network_a_sample fst].
  repeat split; intros; first [apply length_map | apply has_shape_repeat].
Qed.

(** C5 (amended): for any count above zero (and a positive chunk size),
    [sample] of the size-prior variant returns [count] node label rows of
    length N and [count] edge matrices of shape N x N that are symmetric
    with a zero diagonal, given an engine that returns batches of the
    shapes asked for, a component to draw and a size to draw. [sample] of
    the plain variant, in the 'cat' and 'bin' regimes, returns [count]
    rows of length N and [count] symmetric N x N edge matrices whose
    diagonal holds the pad label [nk_edges - 1]. *)
Theorem sample_shape_invariants :
  (forall E self (count chunk_size : Z) s,
     sampler_ok E self -> (0 < chunk_size)%Z -> (0 < count)%Z ->
     0 < nc self -> drawable self (fill_n s) ->
     exists r s',
       sample E self count None None chunk_size s = (inr r, s') /\
       length (fst r) = Z.to_nat count /\
       length (snd r) = Z.to_nat count /\
       rows_of_width (nd_x self) (fst r) /\
       Forall (well_formed_edges (nd_x self) 0%Z) (snd r)) /\
  (forall E self nc nd_n nk_n nk_e nl_n nl_e nr_n nr_e ns_n ns_e ni_n ni_e
          regime dc_n dc_e n g,
     MolSPNZero.MolSPNZeroSort_init nc nd_n nk_n nk_e nl_n nl_e nr_n nr_e
       ns_n ns_e ni_n ni_e regime dc_n dc_e = inr self ->
     regime = "cat" \/ regime = "bin" ->
     zero_sampler_ok E self -> 0 < n -> 0 < nc ->
     exists xs as_ g',
       MolSPNZero.sample E self n g = (inr (xs, as_), g') /\
       length xs = n /\ length as_ = n /\
       rows_of_width nd_n xs /\
       Forall (well_formed_edges nd_n (nk_e - 1)%Z) as_).
Proof.
  split.
  - intros E self count chunk_size s Hok Hc Hn Hnc Hd.
    destruct (sample_unconditional_returns E self count chunk_size s
                Hok Hc Hn Hnc Hd)
      as (r & s' & Hr & H1 & H2 & H3 & H4).
    exists r, s'. repeat split; assumption.
  - intros. eapply plain_sample_returns; eassumption.
Qed.

Lemma sample_shape_invariants_witness :
  (exists r s',
     sample (toy_engine 1 3) (toy_model 1 3) 5 None None 2
            (toy_state 1 3 (fun _ => [])) = (inr r, s') /\
     length (fst r) = 5 /\ length (snd r) = 5) /\
  (exists xs as_ g',
     MolSPNZero.sample toy_zero_engine
       (MolSPNZero.mkSort
          (MolSPNZero.mkCore 2 1 4 4 "cat" None None
             (MolSPNZero.mkNet (MolSPNZero.random_binary_trees 2 1 1)
                (MolSPNZero.mkArgs 2 1 1 1 1 MolSPNZero.CategoricalArray
                   (MolSPNZero.args_K 4) false))
             (MolSPNZero.mkNet (MolSPNZero.random_binary_trees 1 1 1)
                (MolSPNZero.mkArgs 1 1 1 1 1 MolSPNZero.CategoricalArray
                   (MolSPNZero.args_K 4) false)))
          [1%R] (tril_mask 2)) 1 tt = (inr (xs, as_), g') /\
     Forall (well_formed_edges 2 3%Z) as_).
Proof.
  destruct sample_shape_invariants as [Hpgc Hzero]. split.
  - destruct (Hpgc (toy_engine 1 3) (toy_model 1 3) 5%Z 2%Z
                (toy_state 1 3 (fun _ => [])) (toy_sampler_ok 1 3)
                ltac:(lia) ltac:(lia) ltac:(cbn; lia) eq_refl)
      as (r & s' & Hr & H1 & H2 & _).
    exists r, s'. split; [exact Hr|]. split; [exact H1 | exact H2].
  - destruct (Hzero toy_zero_engine _ 1 2 4%Z 4%Z 1%Z 1%Z 1%Z 1%Z 1%Z 1%Z
                1%Z 1%Z "cat" MolSPNZero.default_dc MolSPNZero.default_dc
                1 tt eq_refl (or_introl eq_refl)
                (toy_zero_sampler_ok _ 2 4%Z eq_refl) ltac:(lia) ltac:(lia))
      as (xs & as_ & g' & Hr & _ & _ & _ & Hwf).
    exists xs, as_, g'. split; [exact Hr | exact Hwf].
Defined.
End PlainVariant.

(** ** [sample]: chunking *)

Lemma sample_int_nonneg E self (k : Z) :
  (0 <= k)%Z -> _sample_int E self k = _sample E self (Z.to_nat k) None None.
Proof.
  intros Hk. unfold _sample_int. now destruct (Z.ltb_spec k 0); [lia|].
Qed.

Lemma mapM_singleton_cat E self (k : Z) s :
  (rs <- mapM (_sample_int E self) [k] ;; unzip_cat rs) s
  = _sample_int E self k s.
Proof.
  cbn [mapM]. unfold bind.
  destruct (_sample_int E self k s) as [[e|[x a]] s1]; [reflexivity|].
  cbn. now rewrite !app_nil_r.
Qed.

Lemma spec_chunks_small (n c : Z) :
  (0 < n)%Z -> (n <= c)%Z -> spec_chunks n c = [n].
Proof.
  intros Hn Hc. unfold spec_chunks.
  destruct (Z.eq_dec n c) as [->|Hne].
  - rewrite Z.div_same, Z.mod_same by lia. reflexivity.
  - rewrite Z.div_small, Z.mod_small by lia.
    now destruct (Z.ltb_spec 0 n); [|lia].
Qed.

Lemma sample_unfold_chunks E self (n c : Z) s :
  (0 < c)%Z -> (0 < n)%Z ->
  sample E self n None None c s
  = (rs <- mapM (_sample_int E self) (spec_chunks n c) ;; unzip_cat rs) s.
Proof.
  intros Hc Hn. unfold sample.
  destruct (Z.ltb_spec c n) as [Hlt|Hge].
  - unfold chunk_sizes. destruct (Z.eqb_spec c 0) as [|_]; [lia|].
    fold (spec_chunks n c).
    now rewrite (bind_inr _ _ s (spec_chunks n c) s) by reflexivity.
  - rewrite spec_chunks_small by assumption.
    now rewrite mapM_singleton_cat.
Qed.

Lemma mapM_three_cat E self (k1 k2 k3 : Z) s :
  (0 <= k1)%Z -> (0 <= k2)%Z -> (0 <= k3)%Z ->
  (rs <- mapM (_sample_int E self) [k1; k2; k3] ;; unzip_cat rs) s
  = three_calls E self (Z.to_nat k1) (Z.to_nat k2) (Z.to_nat k3) s.
Proof.
  intros H1 H2 H3. unfold three_calls. cbn [mapM].
  rewrite !sample_int_nonneg by assumption. unfold bind.
  destruct (_sample E self (Z.to_nat k1) None None s) as [[e|r1] s1];
    [reflexivity|].
  destruct (_sample E self (Z.to_nat k2) None None s1) as [[e|r2] s2];
    [reflexivity|].
  destruct (_sample E self (Z.to_nat k3) None None s2) as [[e|r3] s3];
    [reflexivity|].
  cbn. now rewrite !app_nil_r.
Qed.

(** C7: unconditional sampling of [num_samples > 0] examples with a
    chunk size [chunk_size > 0] is the calls of [_sample], in turn and on
    the random source the previous call left, on
    floor(num_samples / chunk_size) chunks of [chunk_size] examples and one
    more chunk of the remainder when it is not zero, concatenated in
    order; there is no recursive subdivision. A count of 5000 with chunk
    size 2000 is the three calls of sizes 2000, 2000 and 1000. (A count of
    0 is one call of size 0.) *)
Theorem sample_chunking E self (num_samples chunk_size : Z) s :
  (0 < chunk_size)%Z -> (0 < num_samples)%Z ->
  sample E self num_samples None None chunk_size s
  = (rs <- mapM (_sample_int E self) (spec_chunks num_samples chunk_size) ;;
     unzip_cat rs) s /\
  (forall k, In k (spec_chunks num_samples chunk_size) ->
     (0 < k <= chunk_size)%Z /\
     _sample_int E self k = _sample E self (Z.to_nat k) None None) /\
  sample E self 0 None None chunk_size s = _sample E self 0 None None s /\
  sample E self 5000 None None 2000 s = three_calls E self 2000 2000 1000 s.
Proof.
  intros Hc Hn.
  split; [now apply sample_unfold_chunks|]. split; [|split].
  - intros k Hk. unfold spec_chunks in Hk.
    pose proof (Z.mod_pos_bound num_samples chunk_size Hc) as Hm.
    assert (Hb : (0 < k <= chunk_size)%Z).
    { apply in_app_or in Hk as [Hk|Hk].
      - apply repeat_spec in Hk. lia.
      - destruct (Z.ltb_spec 0 (num_samples mod chunk_size)) as [Hr|Hr];
          [|destruct Hk].
        destruct Hk as [<-|[]]. lia. }
    split; [exact Hb|]. apply sample_int_nonneg. lia.
  - unfold sample. destruct (Z.ltb_spec chunk_size 0); [lia|]. reflexivity.
  - rewrite sample_unfold_chunks by lia.
    change (spec_chunks 5000 2000) with [2000; 2000; 1000]%Z.
    rewrite mapM_three_cat by lia. reflexivity.
Qed.

Lemma sample_chunking_witness :
  sample (toy_engine 1 3) (toy_model 1 3) 5 None None 2
         (toy_state 1 3 (fun _ => []))
  = (rs <- mapM (_sample_int (toy_engine 1 3) (toy_model 1 3)) [2; 2; 1]%Z ;;
     unzip_cat rs) (toy_state 1 3 (fun _ => [])).
Proof.
  apply (sample_chunking (toy_engine 1 3) (toy_model 1 3) 5 2
           (toy_state 1 3 (fun _ => []))); lia.
Defined.

(** ** Conditional chunking *)

(** C4, the code at a failing input: five examples of evidence and
    [chunk_size = 2]. [Tensor.chunk(2)] cuts the evidence into two chunks,
    of 3 and 2 examples: the node sampler is asked for 3 examples, then
    for 2 (the random source of the small engine records it), and the
    first chunk has more than [chunk_size] examples. Node and edge
    evidence are cut at the same places and the five examples come back
    in order. *)
Theorem sample_conditional_chunks_by_count :
  let E := toy_engine 1 2 in
  let self := toy_model 1 2 in
  let h : store := fun b => if b =? 0 then repeat [0; 0]%Z 5 else [] in
  let s := toy_state 1 2 h in
  let cond_x := mkRef 0 0 5 in
  let cond_a := repeat [[-1; -1]; [-1; -1]]%Z 5 in
  map len (chunk_ref cond_x 2) = [3; 2] /\
  map (@length _) (chunk_list cond_a 2) = [3; 2] /\
  rng (snd (sample E self 1 (Some cond_x) (Some cond_a) 2 s)) = [3; 2] /\
  fst (sample E self 1 (Some cond_x) (Some cond_a) 2 s)
  = inr (repeat [2; 0]%Z 5, repeat [[0; 0]; [0; 0]]%Z 5).
Proof. cbv zeta. repeat split; reflexivity. Qed.

(** ** Unsupported regime *)

Section Regime.
Import String.StringSyntax.
Local Open Scope string_scope.

Lemma regime_locals_unsupported regime nk_n nk_e :
  regime <> "cat" -> regime <> "bin" -> regime <> "deq" ->
  MolSPNZero.regime_locals regime nk_n nk_e
  = MolSPNZero.mkLocals None None None None None None.
Proof.
  intros H1 H2 H3. unfold MolSPNZero.regime_locals.
  apply String.eqb_neq in H1, H2, H3. now rewrite H1, H2, H3.
Qed.

(** C6: constructing a model with a regime name other than 'cat', 'bin'
    and 'deq' raises an error at once: [__init__] returns no model, no
    network is built, and nothing is tried again. (The branch on the
    regime itself raises nothing, [os.error(...)] only builds an
    exception; the error is the [UnboundLocalError] of the first local
    the branch should have assigned, read by the next statement. Were
    [forward] reached with such a regime, it would raise the same way.) *)
Theorem unsupported_regime_raises nc nd_n nd_e nk_n nk_e nl_n nl_e nr_n nr_e
  ns_n ns_e ni_n ni_e graph_nodes graph_edges regime dc_n dc_e :
  regime <> "cat" -> regime <> "bin" -> regime <> "deq" ->
  MolSPNZero.MolSPNZeroCore_init nc nd_n nd_e nk_n nk_e ns_n ns_e ni_n ni_e
    graph_nodes graph_edges regime dc_n dc_e
  = inl (UnboundLocalError "num_dim_n") /\
  MolSPNZero.MolSPNZeroSort_init nc nd_n nk_n nk_e nl_n nl_e nr_n nr_e
    ns_n ns_e ni_n ni_e regime dc_n dc_e
  = inl (UnboundLocalError "num_dim_n") /\
  (forall E self x a g,
     MolSPNZero.regime (MolSPNZero.core self) = regime ->
     MolSPNZero.forward E self x a g = (inl (UnboundLocalError "_x"), g)).
Proof.
  intros H1 H2 H3.
  assert (Hcore : forall nd_e graph_nodes graph_edges,
            MolSPNZero.MolSPNZeroCore_init nc nd_n nd_e nk_n nk_e ns_n ns_e
              ni_n ni_e graph_nodes graph_edges regime dc_n dc_e
            = inl (UnboundLocalError "num_dim_n")).
  { intros. unfold MolSPNZero.MolSPNZeroCore_init.
    now rewrite regime_locals_unsupported. }
  split; [apply Hcore|]. split.
  - unfold MolSPNZero.MolSPNZeroSort_init. now rewrite Hcore.
  - intros E self x a g Hr. unfold MolSPNZero.forward. rewrite Hr.
    apply String.eqb_neq in H1, H2, H3. now rewrite H1, H2, H3.
Qed.

Lemma unsupported_regime_raises_witness :
  MolSPNZero.MolSPNZeroSort_init 1 2 4 4 1 1 1 1 1 1 1 1 "flow"
    MolSPNZero.default_dc MolSPNZero.default_dc
  = inl (UnboundLocalError "num_dim_n").
Proof.
  apply (unsupported_regime_raises 1 2 1 4 4 1 1 1 1 1 1 1 1
           (MolSPNZero.random_binary_trees 2 1 1)
           (MolSPNZero.random_binary_trees 1 1 1)
           "flow" MolSPNZero.default_dc MolSPNZero.default_dc);
    discriminate.
Defined.
End Regime.

(** ** The theorems on [forward] at a concrete batch

    One example of two positions, one atom (label 2) and one padding
    entry, scored by the small engine. *)

Lemma forward_edge_mask_from_node_mask_witness :
  let h : store := fun b => if b =? 0 then [[2; 0]%Z] else [] in
  marg_a (snd (forward (toy_engine 1 2) (toy_model 1 2) (mkRef 0 0 1)
                 [[[0; 0]; [0; 0]]%Z] (toy_state 1 2 h)))
  = Some [[false]].
Proof.
  intros h.
  destruct (forward_edge_mask_from_node_mask (toy_engine 1 2) (toy_model 1 2)
              (mkRef 0 0 1) [[[0; 0]; [0; 0]]%Z] (toy_state 1 2 h))
    as (_ & H & _).
  - repeat constructor.
  - repeat constructor; lia.
  - exact H.
Defined.

Lemma forward_is_size_prior_mixture_witness :
  let h : store := fun b => if b =? 0 then [[2; 0]%Z] else [] in
  let self := toy_model 1 2 in
  fst (logpdf (toy_engine 1 2) self (mkRef 0 0 1)
         [[[0; 0]; [0; 0]]%Z] (toy_state 1 2 h))
  = inr (Fin (mean [spec_logpdf self [2; 0]%Z [0%R] [0%R]])).
Proof.
  intros h self.
  destruct (forward_is_size_prior_mixture (toy_engine 1 2) self
              (mkRef 0 0 1) [[[0; 0]; [0; 0]]%Z] (toy_state 1 2 h))
    as [_ H].
  - intros i. now destruct i.
  - repeat constructor.
  - repeat constructor; lia.
  - constructor; [|constructor]. exists 2%Z. split; [now left|lia].
  - reflexivity.
  - reflexivity.
  - reflexivity.
  - exact H.
Defined.

Lemma logpdf_decrements_caller_tensor_witness :
  let h : store := fun b => if b =? 0 then [[2; 0]%Z] else [] in
  let E := toy_engine 1 2 in
  let self := toy_model 1 2 in
  let x := mkRef 0 0 1 in
  let a := [[[0; 0]; [0; 0]]%Z] in
  let s1 := snd (logpdf E self x a (toy_state 1 2 h)) in
  let s2 := snd (logpdf E self x a s1) in
  rows (heap s1) x = [[1; -1]%Z] /\ rows (heap s2) x = [[0; -2]%Z] /\
  rows (heap (snd (_sample E self 1 (Some x) None (toy_state 1 2 h)))) x
  = [[1; -1]%Z].
Proof.
  intros h E self x a s1 s2.
  destruct (logpdf_decrements_caller_tensor E self x a (toy_state 1 2 h))
    as (_ & H1 & H2 & _ & _ & H3).
  split; [exact H1|]. split; [exact H2|].
  apply (H3 1 None). discriminate.
Defined.

(** * Further properties *)

(** ** The mask and the codec *)

Lemma count_true_row_prefix i s n :
  length (filter (fun b : bool => b) (map (fun j => j <? i) (seq s n)))
  = Nat.min (i - s) n.
Proof.
  revert s. induction n as [|n IH]; intros s; cbn [seq map filter].
  - now rewrite Nat.min_0_r.
  - destruct (Nat.ltb_spec s i); cbn [length]; rewrite IH; lia.
Qed.

Lemma count_true_rows N k :
  k <= N -> count_true (map (tril_row N) (seq 0 k)) = tri k.
Proof.
  unfold count_true. induction k as [|k IH]; intros Hk; [reflexivity|].
  rewrite seq_S, map_app, concat_app, filter_app, length_app, IH by lia.
  cbn [Nat.add map concat tri]. rewrite app_nil_r. unfold tril_row.
  rewrite count_true_row_prefix. lia.
Qed.

(** X1: the mask [tril(ones(N, N), diagonal=-1)] is N x N, true exactly
    strictly below the diagonal, and has N(N-1)/2 true entries; it selects
    N(N-1)/2 entries of any N x N tensor. *)
Theorem tril_mask_cardinality (N : nat) :
  has_shape N N (tril_mask N) = true /\
  (forall i j, i < N -> j < N -> get false (tril_mask N) i j = (j <? i)) /\
  count_true (tril_mask N) = N * (N - 1) / 2 /\
  (forall (a : matrix Z),
     has_shape N N a = true -> length (tril_flatten N a) = N * (N - 1) / 2).
Proof.
  split; [|split; [|split]].
  - apply has_shape_spec. split; [apply length_tril_mask|].
    apply Forall_forall. intros r Hr. unfold tril_mask in Hr.
    apply in_map_iff in Hr as (i & <- & _). apply length_tril_row.
  - intros i j. apply get_tril_mask.
  - unfold tril_mask. rewrite count_true_rows by lia. apply tri_closed.
  - intros a Ha. rewrite length_tril_flatten by assumption. apply tri_closed.
Qed.

Lemma tri_decompose N k :
  k < tri N -> exists i j, j < i /\ i < N /\ k = tri i + j.
Proof.
  induction N as [|N IH]; cbn [tri]; intros Hk; [lia|].
  destruct (Nat.lt_ge_cases k (tri N)) as [Hlt|Hge].
  - destruct (IH Hlt) as (i & j & Hj & Hi & ->). exists i, j. lia.
  - exists N, (k - tri N). lia.
Qed.

(** X2: the other round trip. A vector of N(N-1)/2 edge labels rebuilt
    into an N x N tensor (any pad value) and flattened again is the same
    vector: the reconstruction of the samplers loses nothing. *)
Theorem tril_flatten_unflatten (N : nat) (pad : Z) (l : list Z) :
  length l = N * (N - 1) / 2 ->
  tril_flatten N (tril_unflatten 0%Z N pad l) = l.
Proof.
  rewrite <- tri_closed. intros Hl.
  pose proof (has_shape_tril_unflatten 0%Z N pad l) as Hs.
  apply nth_ext with (d := 0%Z) (d' := 0%Z).
  - now rewrite length_tril_flatten.
  - intros k Hk. rewrite length_tril_flatten in Hk by assumption.
    destruct (tri_decompose N k Hk) as (i & j & Hj & Hi & ->).
    rewrite nth_tril_flatten by assumption.
    rewrite get_tril_unflatten by (assumption || lia).
    now apply Nat.ltb_lt in Hj as ->.
Qed.

Lemma tril_flatten_unflatten_witness :
  tril_flatten 3 (tril_unflatten 0%Z 3 7%Z [1; 2; 3]%Z) = [1; 2; 3]%Z.
Proof. apply (tril_flatten_unflatten 3 7%Z [1; 2; 3]%Z). reflexivity. Defined.

(** ** [sample]: errors and ignored arguments *)

(** X3: node and edge evidence of different lengths make [sample] and
    [_sample] raise at once ([raise] of a string is a [TypeError]); the
    caller's evidence tensor is not decremented, nothing is drawn from the
    random source and no mask is set. *)
Theorem evidence_length_mismatch E self (n : nat) (num_samples chunk_size : Z)
  (cx : tref) (ca : list (matrix Z)) (s : state E) :
  len cx <> length ca ->
  sample E self num_samples (Some cx) (Some ca) chunk_size s
  = (inl TypeError, s) /\
  _sample E self n (Some cx) (Some ca) s = (inl TypeError, s).
Proof.
  intros Hne. apply Nat.eqb_neq in Hne. unfold sample, _sample.
  rewrite Hne. split; reflexivity.
Qed.

Lemma evidence_length_mismatch_witness :
  let h : store := fun b => if b =? 0 then [[2; 0]%Z; [1; 1]%Z] else [] in
  let s := toy_state 1 2 h in
  sample (toy_engine 1 2) (toy_model 1 2) 1 (Some (mkRef 0 0 2))
         (Some [[[0; 0]; [0; 0]]%Z]) 2000 s
  = (inl TypeError, s).
Proof.
  intros h s.
  apply (evidence_length_mismatch (toy_engine 1 2) (toy_model 1 2) 1 1 2000
           (mkRef 0 0 2) [[[0; 0]; [0; 0]]%Z] s).
  cbn. lia.
Defined.

Lemma chunk_sizes_negative (n c : Z) :
  (c < 0)%Z -> (c < n)%Z -> chunk_sizes n c = inr [].
Proof.
  intros Hc Hn. unfold chunk_sizes.
  destruct (Z.eqb_spec c 0) as [|_]; [lia|].
  pose proof (Z.mod_neg_bound n c Hc) as Hm.
  pose proof (Z.div_mod n c ltac:(lia)) as Hdm.
  assert (Hq : (n / c <= 0)%Z) by nia.
  destruct (Z.ltb_spec 0 (n mod c)); [lia|].
  replace (Z.to_nat (n / c)) with 0 by lia. reflexivity.
Qed.

(** X4: what unconditional [sample] does with a chunk size that is not
    positive, or with a negative count. With [chunk_size = 0] and a
    positive count the division raises [ZeroDivisionError]; with a negative
    [chunk_size] below the count, the list of chunks is empty and
    [torch.cat] raises; a negative count not above the chunk size makes
    [torch.zeros] raise. In all three cases no sample is drawn and the
    state is as before. *)
Theorem sample_degenerate_sizes E self (num_samples chunk_size : Z)
  (s : state E) :
  (chunk_size = 0%Z -> (0 < num_samples)%Z ->
   sample E self num_samples None None chunk_size s
   = (inl ZeroDivisionError, s)) /\
  ((chunk_size < 0)%Z -> (chunk_size < num_samples)%Z ->
   sample E self num_samples None None chunk_size s
   = (inl RuntimeError, s)) /\
  ((num_samples < 0)%Z -> (num_samples <= chunk_size)%Z ->
   sample E self num_samples None None chunk_size s
   = (inl RuntimeError, s)).
Proof.
  unfold sample. split; [|split].
  - intros -> Hn. destruct (Z.ltb_spec 0 num_samples); [|lia]. reflexivity.
  - intros Hc Hn. destruct (Z.ltb_spec chunk_size num_samples); [|lia].
    rewrite chunk_sizes_negative by assumption. reflexivity.
  - intros Hn Hc. destruct (Z.ltb_spec chunk_size num_samples); [lia|].
    unfold _sample_int. destruct (Z.ltb_spec num_samples 0); [|lia].
    reflexivity.
Qed.

Lemma sample_degenerate_sizes_witness :
  let s := toy_state 1 2 (fun _ => []) in
  sample (toy_engine 1 2) (toy_model 1 2) 5 None None 0 s
  = (inl ZeroDivisionError, s) /\
  sample (toy_engine 1 2) (toy_model 1 2) 5 None None (-2) s
  = (inl RuntimeError, s) /\
  sample (toy_engine 1 2) (toy_model 1 2) (-1) None None 2000 s
  = (inl RuntimeError, s).
Proof.
  intros s.
  destruct (sample_degenerate_sizes (toy_engine 1 2) (toy_model 1 2) 5 0 s)
    as (H0 & _ & _).
  destruct (sample_degenerate_sizes (toy_engine 1 2) (toy_model 1 2) 5 (-2) s)
    as (_ & H1 & _).
  destruct (sample_degenerate_sizes (toy_engine 1 2) (toy_model 1 2) (-1) 2000 s)
    as (_ & _ & H2).
  split; [apply H0; [reflexivity|lia]|].
  split; [apply H1; lia | apply H2; lia].
Defined.

(** ** What a call leaves untouched *)

Lemma keeps_marg_x_draw {E A} (g : G E -> A * G E) : keeps marg_x (draw g).
Proof. intros s. unfold draw. now destruct (g (rng s)). Qed.

Lemma keeps_marg_a_draw {E A} (g : G E -> A * G E) : keeps marg_a (draw g).
Proof. intros s. unfold draw. now destruct (g (rng s)). Qed.

Lemma keeps_marg_x_x_sample {E} n c x :
  keeps (E := E) marg_x (call_network_x_sample n c x).
Proof. intros s. unfold call_network_x_sample. apply keeps_marg_x_draw. Qed.

Lemma keeps_marg_x_a_sample {E} n c x :
  keeps (E := E) marg_x (call_network_a_sample n c x).
Proof. intros s. unfold call_network_a_sample. apply keeps_marg_x_draw. Qed.

Lemma keeps_marg_a_x_sample {E} n c x :
  keeps (E := E) marg_a (call_network_x_sample n c x).
Proof. intros s. unfold call_network_x_sample. apply keeps_marg_a_draw. Qed.

Lemma keeps_marg_a_a_sample {E} n c x :
  keeps (E := E) marg_a (call_network_a_sample n c x).
Proof. intros s. unfold call_network_a_sample. apply keeps_marg_a_draw. Qed.

#[export] Hint Resolve keeps_marg_x_draw keeps_marg_a_draw
  keeps_marg_x_x_sample keeps_marg_x_a_sample keeps_marg_a_x_sample
  keeps_marg_a_a_sample : frame.

Lemma keeps_mapM {E A B T} (f : state E -> T) (g : A -> M E B) (l : list A) :
  (forall v, keeps f (g v)) -> keeps f (mapM g l).
Proof.
  intros Hg. induction l as [|v l IH]; cbn [mapM]; [apply keeps_ret|].
  apply keeps_bind; [apply Hg|]. intros y.
  apply keeps_bind; [exact IH|]. intros ys. apply keeps_ret.
Qed.

Lemma keeps_unzip_cat {E T} (f : state E -> T) rs :
  keeps f (unzip_cat (E := E) rs).
Proof. unfold unzip_cat. frame. Qed.

Lemma _sample_unconditional_keeps E self n :
  keeps heap (_sample E self n None None) /\
  keeps marg_x (_sample E self n None None) /\
  keeps marg_a (_sample E self n None None).
Proof. unfold _sample. repeat split; frame. Qed.

Lemma _sample_int_keeps E self k :
  keeps heap (_sample_int E self k) /\
  keeps marg_x (_sample_int E self k) /\
  keeps marg_a (_sample_int E self k).
Proof.
  unfold _sample_int. destruct (k <? 0)%Z.
  - repeat split; apply keeps_raise.
  - apply _sample_unconditional_keeps.
Qed.

Lemma sample_unconditional_keeps E self n c :
  keeps heap (sample E self n None None c) /\
  keeps marg_x (sample E self n None None c) /\
  keeps marg_a (sample E self n None None c).
Proof.
  unfold sample. destruct (c <? n)%Z.
  - repeat split;
      (apply keeps_bind; [apply keeps_lift|]; intros chunks;
       apply keeps_bind; [|intros rs; apply keeps_unzip_cat];
       apply keeps_mapM; intros k; apply _sample_int_keeps).
  - apply _sample_int_keeps.
Qed.

Lemma _sample_int_keeps_fill E self k : keeps fill_n (_sample_int E self k).
Proof.
  unfold _sample_int. destruct (k <? 0)%Z; [apply keeps_raise|].
  unfold _sample. frame.
Qed.

Lemma sample_unconditional_keeps_fill E self n c :
  keeps fill_n (sample E self n None None c).
Proof.
  unfold sample. destruct (c <? n)%Z.
  - apply keeps_bind; [apply keeps_lift|]. intros chunks.
    apply keeps_bind; [|intros rs; apply keeps_unzip_cat].
    apply keeps_mapM. intros k. apply _sample_int_keeps_fill.
  - apply _sample_int_keeps_fill.
Qed.

(** X5: [sample] uses evidence only when both node and edge evidence are
    given. With one of them missing the call is the unconditional one:
    the evidence given is ignored, the caller's tensors are left as they
    are (no decrement), the marginalisation masks of the two networks
    are not set (the circuit samplers run under the masks the last call
    left) and the parameter [logits_n] is not written to. Only the random
    source changes. *)
Theorem sample_without_both_evidence E self (num_samples chunk_size : Z)
  (cond_x : option tref) (cond_a : option (list (matrix Z))) (s : state E) :
  cond_x = None \/ cond_a = None ->
  let r := sample E self num_samples cond_x cond_a chunk_size s in
  r = sample E self num_samples None None chunk_size s /\
  heap (snd r) = heap s /\
  marg_x (snd r) = marg_x s /\
  marg_a (snd r) = marg_a s /\
  fill_n (snd r) = fill_n s.
Proof.
  intros Hnone r.
  assert (Hr : r = sample E self num_samples None None chunk_size s).
  { unfold r. destruct Hnone as [-> | ->]; [reflexivity|].
    now destruct cond_x. }
  split; [exact Hr|]. rewrite Hr.
  destruct (sample_unconditional_keeps E self num_samples chunk_size)
    as (Hh & Hx & Ha).
  split; [apply Hh|]. split; [apply Hx|]. split; [apply Ha|].
  apply sample_unconditional_keeps_fill.
Qed.

Lemma sample_without_both_evidence_witness :
  let h : store := fun b => if b =? 0 then [[2; 0]%Z] else [] in
  let s := toy_state 1 2 h in
  let r := sample (toy_engine 1 2) (toy_model 1 2) 1
                  (Some (mkRef 0 0 1)) None 2000 s in
  fst r = inr ([[2; 0]%Z], [[[0; 0]; [0; 0]]%Z]) /\
  heap (snd r) = h.
Proof.
  intros h s r. split; [reflexivity|].
  destruct (sample_without_both_evidence (toy_engine 1 2) (toy_model 1 2)
              1 2000 (Some (mkRef 0 0 1)) None s (or_intror eq_refl))
    as (_ & H & _).
  exact H.
Defined.

Lemma store_isub_other (h : store) x k b :
  b <> base x -> store_isub h x k b = h b.
Proof.
  intros Hb. unfold store_isub. now apply Nat.eqb_neq in Hb as ->.
Qed.

Lemma length_store_isub (h : store) x k b :
  length (store_isub h x k b) = length (h b).
Proof.
  unfold store_isub. destruct (b =? base x); [|reflexivity].
  rewrite !length_app, length_map, !length_firstn, !length_skipn. lia.
Qed.

Lemma forward_keeps_rng E self x a : keeps rng (forward E self x a).
Proof. unfold forward. frame. Qed.

(** X6: scoring draws nothing from the random source, and writes to the
    caller's node tensor only: after [forward] or [logpdf], whether they
    return or raise, the random source is as before, every other stored
    tensor is as before, the tensor of [x] has as many rows as before, and
    the parameter [logits_n] is as before. *)
Theorem forward_frame E self x a (s : state E) :
  let s1 := snd (forward E self x a s) in
  let s2 := snd (logpdf E self x a s) in
  rng s1 = rng s /\ rng s2 = rng s /\
  (forall b, b <> base x -> heap s1 b = heap s b /\ heap s2 b = heap s b) /\
  length (heap s1 (base x)) = length (heap s (base x)) /\
  fill_n s1 = fill_n s /\ fill_n s2 = fill_n s.
Proof.
  intros s1 s2.
  assert (H2 : s2 = s1).
  { unfold s2, s1, logpdf, bind.
    now destruct (forward E self x a s) as [[e|v] s']. }
  assert (Hh : heap s1 = store_isub (heap s) x 1) by apply forward_heap.
  rewrite H2. split; [apply forward_keeps_rng|].
  split; [apply forward_keeps_rng|]. rewrite Hh. split.
  - intros b Hb. split; now apply store_isub_other.
  - split; [apply length_store_isub|].
    split; apply forward_fill.
Qed.

(** ** [forward]: how it fails *)

Lemma mapE_inl {A B} (f : A -> result B) (e : exn) (l : list A) :
  (forall v e', f v = inl e' -> e' = e) ->
  Exists (fun v => f v = inl e) l -> mapE f l = inl e.
Proof.
  intros Honly. induction 1 as [v l Hv|v l _ IH]; cbn [mapE].
  - now rewrite Hv.
  - destruct (f v) as [e'|y] eqn:Hf; cbn [bindE].
    + now rewrite (Honly v e' Hf).
    + now rewrite IH.
Qed.

Lemma Categorical_log_prob_only_ValueError l n e :
  Categorical_log_prob l n = inl e -> e = ValueError.
Proof.
  unfold Categorical_log_prob. destruct (_ && _); [discriminate|].
  now intros [= <-].
Qed.

Lemma count_non_padding_all_padding (r : list Z) :
  Forall (fun v => v = 0%Z) r -> count_non_padding r = 0%Z.
Proof.
  unfold count_non_padding. induction 1 as [|v r -> _ IH]; [reflexivity|].
  cbn [filter present]. cbn. exact IH.
Qed.

(** X7: the two ways [forward] of the size-prior variant fails on its own,
    both after [x -= 1] has been written to the caller's tensor. A row of
    [x] whose length is not [nd_x] makes the mask indexing raise
    [IndexError], before any mask is set. A batch of well-shaped rows with
    an example that is all padding has a count n = -1 outside the support
    of the node-count distribution: [log_prob] raises [ValueError], after
    the two marginalisation masks have been set (when every entry of
    [logits_n] has been overwritten, the [ValueError] is that of the
    construction of the distribution, one statement earlier). *)
Theorem forward_failure_modes E self x a (s : state E) :
  let xv := rows (heap s) x in
  (~ rows_of_width (nd_x self) xv ->
   forward E self x a s
   = (inl IndexError,
      mkState (store_isub (heap s) x 1) (rng s) (marg_x s) (marg_a s)
              (fill_n s))) /\
  (rows_of_width (nd_x self) xv ->
   Forall (Forall (fun v => 0 <= v)%Z) xv ->
   Exists (Forall (fun v => v = 0%Z)) xv ->
   forward E self x a s
   = (inl ValueError,
      mkState (store_isub (heap s) x 1) (rng s)
              (Some (map (map present) xv))
              (Some (edge_mask self (map (map present) xv)))
              (fill_n s))).
Proof.
  intros xv. split.
  - intros Hw.
    assert (Hf : forallb (fun r => length r =? nd_x self) (decrement xv)
                 = false).
    { destruct (forallb _ _) eqn:Hb; [|reflexivity]. exfalso. apply Hw.
      rewrite forallb_forall in Hb. apply Forall_forall. intros r Hr.
      specialize (Hb (map (fun v => (v - 1)%Z) r)
                     (in_map _ _ _ Hr)).
      apply Nat.eqb_eq in Hb. now rewrite length_map in Hb. }
    unfold forward, bind, isub, read, guard, raise.
    cbn [heap rng marg_x marg_a fill_n]. rewrite rows_store_isub.
    fold (decrement (rows (heap s) x)). fold xv. now rewrite Hf.
  - intros Hw Hpos Hpad.
    unfold forward, bind, isub, read, guard, set_marginalization_mask_x,
      set_marginalization_mask_a, read_logits_n, lift, ret, raise.
    cbn [heap rng marg_x marg_a fill_n]. rewrite rows_store_isub.
    fold (decrement (rows (heap s) x)). fold xv.
    rewrite forallb_width by now apply rows_of_width_decrement.
    cbn [heap rng marg_x marg_a fill_n].
    rewrite (gt_m1_decrement xv Hpos).
    destruct (Categorical_valid _); [|reflexivity].
    rewrite (mapE_inl _ ValueError);
      [reflexivity | apply Categorical_log_prob_only_ValueError |].
    rewrite !Exists_map. eapply Exists_impl; [|exact Hpad].
    intros r Hr. cbn beta. rewrite sum_bool_count.
    rewrite (count_non_padding_all_padding r Hr). reflexivity.
Qed.

Lemma forward_failure_modes_witness :
  let E := toy_engine 1 2 in
  let self := toy_model 1 2 in
  let a := [[[0; 0]; [0; 0]]%Z] in
  let h1 : store := fun b => if b =? 0 then [[2; 0; 0]%Z] else [] in
  let h2 : store := fun b => if b =? 0 then [[0; 0]%Z] else [] in
  fst (forward E self (mkRef 0 0 1) a (toy_state 1 2 h1)) = inl IndexError /\
  fst (forward E self (mkRef 0 0 1) a (toy_state 1 2 h2)) = inl ValueError.
Proof.
  intros E self a h1 h2. split.
  - destruct (forward_failure_modes E self (mkRef 0 0 1) a (toy_state 1 2 h1))
      as [H _].
    rewrite H; [reflexivity|].
    intros Hw. inversion Hw as [|r l Hr _]. discriminate Hr.
  - destruct (forward_failure_modes E self (mkRef 0 0 1) a (toy_state 1 2 h2))
      as [_ H].
    rewrite H; [reflexivity | | |].
    + repeat constructor.
    + repeat constructor; lia.
    + constructor. repeat constructor.
Defined.

(** ** Redundancy of the logits *)

Lemma logsumexp_shift (l : list R) (c : R) :
  l <> [] -> logsumexp (map (fun v => (v + c)%R) l) = (logsumexp l + c)%R.
Proof.
  intros Hl. unfold logsumexp. rewrite Rsum_exp_shift.
  rewrite ln_mult by (apply exp_pos || now apply Rsum_exp_pos).
  rewrite ln_exp. lra.
Qed.

Lemma log_softmax_shift (l : list R) (c : R) :
  log_softmax (map (fun v => (v + c)%R) l) = log_softmax l.
Proof.
  destruct l as [|v0 l]; [reflexivity|].
  unfold log_softmax. rewrite logsumexp_shift by discriminate.
  rewrite map_map. apply map_ext. intros v. lra.
Qed.

Lemma in_finite_part (l : list logit) (r : R) :
  In (Fin r) l -> In r (finite_part l).
Proof.
  intros H. unfold finite_part. apply in_flat_map.
  exists (Fin r). split; [assumption | now left].
Qed.

Lemma finite_part_shift (l : list logit) (c : R) :
  finite_part (map (shift_logit c) l)
  = map (fun v => (v + c)%R) (finite_part l).
Proof.
  unfold finite_part. induction l as [|v l IH]; [reflexivity|].
  cbn [map flat_map]. rewrite IH, map_app. now destruct v.
Qed.

Lemma normalize_logits_shift (l : list logit) (c : R) :
  normalize_logits (map (shift_logit c) l) = normalize_logits l.
Proof.
  unfold normalize_logits. rewrite map_map. apply map_ext_in.
  intros v Hv. destruct v as [|r]; cbn [shift_logit]; [reflexivity|].
  rewrite finite_part_shift, logsumexp_shift.
  - f_equal. lra.
  - intros Hnil. apply in_finite_part in Hv. rewrite Hnil in Hv.
    destruct Hv.
Qed.

Lemma Categorical_valid_shift (l : list logit) (c : R) :
  Categorical_valid (map (shift_logit c) l) = Categorical_valid l.
Proof.
  assert (H : forall q : list logit,
            existsb is_fin (map (shift_logit c) q) = existsb is_fin q).
  { induction q as [|w q IH]; [reflexivity|].
    cbn [map existsb]. rewrite IH. now destruct w. }
  destruct l as [|v l]; [reflexivity|]. unfold Categorical_valid.
  cbn [map]. apply (H (v :: l)).
Qed.

Lemma Categorical_log_prob_shift (l : list logit) (c : R) (n : Z) :
  Categorical_log_prob (map (shift_logit c) l) n
  = Categorical_log_prob l n.
Proof.
  unfold Categorical_log_prob.
  now rewrite length_map, normalize_logits_shift.
Qed.

Lemma logits_n_now_shift self (cn cw : R) fill :
  logits_n_now (shift_logits self cn cw) fill
  = map (shift_logit cn) (logits_n_now self fill).
Proof.
  unfold logits_n_now, nd_x, shift_logits. cbn [logits_n].
  rewrite length_map, map_map. apply map_ext_in. intros i Hi.
  apply in_seq in Hi. destruct (nth i fill false); [reflexivity|].
  cbn [shift_logit]. f_equal.
  now rewrite nth_map_default with (d := 0%R) by lia.
Qed.

Lemma mapE_ext {A B} (f g : A -> result B) (l : list A) :
  (forall v, f v = g v) -> mapE f l = mapE g l.
Proof.
  intros H. induction l as [|v l IH]; [reflexivity|].
  cbn [mapE]. now rewrite H, IH.
Qed.

(** The mixture weights sum to one. *)
Lemma exp_log_softmax_sum (l : list R) :
  l <> [] -> Rsum (map exp (log_softmax l)) = 1%R.
Proof.
  intros Hl. unfold log_softmax.
  replace (map (fun v => (v - logsumexp l)%R) l)
    with (map (fun v => (v + - logsumexp l)%R) l)
    by (apply map_ext; intros; lra).
  rewrite Rsum_exp_shift. unfold logsumexp.
  pose proof (Rsum_exp_pos l Hl) as Hpos.
  rewrite exp_Ropp, exp_ln by assumption. field. lra.
Qed.

(** X8: the log-density depends on the logits only through their
    normalisation. Adding a constant to every node-count logit and another
    to every mixture logit changes nothing of what [forward] and [logpdf]
    do; and the weights [exp(log_softmax(logits_w))] of the mixture, like
    the probabilities of the node-count distribution, sum to one. *)
Theorem logpdf_invariant_under_logit_shift E self (cn cw : R) x a
  (s : state E) :
  forward E (shift_logits self cn cw) x a s = forward E self x a s /\
  logpdf E (shift_logits self cn cw) x a s = logpdf E self x a s /\
  (logits_w self <> [] ->
   Rsum (map exp (log_softmax (logits_w self))) = 1%R) /\
  (logits_n self <> [] ->
   Rsum (map exp (log_softmax (logits_n self))) = 1%R).
Proof.
  assert (Hf : forward E (shift_logits self cn cw) x a s
               = forward E self x a s).
  { assert (Hnd : nd_x (shift_logits self cn cw) = nd_x self)
      by apply length_map.
    assert (Hnc : nc (shift_logits self cn cw) = nc self)
      by apply length_map.
    assert (Hw : log_softmax (logits_w (shift_logits self cn cw))
                 = log_softmax (logits_w self))
      by apply log_softmax_shift.
    unfold forward, edge_mask. rewrite Hw, !Hnd, !Hnc.
    unfold bind, isub, read, guard, set_marginalization_mask_x,
      set_marginalization_mask_a, call_network_x, call_network_a,
      read_logits_n, lift, ret, raise.
    cbn [heap rng marg_x marg_a fill_n].
    destruct (forallb _ _); [|reflexivity].
    cbn [heap rng marg_x marg_a fill_n].
    rewrite logits_n_now_shift, Categorical_valid_shift.
    rewrite (mapE_ext _ (Categorical_log_prob
                           (logits_n_now self (fill_n s))))
      by (intros; apply Categorical_log_prob_shift).
    reflexivity. }
  split; [exact Hf|]. split.
  - unfold logpdf, bind. now rewrite Hf.
  - split; apply exp_log_softmax_sum.
Qed.

Lemma logpdf_invariant_under_logit_shift_witness :
  let self := toy_model 2 2 in
  Rsum (map exp (log_softmax (logits_w self))) = 1%R /\
  Rsum (map exp (log_softmax (logits_n self))) = 1%R.
Proof.
  intros self.
  destruct (logpdf_invariant_under_logit_shift (toy_engine 2 2) self 1 1
              (mkRef 0 0 0) [] (toy_state 2 2 (fun _ => [])))
    as (_ & _ & Hw & Hn).
  split; [apply Hw | apply Hn]; discriminate.
Defined.

(** ** The plain variant: construction and scoring *)

Section PlainModel.
Import String.StringSyntax.
Local Open Scope string_scope.

Lemma consistent_sizes_intro nc nd_n c :
  MolSPNZero.nd_nodes c = nd_n ->
  MolSPNZero.nd_edges c = nd_n * (nd_n - 1) / 2 ->
  MolSPNZero.num_var (MolSPNZero.args (MolSPNZero.network_nodes c)) = nd_n ->
  MolSPNZero.num_var (MolSPNZero.args (MolSPNZero.network_edges c))
  = nd_n * (nd_n - 1) / 2 ->
  MolSPNZero.num_classes (MolSPNZero.args (MolSPNZero.network_nodes c)) = nc ->
  MolSPNZero.num_classes (MolSPNZero.args (MolSPNZero.network_edges c)) = nc ->
  consistent_sizes nc nd_n
    (MolSPNZero.mkSort c (repeat 1%R nc) (tril_mask (MolSPNZero.nd_nodes c))).
Proof.
  intros H1 H2 H3 H4 H5 H6. unfold consistent_sizes.
  cbn [MolSPNZero.core MolSPNZero.m MolSPNZero.logits_w].
  rewrite H1, H2, H3, H4, H5, H6, repeat_length.
  repeat split; try reflexivity.
  unfold tril_mask. rewrite count_true_rows by lia. apply tri_closed.
Qed.

(** X9: the code of [MolSPNZeroSort.__init__] fails on its own exactly when
    the regime is none of 'cat', 'bin' and 'deq' (the constructors of the
    engine are external and taken to return). The model it builds has
    sizes that agree: the mask is the N x N strictly-lower-triangular one,
    the edge network has as many variables as the mask has true entries,
    N(N-1)/2, both networks have [nc] classes and there are [nc] mixture
    logits; the leaf family is categorical with K = nk, binomial with
    N = nk - 1, or normal with [nk] dimensions, and the noise coefficients
    are set in the 'deq' regime only. *)
Theorem MolSPNZeroSort_init_succeeds nc nd_n nk_n nk_e nl_n nl_e nr_n nr_e
  ns_n ns_e ni_n ni_e regime dc_n dc_e :
  let init :=
    MolSPNZero.MolSPNZeroSort_init nc nd_n nk_n nk_e nl_n nl_e nr_n nr_e
      ns_n ns_e ni_n ni_e regime dc_n dc_e in
  ((exists self, init = inr self)
   <-> regime = "cat" \/ regime = "bin" \/ regime = "deq") /\
  (forall self, init = inr self ->
     let c := MolSPNZero.core self in
     let args_n := MolSPNZero.args (MolSPNZero.network_nodes c) in
     let args_e := MolSPNZero.args (MolSPNZero.network_edges c) in
     consistent_sizes nc nd_n self /\
     MolSPNZero.regime c = regime /\
     (regime = "cat" ->
      MolSPNZero.exponential_family_ args_n = MolSPNZero.CategoricalArray /\
      MolSPNZero.exponential_family_args args_n = MolSPNZero.args_K nk_n /\
      MolSPNZero.exponential_family_args args_e = MolSPNZero.args_K nk_e /\
      MolSPNZero.num_dims args_n = 1%Z /\ MolSPNZero.dc_n c = None) /\
     (regime = "bin" ->
      MolSPNZero.exponential_family_ args_n = MolSPNZero.BinomialArray /\
      MolSPNZero.exponential_family_args args_n
      = MolSPNZero.args_N (nk_n - 1) /\
      MolSPNZero.exponential_family_args args_e
      = MolSPNZero.args_N (nk_e - 1) /\
      MolSPNZero.num_dims args_n = 1%Z /\ MolSPNZero.dc_n c = None) /\
     (regime = "deq" ->
      MolSPNZero.exponential_family_ args_n = MolSPNZero.NormalArray /\
      MolSPNZero.num_dims args_n = nk_n /\
      MolSPNZero.num_dims args_e = nk_e /\
      MolSPNZero.dc_n c = Some dc_n /\ MolSPNZero.dc_e c = Some dc_e)).
Proof.
  intros init.
  assert (Hcases : regime = "cat" \/ regime = "bin" \/ regime = "deq" \/
                   (regime <> "cat" /\ regime <> "bin" /\ regime <> "deq")).
  { destruct (String.string_dec regime "cat"); [now left|].
    destruct (String.string_dec regime "bin"); [now right; left|].
    destruct (String.string_dec regime "deq"); [now right; right; left|].
    now right; right; right. }
  assert (Hbad : regime <> "cat" -> regime <> "bin" -> regime <> "deq" ->
                 forall self, init <> inr self).
  { intros H1 H2 H3 self. unfold init, MolSPNZero.MolSPNZeroSort_init,
      MolSPNZero.MolSPNZeroCore_init.
    rewrite regime_locals_unsupported by assumption. discriminate. }
  split.
  - split.
    + intros [self Hself].
      destruct Hcases as [H|[H|[H|(H1 & H2 & H3)]]]; auto.
      exfalso. exact (Hbad H1 H2 H3 self Hself).
    + intros [Hr | [Hr | Hr]]; subst regime; eexists; reflexivity.
  - intros self Hself c args_n args_e.
    destruct Hcases as [H|[H|[H|(H1 & H2 & H3)]]];
      [| | |exfalso; exact (Hbad H1 H2 H3 self Hself)];
      subst regime; unfold init in Hself; cbn in Hself;
      injection Hself as <-;
      (split; [now apply consistent_sizes_intro|]);
      (split; [reflexivity|]);
      repeat split; first [reflexivity | discriminate].
Qed.

Lemma MolSPNZeroSort_init_succeeds_witness :
  exists self,
    MolSPNZero.MolSPNZeroSort_init 3 4 5 4 1 1 1 1 1 1 1 1 "bin"
      MolSPNZero.default_dc MolSPNZero.default_dc = inr self /\
    consistent_sizes 3 4 self /\
    MolSPNZero.nd_edges (MolSPNZero.core self) = 6.
Proof.
  destruct (MolSPNZeroSort_init_succeeds 3 4 5 4 1 1 1 1 1 1 1 1 "bin"
              MolSPNZero.default_dc MolSPNZero.default_dc) as [[_ Hex] Hinv].
  destruct (Hex (or_intror (or_introl eq_refl))) as [self Hself].
  exists self. split; [exact Hself|].
  destruct (Hinv self Hself) as ((H1 & H2 & H3) & _).
  split; [exact (conj H1 (conj H2 H3))|]. exact H2.
Defined.
End PlainModel.

Section PlainScoring.
Import String.StringSyntax.
Local Open Scope string_scope.

(** X10: in the 'cat' and 'bin' regimes [forward] of the plain variant
    hands the labels to the two networks as they are (the edges flattened
    at the mask), draws nothing from the random source, and returns for
    every example logsumexp_c (score_node[c] + score_edge[c]
    + logsoftmax(w)[c]); [logpdf] returns the mean over the batch. Edge
    tensors that are not N x N raise [IndexError]. *)
Theorem plain_forward_is_mixture E self x a g :
  let c := MolSPNZero.core self in
  let N := MolSPNZero.nd_nodes c in
  let w := MolSPNZero.logits_w self in
  let score_node :=
    MolSPNZero.network E (MolSPNZero.network_nodes c) (MolSPNZero.IntBatch x) in
  let score_edge :=
    MolSPNZero.network E (MolSPNZero.network_edges c)
      (MolSPNZero.IntBatch
         (map (fun a => masked_select a (MolSPNZero.m self)) a)) in
  let density :=
    map (fun b => spec_plain_logpdf w (nth b score_node [])
                    (nth b score_edge []))
        (seq 0 (length score_node)) in
  MolSPNZero.regime c = "cat" \/ MolSPNZero.regime c = "bin" ->
  (forallb (has_shape N N) a = false ->
   MolSPNZero.forward E self x a g = (inl IndexError, g)) /\
  (forallb (has_shape N N) a = true ->
   rows_of_width (length w) score_node ->
   has_shape (length score_node) (length w) score_edge = true ->
   MolSPNZero.forward E self x a g = (inr density, g) /\
   MolSPNZero.logpdf E self x a g = (inr (mean density), g)).
Proof.
  intros c N w score_node score_edge density Hregime.
  assert (Hb : String.eqb (MolSPNZero.regime c) "cat"
               || String.eqb (MolSPNZero.regime c) "bin" = true).
  { destruct Hregime as [-> | ->]; reflexivity. }
  assert (Hfwd : MolSPNZero.forward E self x a g
                 = MolSPNZero._forward E self (Some (MolSPNZero.Cat x a)) g).
  { unfold MolSPNZero.forward. fold c. now rewrite Hb, bind_ret_l. }
  split.
  - intros Ha. rewrite Hfwd. unfold MolSPNZero._forward. fold c.
    rewrite Hb. fold N. unfold bind, guard, raise. now rewrite Ha.
  - intros Ha Hsn Hse.
    assert (Hf : MolSPNZero.forward E self x a g = (inr density, g)).
    { rewrite Hfwd. unfold MolSPNZero._forward. fold c. rewrite Hb. fold N.
      assert (He : (guard (forallb (has_shape N N) a) IndexError ;;;
                    ret score_edge) g = (inr score_edge, g))
        by (rewrite bind_guard_true by exact Ha; reflexivity).
      unfold score_edge in He at 1. rewrite (bind_inr _ _ _ _ _ He).
      fold score_node w.
      assert (Hsn' : has_shape (length score_node) (length w) score_node
                     = true) by (apply has_shape_spec; now split).
      rewrite bind_guard_true by now rewrite Hsn', Hse.
      unfold ret. f_equal. f_equal. unfold density.
      pose proof (has_shape_length _ _ _ Hse) as Hle.
      apply nth_ext with (d := 0%R) (d' := 0%R).
      - rewrite !length_map, length_seq. unfold add_logs.
        rewrite length_zip_with. lia.
      - intros b Hb'. rewrite length_map in Hb'. unfold add_logs in *.
        rewrite length_zip_with in Hb'.
        assert (Hbn : b < length score_node) by lia.
        rewrite nth_map_default with (d := [])
          by (rewrite length_zip_with; lia).
        rewrite nth_map_seq by assumption. cbn [Nat.add].
        unfold spec_plain_logpdf. f_equal.
        rewrite nth_zip_with with (d1 := []) (d2 := []) by lia.
        apply add_logs_row.
        + now apply has_shape_nth with (B := length score_node).
        + now apply has_shape_nth with (B := length score_node).
        + apply length_log_softmax. }
    split; [exact Hf|].
    unfold MolSPNZero.logpdf. now rewrite (bind_inr _ _ _ _ _ Hf).
Qed.

Lemma plain_forward_is_mixture_witness :
  exists self,
    MolSPNZero.MolSPNZeroSort_init 2 2 4 4 1 1 1 1 1 1 1 1 "cat"
      MolSPNZero.default_dc MolSPNZero.default_dc = inr self /\
    fst (MolSPNZero.forward toy_zero_scorer self [[1; 0]%Z]
           [[[3; 1]; [1; 3]]%Z] tt)
    = inr [spec_plain_logpdf [1%R; 1%R] [0%R; 0%R] [0%R; 0%R]].
Proof.
  eexists. split; [reflexivity|].
  match goal with
  | |- fst (MolSPNZero.forward ?E ?self ?x ?a tt) = _ =>
      destruct (plain_forward_is_mixture E self x a tt
                  (or_introl eq_refl)) as [_ H]
  end.
  destruct H as [H _].
  - reflexivity.
  - repeat constructor.
  - reflexivity.
  - rewrite H. reflexivity.
Defined.
End PlainScoring.

(** ** Conditional sampling: the evidence in the result *)

(** What a call of [_sample] that returns has asked of the engine. *)
Lemma _sample_inv_engine E self n cond_x cond_a s xs as_ s' :
  _sample E self n cond_x cond_a s = (inr (xs, as_), s') ->
  let B := resolved_size n cond_x cond_a in
  let ev := node_evidence s cond_x in
  let mask_x := node_evidence_mask self B ev in
  let mask_a := edge_evidence_mask self B cond_a in
  let samp_n := sampled_sizes E self (fill_n s) B ev (rng s) in
  exists mkx mka c gx ga,
    let x := fst (network_x_sample E mkx B c ev gx) in
    let l := fst (network_a_sample E mka B c
                    (option_map (map (tril_flatten (nd_x self))) cond_a) ga) in
    has_shape B (nd_x self) x = true /\
    has_shape B (nd_a self) l = true /\
    (forall ca, cond_a = Some ca ->
       forallb (has_shape (nd_x self) (nd_x self)) ca = true /\
       length ca = B) /\
    xs = map (map (fun v => (v + 1)%Z))
             (zip_with (fill_not (-1)) x
                       (mask_add mask_x (size_mask self samp_n))) /\
    as_ = map (tril_unflatten 0%Z (nd_x self) 0%Z)
              (zip_with (fill_not 0) l
                 (mask_add mask_a (edge_mask self (size_mask self samp_n)))).
Proof.
  intros H. unfold _sample in H. unfold bind at 1 in H.
  destruct cond_x as [cx|], cond_a as [ca|]; cbn zeta;
    try (destruct (len cx =? length ca) eqn:Hlen; [|discriminate H]);
    unfold ret at 1 in H; minv H;
    cbn [heap rng marg_x marg_a fill_n] in *; rewrite ?rows_store_isub in *;
    match goal with
    | Hr : (xs, as_) = _ |- _ => inversion Hr; clear Hr
    end;
    match goal with
    | Hg : (length _ =? _) && (length _ =? _) = true |- _ =>
        apply andb_prop in Hg; destruct Hg as [Hn Hma];
        apply Nat.eqb_eq in Hn, Hma
    end;
    do 5 eexists; cbv zeta;
    (split; [eassumption|]); (split; [eassumption|]);
    (split; [first [ intros ca' Hca; discriminate Hca
                   | intros ca' Hca; injection Hca as <-;
                     split; [assumption | now rewrite length_map in Hma] ]|]);
    split; reflexivity.
Qed.

Lemma has_shape_map_map_inv {A B} (f : A -> B) n k (t : matrix A) :
  has_shape n k (map (map f) t) = true -> has_shape n k t = true.
Proof.
  intros H. apply has_shape_spec in H as [Hl Hw]. apply has_shape_spec.
  rewrite length_map in Hl. split; [assumption|].
  unfold rows_of_width in *. apply Forall_map in Hw.
  eapply Forall_impl; [|exact Hw]. intros r Hr. cbn in Hr.
  now rewrite length_map in Hr.
Qed.

Lemma get_map_map {A B} (f : A -> B) (d : A) (d' : B) N (a : matrix A) i j :
  has_shape N N a = true -> i < N -> j < N ->
  get d' (map (map f) a) i j = f (get d a i j).
Proof.
  intros Ha Hi Hj. unfold get.
  pose proof (has_shape_length _ _ _ Ha) as Hl.
  pose proof (has_shape_nth _ _ _ _ Ha Hi) as Hr.
  rewrite nth_map_default with (d := []) by lia.
  now rewrite nth_map_default with (d := d) by lia.
Qed.

(** X11: conditional sampling keeps the evidence, given circuit samplers
    that copy evidence through. In every example [_sample] returns, a node
    position whose evidence is a label (above the sentinel 0 of the
    caller's encoding) holds that label, whatever size was sampled; and
    for every pair i > j whose evidence [cond_a[i][j]] is a label (above
    -1), both [a[i][j]] and [a[j][i]] hold it. Edge evidence is read from
    below the diagonal only: [cond_a[j][i]] plays no part. *)
Theorem conditional_sample_keeps_evidence E self n cond_x cond_a s
  xs as_ s' :
  copies_evidence (network_x_sample E) ->
  copies_evidence (network_a_sample E) ->
  _sample E self n cond_x cond_a s = (inr (xs, as_), s') ->
  let B := resolved_size n cond_x cond_a in
  (forall cx, cond_x = Some cx ->
     let xv := rows (heap s) cx in
     forall b i, b < B -> i < nd_x self ->
       (0 < nth i (nth b xv []) 0)%Z ->
       nth i (nth b xs []) 0%Z = nth i (nth b xv []) 0%Z) /\
  (forall ca, cond_a = Some ca ->
     forall b i j, b < B -> i < nd_x self -> j < i ->
       (-1 < get 0%Z (nth b ca []) i j)%Z ->
       get 0%Z (nth b as_ []) i j = get 0%Z (nth b ca []) i j /\
       get 0%Z (nth b as_ []) j i = get 0%Z (nth b ca []) i j).
Proof.
  intros Hcx Hcax H B.
  destruct (_sample_inv E self n cond_x cond_a s xs as_ s' H)
    as (x0 & l0 & Hmx & Hma & Hn & _ & _ & _ & _).
  destruct (_sample_inv_engine E self n cond_x cond_a s xs as_ s' H)
    as (mkx & mka & c & gx & ga & Hx & Hl & Hca & Hxs & Has).
  fold B in Hmx, Hma, Hn, Hx, Hl, Hca, Hxs, Has. cbv zeta in Hx, Hl, Hxs, Has.
  set (samp_n := sampled_sizes E self (fill_n s) B (node_evidence s cond_x)
                  (rng s)) in *.
  set (mask_x := node_evidence_mask self B (node_evidence s cond_x)) in *.
  set (mask_a := edge_evidence_mask self B cond_a) in *.
  assert (Hsz : has_shape B (nd_x self) (size_mask self samp_n) = true)
    by (rewrite <- Hn; apply has_shape_size_mask).
  pose proof (has_shape_mask_add _ _ _ _ Hmx Hsz) as Hxx.
  pose proof (has_shape_edge_mask _ _ _ Hsz) as Hem.
  pose proof (has_shape_mask_add _ _ _ _ Hma Hem) as Haa.
  unfold nd_a in Hl, Haa, Hma, Hem. rewrite <- tri_nd_a in Hl, Haa, Hma, Hem.
  split.
  - intros cx -> xv b i Hb Hi Hpos.
    cbn [node_evidence option_map] in *. fold xv in Hx, Hxs, mask_x.
    rewrite Hxs, (nth_sampled_nodes _ _ _ _ _ _ Hx Hxx Hb Hi).
    rewrite (nth_mask_add _ _ _ _ _ _ Hmx Hsz Hb Hi).
    unfold mask_x in Hmx. cbn [node_evidence_mask] in Hmx.
    apply has_shape_map_map_inv in Hmx.
    pose proof (has_shape_length _ _ _ Hmx) as Hlen.
    pose proof (has_shape_nth _ _ _ _ Hmx Hb) as Hrow.
    assert (Hev : nth i (nth b (decrement xv) []) 0%Z
                  = (nth i (nth b xv []) 0 - 1)%Z).
    { unfold decrement in *. rewrite length_map in Hlen.
      rewrite nth_map_default with (d := []) by lia.
      rewrite nth_map_default with (d := [])  in Hrow by lia.
      rewrite length_map in Hrow.
      now rewrite nth_map_default with (d := 0%Z) by lia. }
    assert (Hgt : gt_m1 (nth i (nth b (decrement xv) []) 0%Z) = true)
      by (rewrite Hev; unfold gt_m1; apply Z.ltb_lt; lia).
    unfold mask_x. cbn [node_evidence_mask].
    rewrite nth_map_default with (d := []) by lia.
    rewrite nth_map_default with (d := 0%Z) by lia.
    rewrite Hgt. cbn [orb].
    rewrite Hcx by (assumption || lia). rewrite Hev. lia.
  - intros ca -> b i j Hb Hi Hj Hpos.
    destruct (Hca ca eq_refl) as [Hshape Hlc].
    cbn [option_map] in *.
    assert (Hab : has_shape (nd_x self) (nd_x self) (nth b ca []) = true).
    { rewrite forallb_forall in Hshape. apply Hshape, nth_In. lia. }
    assert (Hk : tri i + j < tri (nd_x self)) by now apply tri_lt.
    rewrite Has.
    destruct (nth_sampled_edges _ _ _ _ _ Hl Haa Hb) as [-> Hlen].
    rewrite !get_tril_unflatten by (assumption || lia).
    assert (Hji : (j <? i) = true) by (apply Nat.ltb_lt; lia).
    assert (Hij : (i <? j) = false) by (apply Nat.ltb_ge; lia).
    rewrite Hji, Hij.
    rewrite nth_fill_not
      by (rewrite ?(has_shape_nth _ _ _ _ Hl Hb),
                  ?(has_shape_nth _ _ _ _ Haa Hb); assumption).
    rewrite (nth_mask_add _ _ _ _ _ _ Hma Hem Hb Hk).
    assert (Hflat : nth (tri i + j)
                      (nth b (map (tril_flatten (nd_x self)) ca) []) 0%Z
                    = get 0%Z (nth b ca []) i j).
    { rewrite nth_map_default with (d := ([] : matrix Z)) by lia.
      now apply nth_tril_flatten. }
    assert (Hmask : nth (tri i + j) (nth b mask_a []) false = true).
    { unfold mask_a. cbn [edge_evidence_mask].
      rewrite nth_map_default with (d := ([] : matrix Z)) by lia.
      rewrite nth_tril_flatten
        by (assumption || now apply has_shape_map_map).
      rewrite get_map_map with (d := 0%Z) (N := nd_x self)
        by (assumption || lia).
      unfold gt_m1. apply Z.ltb_lt. lia. }
    rewrite Hmask. cbn [orb].
    rewrite Hcax.
    + now rewrite Hflat.
    + rewrite length_map. lia.
    + rewrite nth_map_default with (d := ([] : matrix Z)) by lia.
      rewrite length_tril_flatten by assumption. exact Hk.
    + rewrite Hflat. unfold gt_m1. apply Z.ltb_lt. lia.
Qed.

Lemma toy_fill_copies_evidence (width n : nat) (ev : list (list Z)) b i :
  b < length ev -> i < length (nth b ev []) ->
  gt_m1 (nth i (nth b ev []) 0%Z) = true ->
  nth i (nth b (toy_fill width n (Some ev)) []) 0%Z
  = nth i (nth b ev []) 0%Z.
Proof.
  intros Hb Hi Hgt. unfold toy_fill.
  rewrite (nth_map_default _ ev b [] []) by exact Hb.
  rewrite (nth_map_default _ (nth b ev []) i 0%Z 0%Z) by exact Hi.
  now rewrite Hgt.
Qed.

Lemma conditional_sample_keeps_evidence_witness :
  let E := toy_engine 1 2 in
  let self := toy_model 1 2 in
  let h : store := fun b => if b =? 0 then [[2; 0]%Z] else [] in
  let cx := mkRef 0 0 1 in
  let ca := [[[-1; -1]; [1; -1]]%Z] in
  let r := _sample E self 1 (Some cx) (Some ca) (toy_state 1 2 h) in
  let xs := [[2; 2]%Z] in
  let as_ := [[[0; 1]; [1; 0]]%Z] in
  fst r = inr (xs, as_) /\
  nth 0 (nth 0 xs []) 0%Z = 2%Z /\
  get 0%Z (nth 0 as_ []) 1 0 = 1%Z /\ get 0%Z (nth 0 as_ []) 0 1 = 1%Z.
Proof.
  intros E self h cx ca r xs as_.
  assert (Hr : r = (inr (xs, as_), snd r)).
  { rewrite (surjective_pairing r) at 1. now f_equal. }
  split; [now rewrite Hr|].
  destruct (conditional_sample_keeps_evidence E self 1 (Some cx) (Some ca)
              (toy_state 1 2 h) xs as_ (snd r)) as [Hx Ha].
  - intros mk n c ev g b i. apply toy_fill_copies_evidence.
  - intros mk n c ev g b i. apply toy_fill_copies_evidence.
  - exact Hr.
  - split.
    + apply (Hx cx eq_refl 0 0); cbn; lia.
    + apply (Ha ca eq_refl 0 1 0); cbn; lia.
Defined.

(** ** Conditional chunking: the pieces *)

Lemma chunk_arith (L k : nat) :
  0 < k -> 0 < L ->
  let split_size := (L + k - 1) / k in
  let n := (L + split_size - 1) / split_size in
  0 < split_size /\ L <= split_size * k /\
  0 < n /\ n <= k /\ L <= n * split_size /\ (n - 1) * split_size < L.
Proof.
  intros Hk HL split_size n.
  pose proof (Nat.div_mod_eq (L + k - 1) k) as H1.
  pose proof (Nat.mod_upper_bound (L + k - 1) k ltac:(lia)) as H2.
  fold split_size in H1.
  assert (Hs : 0 < split_size) by nia.
  pose proof (Nat.div_mod_eq (L + split_size - 1) split_size) as H3.
  pose proof (Nat.mod_upper_bound (L + split_size - 1) split_size ltac:(lia))
    as H4.
  fold n in H3.
  assert (HLs : L <= split_size * k) by nia.
  assert (Hn : 0 < n) by nia.
  repeat split; try assumption; nia.
Qed.

Lemma firstn_add_skipn {A} (a b : nat) (l : list A) :
  firstn (a + b) l = firstn a l ++ firstn b (skipn a l).
Proof.
  revert l. induction a as [|a IH]; intros l; [reflexivity|].
  destruct l as [|v l]; cbn [Nat.add firstn skipn app].
  - now rewrite firstn_nil.
  - now rewrite IH.
Qed.

Lemma firstn_min_length {A} (n : nat) (l : list A) :
  firstn (Nat.min n (length l)) l = firstn n l.
Proof.
  destruct (Nat.le_ge_cases n (length l)) as [H|H].
  - now rewrite Nat.min_l.
  - rewrite Nat.min_r by assumption. rewrite firstn_all.
    symmetry. now apply firstn_all2.
Qed.

Lemma concat_pieces {A} (l : list A) (split_size n : nat) :
  concat (map (fun i => firstn (Nat.min split_size (length l - i * split_size))
                          (skipn (i * split_size) l)) (seq 0 n))
  = firstn (n * split_size) l.
Proof.
  induction n as [|n IH]; [reflexivity|].
  rewrite seq_S, map_app, concat_app, IH. cbn [Nat.add map concat].
  rewrite app_nil_r. rewrite <- length_skipn, firstn_min_length.
  replace (S n * split_size) with (n * split_size + split_size) by lia.
  now rewrite firstn_add_skipn.
Qed.

Lemma chunk_list_as_map {A} (l : list A) (k : nat) :
  chunk_list l k
  = map (fun i => firstn (Nat.min ((length l + k - 1) / k)
                            (length l - i * ((length l + k - 1) / k)))
                    (skipn (i * ((length l + k - 1) / k)) l))
        (seq 0 ((length l + (length l + k - 1) / k - 1)
                / ((length l + k - 1) / k))).
Proof. unfold chunk_list, torch_chunk_bounds. now rewrite map_map. Qed.

Lemma torch_chunk_bounds_in (L k : nat) p :
  0 < k -> 0 < L -> In p (torch_chunk_bounds L k) ->
  fst p + snd p <= L /\ 0 < snd p /\ snd p <= (L + k - 1) / k.
Proof.
  intros Hk HL Hin. unfold torch_chunk_bounds in Hin.
  destruct (chunk_arith L k Hk HL) as (Hs & _ & Hn & _ & _ & Hlast).
  apply in_map_iff in Hin as (i & <- & Hi). apply in_seq in Hi.
  cbn [fst snd].
  assert (i * ((L + k - 1) / k) < L) by nia. lia.
Qed.

Lemma rows_chunk_ref (h : store) (x : tref) (k : nat) :
  0 < k -> 0 < len x -> valid h x ->
  map (rows h) (chunk_ref x k) = chunk_list (rows h x) k.
Proof.
  intros Hk HL Hv. unfold valid in Hv.
  assert (Hlen : length (rows h x) = len x).
  { unfold rows. rewrite length_firstn, length_skipn. lia. }
  unfold chunk_ref, chunk_list. rewrite Hlen, map_map.
  apply map_ext_in. intros p Hp.
  destruct (torch_chunk_bounds_in _ _ p Hk HL Hp) as (Hb & _ & _).
  unfold rows. cbn [base off len].
  rewrite skipn_firstn_comm, firstn_firstn, skipn_skipn.
  rewrite Nat.min_l by lia. f_equal. f_equal. lia.
Qed.

Lemma sample_conditional_unfold E self (num_samples chunk_size : Z)
  (cx : tref) (ca : list (matrix Z)) (s : state E) :
  len cx = length ca ->
  (0 < chunk_size < Z.of_nat (len cx))%Z ->
  sample E self num_samples (Some cx) (Some ca) chunk_size s
  = (rs <- mapM (fun p => _sample E self 1 (Some (fst p)) (Some (snd p)))
                (combine (chunk_ref cx (Z.to_nat chunk_size))
                         (chunk_list ca (Z.to_nat chunk_size))) ;;
     unzip_cat rs) s.
Proof.
  intros Hlen Hc. unfold sample. rewrite Hlen, Nat.eqb_refl.
  destruct (Z.ltb_spec chunk_size (Z.of_nat (length ca))) as [_|]; [|lia].
  rewrite bind_guard_true by (apply Z.ltb_lt; lia).
  reflexivity.
Qed.

Lemma pieces_len_agree (cx : tref) (ca : list (matrix Z)) (k : nat) :
  len cx = length ca -> 0 < k -> 0 < len cx ->
  map len (chunk_ref cx k) = map (@length _) (chunk_list ca k).
Proof.
  intros Hlen Hk HL. unfold chunk_ref, chunk_list.
  rewrite !map_map, <- Hlen. apply map_ext_in. intros p Hp. cbn [len].
  destruct (torch_chunk_bounds_in _ _ p Hk HL Hp) as (Hb & _ & _).
  rewrite length_firstn, length_skipn. lia.
Qed.

(** X12: how [sample] cuts evidence of [L > chunk_size > 0] examples.
    The call is the calls of [_sample] on the pieces, in turn, with the
    results concatenated. The pieces of the node evidence are views of
    the caller's tensor, cut at the same places as the pieces of the edge
    evidence, so the two pieces of evidence of an example are in the same
    call; the pieces in order make up the whole evidence, every example
    once. There are at most [chunk_size] pieces, none empty and none of
    more than ceil(L / chunk_size) examples. *)
Theorem conditional_chunks_partition E self (num_samples chunk_size : Z)
  (cx : tref) (ca : list (matrix Z)) (s : state E) :
  len cx = length ca ->
  (0 < chunk_size < Z.of_nat (len cx))%Z ->
  let k := Z.to_nat chunk_size in
  let pieces_x := chunk_ref cx k in
  let pieces_a := chunk_list ca k in
  sample E self num_samples (Some cx) (Some ca) chunk_size s
  = (rs <- mapM (fun p => _sample E self 1 (Some (fst p)) (Some (snd p)))
                (combine pieces_x pieces_a) ;;
     unzip_cat rs) s /\
  map len pieces_x = map (@length _) pieces_a /\
  concat pieces_a = ca /\
  (valid (heap s) cx ->
   concat (map (rows (heap s)) pieces_x) = rows (heap s) cx) /\
  0 < length pieces_a <= k /\
  Forall (fun c => 0 < length c <= (len cx + k - 1) / k) pieces_a.
Proof.
  intros Hlen Hc k pieces_x pieces_a.
  assert (Hk : 0 < k) by (unfold k; lia).
  assert (HL : 0 < len cx) by lia.
  destruct (chunk_arith (len cx) k Hk HL)
    as (Hs & HLs & Hn & Hnk & Hcover & Hlast).
  assert (Hconcat : forall (A : Type) (l : list A),
            length l = len cx -> concat (chunk_list l k) = l).
  { intros A l Hl. rewrite chunk_list_as_map, concat_pieces, Hl.
    apply firstn_all2. lia. }
  split; [|split; [|split; [|split; [|split]]]].
  - now apply sample_conditional_unfold.
  - now apply pieces_len_agree.
  - now apply Hconcat.
  - intros Hv. unfold pieces_x. rewrite rows_chunk_ref by assumption.
    apply Hconcat. unfold rows, valid in *.
    rewrite length_firstn, length_skipn. lia.
  - unfold pieces_a, chunk_list, torch_chunk_bounds.
    rewrite !length_map, length_seq, <- Hlen. lia.
  - unfold pieces_a, chunk_list. apply Forall_map, Forall_forall.
    intros p Hp. rewrite <- Hlen in Hp.
    destruct (torch_chunk_bounds_in _ _ p Hk HL Hp) as (Hb & Hpos & Hle).
    rewrite length_firstn, length_skipn. lia.
Qed.

Lemma conditional_chunks_partition_witness :
  let h : store := fun b => if b =? 0 then repeat [0; 0]%Z 5 else [] in
  let cx := mkRef 0 0 5 in
  let ca := repeat [[-1; -1]; [-1; -1]]%Z 5 in
  concat (chunk_list ca 2) = ca /\
  map len (chunk_ref cx 2) = map (@length _) (chunk_list ca 2) /\
  length (chunk_list ca 2) <= 2.
Proof.
  intros h cx ca.
  destruct (conditional_chunks_partition (toy_engine 1 2) (toy_model 1 2)
              1 2 cx ca (toy_state 1 2 h) eq_refl ltac:(cbn; lia))
    as (_ & H1 & H2 & _ & H3 & _).
  split; [exact H2|]. split; [exact H1 | apply H3].
Defined.

(** ** Conditional sampling: the caller's evidence after the call *)

Lemma store_isub_app (h : store) (x : tref) (k : Z) (A X C : list (list Z)) :
  h (base x) = A ++ X ++ C -> off x = length A -> len x = length X ->
  store_isub h x k (base x) = A ++ map (map (fun v => (v - k)%Z)) X ++ C.
Proof.
  intros Hh Ho Hl. unfold store_isub. rewrite Nat.eqb_refl, Hh, Ho, Hl.
  rewrite firstn_app, firstn_all, Nat.sub_diag. cbn [firstn].
  rewrite app_nil_r. f_equal.
  rewrite skipn_app, skipn_all, Nat.sub_diag. cbn [skipn app].
  rewrite firstn_app, firstn_all, Nat.sub_diag. cbn [firstn].
  rewrite app_nil_r. f_equal.
  rewrite app_assoc, skipn_app, length_app.
  rewrite skipn_all2 by (rewrite length_app; lia).
  replace (length A + length X - (length A + length X)) with 0 by lia.
  reflexivity.
Qed.

(** The stored tensor after the decrement of the first [i] pieces of a
    view. *)
Lemma store_isub_pieces (h : store) (x : tref) (split_size : nat)
  (A C : list (list Z)) (i : nat) :
  h (base x) = A ++ rows h x ++ C -> off x = length A ->
  length (rows h x) = len x -> 0 < split_size ->
  (i = 0 \/ (i - 1) * split_size < len x) ->
  let piece j :=
    {| base := base x; off := off x + j * split_size;
       len := Nat.min split_size (len x - j * split_size) |} in
  let o := Nat.min (i * split_size) (len x) in
  fold_left (fun h' j => store_isub h' (piece j) 1) (seq 0 i) h (base x)
  = A ++ decrement (firstn o (rows h x)) ++ skipn o (rows h x) ++ C.
Proof.
  intros Hh Ho Hlen Hs Hi piece. set (R := rows h x) in *.
  induction i as [|i IH]; intros o.
  - unfold o. cbn [Nat.mul Nat.min seq fold_left firstn skipn decrement map app].
    exact Hh.
  - rewrite seq_S, fold_left_app. cbn [Nat.add fold_left].
    set (h' := fold_left _ (seq 0 i) h) in *.
    set (o0 := Nat.min (i * split_size) (len x)) in *.
    set (l := Nat.min split_size (len x - i * split_size)).
    assert (Hmore : i * split_size < len x).
    { destruct Hi as [Hi|Hi]; [discriminate|].
      now rewrite Nat.sub_succ, Nat.sub_0_r in Hi. }
    specialize (IH ltac:(destruct i; [now left | right; nia])).
    cbv zeta in IH. fold o0 in IH.
    assert (Ho0 : o0 = i * split_size) by (unfold o0; lia).
    assert (Ho1 : o = o0 + l) by (unfold o, l; lia).
    pose proof (store_isub_app h' (piece i) 1
                  (A ++ decrement (firstn o0 R)) (firstn l (skipn o0 R))
                  (skipn o R ++ C)) as Hstep.
    change (base (piece i)) with (base x) in Hstep.
    change (off (piece i)) with (off x + i * split_size) in Hstep.
    change (len (piece i)) with l in Hstep.
    rewrite Hstep.
    + rewrite <- app_assoc. f_equal. rewrite app_assoc. f_equal.
      rewrite Ho1, firstn_add_skipn. unfold decrement. now rewrite map_app.
    + rewrite IH. rewrite <- !app_assoc. do 2 f_equal.
      rewrite app_assoc. f_equal.
      rewrite Ho1, Nat.add_comm, <- skipn_skipn. apply eq_sym, firstn_skipn.
    + rewrite length_app. unfold decrement.
      rewrite length_map, length_firstn. lia.
    + rewrite length_firstn, length_skipn. lia.
Qed.

Lemma fold_store_isub_other (h : store) (xs : list tref) (k : Z) b :
  Forall (fun x => base x <> b) xs ->
  fold_left (fun h' x => store_isub h' x k) xs h b = h b.
Proof.
  intros H. revert h. induction H as [|x xs Hx _ IH]; intros h; [reflexivity|].
  cbn [fold_left]. rewrite IH. apply store_isub_other. congruence.
Qed.

Lemma fold_left_over_map {A B C} (f : C -> B -> C) (g : A -> B) l (c : C) :
  fold_left f (map g l) c = fold_left (fun acc v => f acc (g v)) l c.
Proof.
  revert c. induction l as [|v l IH]; intros c; [reflexivity|].
  cbn. apply IH.
Qed.

Lemma fold_left_combine_fst {A B C} (f : C -> A -> C) (l1 : list A)
  (l2 : list B) (c : C) :
  length l1 = length l2 ->
  fold_left (fun acc p => f acc (fst p)) (combine l1 l2) c = fold_left f l1 c.
Proof.
  revert l2 c. induction l1 as [|v l1 IH]; intros [|w l2] c Hl;
    cbn in *; try lia; [reflexivity|].
  apply IH. lia.
Qed.

Lemma Forall_combine_agree {A B} (f : A -> nat) (g : B -> nat) l1 l2 :
  map f l1 = map g l2 ->
  Forall (fun p => f (fst p) = g (snd p)) (combine l1 l2).
Proof.
  revert l2. induction l1 as [|v l1 IH]; intros [|w l2] H; cbn in *;
    try constructor; try discriminate.
  - now inversion H.
  - apply IH. now inversion H.
Qed.

Lemma unzip_cat_state {E} rs (s : state E) r s' :
  unzip_cat rs s = (inr r, s') -> s' = s.
Proof.
  intros H. pose proof (keeps_unzip_cat (fun st : state E => st) rs s) as Hk.
  rewrite H in Hk. exact Hk.
Qed.

Lemma mapM_pieces_heap E self
  (ps : list (tref * list (matrix Z))) (s : state E) rs s' :
  Forall (fun p => len (fst p) = length (snd p)) ps ->
  mapM (fun p => _sample E self 1 (Some (fst p)) (Some (snd p))) ps s
  = (inr rs, s') ->
  heap s' = fold_left (fun h p => store_isub h (fst p) 1) ps (heap s).
Proof.
  intros Hall. revert s rs s'.
  induction Hall as [|p ps Hp _ IH]; intros s rs s' H.
  - cbn in H. now inversion H.
  - cbn [mapM] in H.
    apply bind_inv in H as (y & s1 & Hy & H).
    apply bind_inv in H as (ys & s2 & Hys & H).
    apply ret_inv in H as [_ ->].
    cbn [fold_left]. rewrite (IH _ _ _ Hys). f_equal.
    pose proof (_sample_heap E self 1 (fst p) (Some (snd p)) s) as Hh.
    rewrite Hy in Hh. apply Hh. now intros ca [= <-].
Qed.

Lemma rows_of_app (h : store) (x : tref) (A R C : list (list Z)) :
  h (base x) = A ++ R ++ C -> off x = length A -> len x = length R ->
  rows h x = R.
Proof.
  intros Hh Ho Hl. unfold rows. rewrite Hh, Ho, Hl.
  rewrite skipn_app, skipn_all, Nat.sub_diag. cbn [skipn app].
  rewrite firstn_app, firstn_all, Nat.sub_diag. cbn [firstn].
  apply app_nil_r.
Qed.

(** X13: conditional sampling writes to the caller's node evidence, also
    through the views [Tensor.chunk] hands to [_sample]. When [sample]
    with both kinds of evidence returns, every row of the caller's
    [cond_x] has been decremented exactly once, whether the evidence was
    cut into pieces or not; the other rows of the stored tensor and the
    other tensors are as before. (The [x += 1] before the return is on the
    tensor the circuit sampler returned, taken to be its own.) A second
    call with the same tensor conditions on other values. *)
Theorem conditional_sample_decrements_evidence E self
  (num_samples chunk_size : Z) (cx : tref) (ca : list (matrix Z))
  (s : state E) r s' :
  valid (heap s) cx ->
  sample E self num_samples (Some cx) (Some ca) chunk_size s = (inr r, s') ->
  rows (heap s') cx = decrement (rows (heap s) cx) /\
  heap s' (base cx)
  = firstn (off cx) (heap s (base cx))
    ++ decrement (rows (heap s) cx)
    ++ skipn (off cx + len cx) (heap s (base cx)) /\
  (forall b, b <> base cx -> heap s' b = heap s b).
Proof.
  intros Hv H.
  assert (Hlen : len cx = length ca).
  { unfold sample in H. destruct (Nat.eqb_spec (len cx) (length ca));
      [assumption | discriminate H]. }
  set (hb := heap s (base cx)).
  set (A := firstn (off cx) hb). set (C := skipn (off cx + len cx) hb).
  unfold valid in Hv. fold hb in Hv.
  assert (Hsplit : hb = A ++ rows (heap s) cx ++ C).
  { unfold A, C, rows. fold hb.
    rewrite <- (firstn_skipn (off cx) hb) at 1. f_equal.
    rewrite <- (firstn_skipn (len cx) (skipn (off cx) hb)) at 1. f_equal.
    now rewrite skipn_skipn, Nat.add_comm. }
  assert (HA : off cx = length A) by (unfold A; rewrite length_firstn; lia).
  assert (HR : length (rows (heap s) cx) = len cx).
  { unfold rows. fold hb. rewrite length_firstn, length_skipn. lia. }
  assert (Hgoal : heap s' (base cx)
                  = A ++ decrement (rows (heap s) cx) ++ C /\
                  (forall b, b <> base cx -> heap s' b = heap s b)).
  { destruct (Z.ltb_spec chunk_size (Z.of_nat (len cx))) as [Hlt|Hge].
    - assert (Hpos : (0 < chunk_size)%Z).
      { destruct (Z.ltb_spec 0 chunk_size) as [|Hneg]; [assumption|].
        exfalso. unfold sample in H. rewrite Hlen, Nat.eqb_refl in H.
        destruct (Z.ltb_spec chunk_size (Z.of_nat (length ca))); [|lia].
        destruct (Z.ltb_spec 0 chunk_size); [lia|].
        cbn in H. discriminate H. }
      set (k := Z.to_nat chunk_size).
      assert (Hk : 0 < k) by (unfold k; lia).
      assert (HL : 0 < len cx) by lia.
      rewrite sample_conditional_unfold in H by (assumption || lia).
      fold k in H.
      apply bind_inv in H as (rs & s1 & Hrs & H).
      apply unzip_cat_state in H. subst s'.
      pose proof (pieces_len_agree cx ca k Hlen Hk HL) as Hagree.
      rewrite (mapM_pieces_heap E self _ s rs s1
                 (Forall_combine_agree _ _ _ _ Hagree) Hrs).
      rewrite fold_left_combine_fst with (f := fun h x => store_isub h x 1)
        by (rewrite <- (length_map len), Hagree; apply length_map).
      split.
      + unfold chunk_ref, torch_chunk_bounds. rewrite map_map.
        cbn [fst snd]. rewrite fold_left_over_map.
        destruct (chunk_arith (len cx) k Hk HL)
          as (Hs & _ & Hn & _ & Hcover & Hlast).
        rewrite (store_isub_pieces (heap s) cx _ A C _ Hsplit HA HR Hs)
          by (right; exact Hlast).
        rewrite Nat.min_r by exact Hcover.
        rewrite <- HR at 1. rewrite firstn_all.
        rewrite <- HR, skipn_all. reflexivity.
      + intros b Hb. apply fold_store_isub_other.
        unfold chunk_ref. apply Forall_map, Forall_forall.
        intros p _. cbn [base]. congruence.
    - assert (Hs : sample E self num_samples (Some cx) (Some ca) chunk_size s
                   = _sample E self 1 (Some cx) (Some ca) s).
      { unfold sample. rewrite Hlen, Nat.eqb_refl.
        destruct (Z.ltb_spec chunk_size (Z.of_nat (length ca))); [lia|].
        reflexivity. }
      rewrite Hs in H.
      pose proof (_sample_heap E self 1 cx (Some ca) s) as Hh.
      rewrite H in Hh. cbn [snd] in Hh.
      rewrite Hh by (now intros ca' [= <-]). split.
      + now apply store_isub_app.
      + intros b Hb. now apply store_isub_other. }
  destruct Hgoal as [Hbase Hother].
  split; [|split; [exact Hbase | exact Hother]].
  eapply rows_of_app; [exact Hbase | exact HA |].
  unfold decrement. now rewrite length_map.
Qed.

Lemma conditional_sample_decrements_evidence_witness :
  let h : store := fun b => if b =? 0 then repeat [2; 0]%Z 5 else [] in
  let cx := mkRef 0 1 3 in
  let ca := repeat [[-1; -1]; [-1; -1]]%Z 3 in
  let s := toy_state 1 2 h in
  let r := sample (toy_engine 1 2) (toy_model 1 2) 1 (Some cx) (Some ca) 2 s in
  heap (snd r) 0
  = [[2; 0]; [1; -1]; [1; -1]; [1; -1]; [2; 0]]%Z.
Proof.
  intros h cx ca s r.
  assert (Hr : r = (inr (repeat [2; 2]%Z 3, repeat [[0; 1]; [1; 0]]%Z 3),
                    snd r)).
  { rewrite (surjective_pairing r) at 1. now f_equal. }
  destruct (conditional_sample_decrements_evidence (toy_engine 1 2)
              (toy_model 1 2) 1 2 cx ca s _ (snd r) ltac:(unfold valid; cbn; lia) Hr)
    as (_ & H & _).
  exact (eq_trans H eq_refl).
Defined.

(** ** Conditional sampling: what is returned *)

Lemma sum_pieces (L split_size n : nat) :
  list_sum (map (fun i => Nat.min split_size (L - i * split_size)) (seq 0 n))
  = Nat.min (n * split_size) L.
Proof.
  induction n as [|n IH]; [reflexivity|].
  rewrite seq_S, map_app, list_sum_app, IH. cbn.
  rewrite Nat.add_0_r. lia.
Qed.

Lemma sum_len_chunk_ref (x : tref) (k : nat) :
  0 < k -> 0 < len x -> list_sum (map len (chunk_ref x k)) = len x.
Proof.
  intros Hk HL. unfold chunk_ref, torch_chunk_bounds. rewrite !map_map.
  cbn [len snd]. rewrite sum_pieces.
  destruct (chunk_arith (len x) k Hk HL) as (_ & _ & _ & _ & Hcover & _).
  now apply Nat.min_r.
Qed.

Lemma map_fst_combine_eq {A B} (l1 : list A) (l2 : list B) :
  length l1 = length l2 -> map fst (combine l1 l2) = l1.
Proof.
  revert l2. induction l1 as [|v l1 IH]; intros [|w l2] Hl; cbn in *;
    try lia; [reflexivity|].
  f_equal. apply IH. lia.
Qed.

Lemma unzip_cat_value {E} rs (s : state E) r s' :
  unzip_cat rs s = (inr r, s') ->
  r = (concat (map fst rs), concat (map snd rs)).
Proof.
  destruct rs as [|r0 rs]; [discriminate|].
  rewrite unzip_cat_cons. now intros [= <- _].
Qed.

Lemma mapM_pieces_shapes E self
  (ps : list (tref * list (matrix Z))) (s : state E) rs s' :
  mapM (fun p => _sample E self 1 (Some (fst p)) (Some (snd p))) ps s
  = (inr rs, s') ->
  well_formed_sample self (list_sum (map len (map fst ps)))
    (concat (map fst rs), concat (map snd rs)).
Proof.
  revert s rs s'. induction ps as [|p ps IH]; intros s rs s' H.
  - cbn in H. injection H as <- _. repeat split; constructor.
  - cbn [mapM] in H.
    apply bind_inv in H as (y & s1 & Hy & H).
    apply bind_inv in H as (ys & s2 & Hys & H).
    apply ret_inv in H as [-> _].
    apply _sample_shapes in Hy. cbn [resolved_size] in Hy.
    destruct Hy as (H1 & H2 & H3 & H4).
    destruct (IH _ _ _ Hys) as (I1 & I2 & I3 & I4).
    unfold well_formed_sample in *. cbn [fst snd map concat list_sum] in *.
    rewrite !length_app, H1, H2, I1, I2.
    repeat split; try reflexivity; unfold rows_of_width in *;
      apply Forall_app; now split.
Qed.

(** X14: what conditional [sample] returns. Whenever [sample] with both
    kinds of evidence returns, chunked or not, there is one sample per
    example of the evidence (the argument [num_samples] plays no part):
    as many node rows of length N and as many N x N edge matrices as the
    evidence has examples, and every edge matrix is symmetric with a zero
    diagonal, whatever the edge evidence held above or on its diagonal. *)
Theorem conditional_sample_shapes E self (num_samples chunk_size : Z)
  (cx : tref) (ca : list (matrix Z)) (s : state E) r s' :
  sample E self num_samples (Some cx) (Some ca) chunk_size s = (inr r, s') ->
  length (fst r) = len cx /\ length (snd r) = length ca /\
  rows_of_width (nd_x self) (fst r) /\
  Forall (well_formed_edges (nd_x self) 0%Z) (snd r).
Proof.
  intros H.
  assert (Hlen : len cx = length ca).
  { unfold sample in H. destruct (Nat.eqb_spec (len cx) (length ca));
      [assumption | discriminate H]. }
  rewrite <- Hlen.
  change (well_formed_sample self (len cx) r).
  destruct (Z.ltb_spec chunk_size (Z.of_nat (len cx))) as [Hlt|Hge].
  - assert (Hpos : (0 < chunk_size)%Z).
    { destruct (Z.ltb_spec 0 chunk_size) as [|Hneg]; [assumption|].
      exfalso. unfold sample in H. rewrite Hlen, Nat.eqb_refl in H.
      destruct (Z.ltb_spec chunk_size (Z.of_nat (length ca))); [|lia].
      destruct (Z.ltb_spec 0 chunk_size); [lia|].
      cbn in H. discriminate H. }
    set (k := Z.to_nat chunk_size).
    assert (Hk : 0 < k) by (unfold k; lia).
    assert (HL : 0 < len cx) by lia.
    rewrite sample_conditional_unfold in H by (assumption || lia).
    fold k in H.
    apply bind_inv in H as (rs & s1 & Hrs & H).
    apply unzip_cat_value in H. subst r.
    apply mapM_pieces_shapes in Hrs.
    rewrite map_fst_combine_eq in Hrs.
    + now rewrite sum_len_chunk_ref in Hrs.
    + rewrite <- (length_map len), (pieces_len_agree cx ca k Hlen Hk HL).
      apply length_map.
  - assert (Hs : sample E self num_samples (Some cx) (Some ca) chunk_size s
                 = _sample E self 1 (Some cx) (Some ca) s).
    { unfold sample. rewrite Hlen, Nat.eqb_refl.
      destruct (Z.ltb_spec chunk_size (Z.of_nat (length ca))); [lia|].
      reflexivity. }
    rewrite Hs in H. apply _sample_shapes in H. exact H.
Qed.

Lemma conditional_sample_shapes_witness :
  let h : store := fun b => if b =? 0 then repeat [2; 0]%Z 3 else [] in
  let cx := mkRef 0 0 3 in
  let ca := repeat [[-1; 5]; [1; 7]]%Z 3 in
  let s := toy_state 1 2 h in
  let r := sample (toy_engine 1 2) (toy_model 1 2) 9 (Some cx) (Some ca) 2 s in
  fst r = inr (repeat [2; 2]%Z 3, repeat [[0; 1]; [1; 0]]%Z 3) /\
  Forall (well_formed_edges 2 0%Z) (repeat [[0; 1]; [1; 0]]%Z 3).
Proof.
  intros h cx ca s r.
  assert (Hr : r = (inr (repeat [2; 2]%Z 3, repeat [[0; 1]; [1; 0]]%Z 3),
                    snd r)).
  { rewrite (surjective_pairing r) at 1. now f_equal. }
  split; [now rewrite Hr|].
  destruct (conditional_sample_shapes (toy_engine 1 2) (toy_model 1 2) 9 2
              cx ca s _ (snd r) Hr) as (_ & _ & _ & H).
  exact H.
Defined.

(** ** Which entries of an edge tensor are read *)

Lemma tril_flatten_ext {A} (d : A) N (a a' : matrix A) :
  has_shape N N a = true -> has_shape N N a' = true ->
  (forall i j, i < N -> j < i -> get d a i j = get d a' i j) ->
  tril_flatten N a = tril_flatten N a'.
Proof.
  intros Ha Ha' H. apply nth_ext with (d := d) (d' := d).
  - now rewrite !length_tril_flatten.
  - intros k Hk. rewrite length_tril_flatten in Hk by assumption.
    destruct (tri_decompose N k Hk) as (i & j & Hj & Hi & ->).
    rewrite !nth_tril_flatten by assumption. now apply H.
Qed.

Lemma forallb_has_shape_nth {A} N (a : list (matrix A)) b :
  forallb (has_shape N N) a = true -> b < length a ->
  has_shape N N (nth b a []) = true.
Proof.
  intros H Hb. rewrite forallb_forall in H. now apply H, nth_In.
Qed.

Lemma map_tril_flatten_agree N (a a' : list (matrix Z)) :
  forallb (has_shape N N) a = true -> forallb (has_shape N N) a' = true ->
  agree_below_diagonal N a a' ->
  map (tril_flatten N) a = map (tril_flatten N) a' /\
  map (fun t : list (list Z) => tril_flatten N (map (map gt_m1) t)) a
  = map (fun t : list (list Z) => tril_flatten N (map (map gt_m1) t)) a'.
Proof.
  intros Ha Ha' [Hlen H]. split.
  - apply nth_ext with (d := []) (d' := []); rewrite !length_map;
      [exact Hlen|]. intros b Hb.
    rewrite (nth_map_default _ a b [] []) by exact Hb.
    rewrite (nth_map_default _ a' b [] []) by lia.
    apply (tril_flatten_ext 0%Z).
    + now apply forallb_has_shape_nth.
    + apply forallb_has_shape_nth; [assumption | lia].
    + intros i j Hi Hj. now apply H.
  - unfold matrix in *.
    apply nth_ext with (d := []) (d' := []); rewrite !length_map;
      [exact Hlen|]. intros b Hb.
    rewrite (nth_map_default _ a b [] []) by exact Hb.
    rewrite (nth_map_default _ a' b [] []) by lia.
    pose proof (forallb_has_shape_nth N a b Ha Hb) as Hs.
    assert (Hb' : b < length a') by lia.
    pose proof (forallb_has_shape_nth N a' b Ha' Hb') as Hs'.
    apply (tril_flatten_ext false).
    + now apply has_shape_map_map.
    + now apply has_shape_map_map.
    + intros i j Hi Hj.
      assert (Hj' : j < N) by lia.
      pose proof (get_map_map gt_m1 0%Z false N _ i j Hs Hi Hj') as G1.
      pose proof (get_map_map gt_m1 0%Z false N _ i j Hs' Hi Hj') as G2.
      etransitivity; [exact G1|]. etransitivity; [|symmetry; exact G2].
      f_equal. exact (H b i j Hb Hi Hj).
Qed.

(** X15: of an edge tensor, only the entries strictly below the diagonal
    are read. Two batches of N x N edge tensors that agree below the
    diagonal get the same scores from [forward] and [logpdf], and as edge
    evidence make [_sample] do the same: neither the diagonal nor the upper
    triangle is looked at, so an input that is not symmetric is not
    noticed. *)
Theorem edges_read_below_diagonal E self (x : tref) (a a' : list (matrix Z))
  (s : state E) :
  forallb (has_shape (nd_x self) (nd_x self)) a = true ->
  forallb (has_shape (nd_x self) (nd_x self)) a' = true ->
  agree_below_diagonal (nd_x self) a a' ->
  forward E self x a s = forward E self x a' s /\
  logpdf E self x a s = logpdf E self x a' s /\
  (forall n cond_x,
     _sample E self n cond_x (Some a) s = _sample E self n cond_x (Some a') s).
Proof.
  intros Ha Ha' Hag.
  destruct (map_tril_flatten_agree _ a a' Ha Ha' Hag) as [E1 E2].
  assert (Hf : forward E self x a s = forward E self x a' s).
  { unfold forward. now rewrite E1, Ha, Ha'. }
  split; [exact Hf|]. split.
  - unfold logpdf, bind. now rewrite Hf.
  - intros n cond_x. destruct Hag as [Hlen _]. unfold _sample.
    destruct cond_x as [cx|]; now rewrite ?Hlen, E1, E2, Ha, Ha'.
Qed.

Lemma edges_read_below_diagonal_witness :
  let h : store := fun b => if b =? 0 then [[2; 1]%Z] else [] in
  let s := toy_state 1 2 h in
  forward (toy_engine 1 2) (toy_model 1 2) (mkRef 0 0 1) [[[0; 5]; [1; 0]]%Z] s
  = forward (toy_engine 1 2) (toy_model 1 2) (mkRef 0 0 1)
      [[[9; 7]; [1; 3]]%Z] s.
Proof.
  intros h s.
  apply (edges_read_below_diagonal (toy_engine 1 2) (toy_model 1 2)
           (mkRef 0 0 1) [[[0; 5]; [1; 0]]%Z] [[[9; 7]; [1; 3]]%Z] s);
    [reflexivity | reflexivity |].
  split; [reflexivity|].
  intros [|b] [|[|i]] [|j] Hb Hi Hj; cbn in *; first [lia | reflexivity].
Defined.

(** ** Counts and evidence that cannot be sampled *)

(** X16: a count of zero is refused. An unconditional [_sample] of no
    example raises [RuntimeError] at the draw of the sizes (a batch of no
    row cannot be drawn from), and so does [sample] with a count of 0 and
    a chunk size that is not negative; [sample] of the plain variant with
    a count of 0 raises [RuntimeError] at the draw of the components. In
    all three cases nothing is drawn and the state is as before. *)
Theorem sample_zero_count_raises :
  (forall E self (s : state E),
     _sample E self 0 None None s = (inl RuntimeError, s)) /\
  (forall E self (chunk_size : Z) (s : state E),
     (0 <= chunk_size)%Z ->
     sample E self 0 None None chunk_size s = (inl RuntimeError, s)) /\
  (forall E self g, MolSPNZero.sample E self 0 g = (inl RuntimeError, g)).
Proof.
  assert (H0 : forall E self (s : state E),
            _sample E self 0 None None s = (inl RuntimeError, s)).
  { intros E self s. unfold _sample.
    rewrite !bind_ret_l. cbv beta iota zeta.
    rewrite bind_bind, bind_read_logits_n, bind_ret_l. cbv beta iota zeta.
    rewrite bind_ret_l. cbv beta iota zeta. reflexivity. }
  split; [exact H0|]. split.
  - intros E self chunk_size s Hc. unfold sample.
    destruct (Z.ltb_spec chunk_size 0); [lia|]. apply H0.
  - intros E self g. reflexivity.
Qed.

(** The log-probability that [forward] adds, whatever the parameter
    holds. *)
Lemma forward_value_now E self x a (s : state E) :
  let xv := rows (heap s) x in
  let mask_xn : matrix bool := map (map present) xv in
  let score_node := network_x E (Some mask_xn) (decrement xv) in
  let score_edge :=
    network_a E (Some (edge_mask self mask_xn))
              (map (tril_flatten (nd_x self)) a) in
  let logits := logits_n_now self (fill_n s) in
  rows_of_width (nd_x self) xv ->
  Forall (Forall (fun v => 0 <= v)%Z) xv ->
  Forall (fun r => exists v, In v r /\ v <> 0%Z) xv ->
  forallb (has_shape (nd_x self) (nd_x self)) a = true ->
  has_shape (length xv) (nc self) score_node = true ->
  has_shape (length xv) (nc self) score_edge = true ->
  drawable self (fill_n s) ->
  fst (forward E self x a s)
  = inr (zip_with logit_plus
           (map (fun r => nth (Z.to_nat (count_non_padding r - 1))
                              (normalize_logits logits) NegInf) xv)
           (map logsumexp
                (add_logs score_node score_edge
                          (log_softmax (logits_w self))))).
Proof.
  intros xv mask_xn score_node score_edge logits Hw Hpos Hnode Ha Hsx Hsa Hd.
  unfold forward, bind, isub, read, guard, set_marginalization_mask_x,
    set_marginalization_mask_a, call_network_x, call_network_a,
    read_logits_n, lift, ret, raise.
  cbn [heap rng marg_x marg_a fill_n]. rewrite rows_store_isub.
  fold (decrement (rows (heap s) x)). fold xv.
  rewrite forallb_width by now apply rows_of_width_decrement.
  cbn [heap rng marg_x marg_a fill_n].
  rewrite (gt_m1_decrement xv Hpos). fold mask_xn. fold logits.
  assert (Hv : Categorical_valid logits = true).
  { unfold drawable in Hd. fold logits in Hd. unfold Categorical_valid.
    now destruct logits. }
  rewrite Hv.
  rewrite (mapE_inr _
             (fun n => nth (Z.to_nat n) (normalize_logits logits) NegInf)).
  2:{ unfold mask_xn. rewrite map_map. apply Forall_map.
      unfold rows_of_width in Hw.
      rewrite Forall_forall in Hw, Hnode |- *. intros r Hr.
      rewrite sum_bool_count. unfold Categorical_log_prob.
      pose proof (count_non_padding_bounds r (Hnode r Hr)) as Hb.
      specialize (Hw r Hr). unfold logits. rewrite length_logits_n_now.
      destruct (Z.leb_spec 0 (count_non_padding r - 1)); [|lia].
      destruct (Z.ltb_spec (count_non_padding r - 1) (Z.of_nat (nd_x self)));
        [reflexivity|lia]. }
  rewrite Ha. cbn [heap rng marg_x marg_a fill_n].
  rewrite length_decrement. fold score_node score_edge. rewrite Hsx, Hsa.
  cbn [andb fst]. do 2 f_equal.
  unfold mask_xn. rewrite !map_map. apply map_ext. intros r.
  now rewrite sum_bool_count.
Qed.

Lemma nth_fill_or N fill mask i :
  i < N ->
  nth i (fill_or N fill mask) false
  = nth i fill false || existsb (fun r => nth i r false) mask.
Proof. intros Hi. unfold fill_or. now rewrite nth_map_seq. Qed.

Lemma nth_logits_n_now self fill i :
  i < nd_x self ->
  nth i (logits_n_now self fill) NegInf
  = if nth i fill false then NegInf else Fin (nth i (logits_n self) 0%R).
Proof. intros Hi. unfold logits_n_now. now rewrite nth_map_seq. Qed.

Lemma nth_normalize_NegInf (l : list logit) i :
  nth i l NegInf = NegInf -> nth i (normalize_logits l) NegInf = NegInf.
Proof.
  intros H. unfold normalize_logits.
  destruct (Nat.lt_ge_cases i (length l)) as [Hi|Hi].
  - rewrite nth_map_default with (d := NegInf) by assumption. now rewrite H.
  - apply nth_overflow. now rewrite length_map.
Qed.

Lemma existsb_evidence (xv : list (list Z)) i :
  existsb (fun r => nth i r false) (map (map gt_m1) (decrement xv))
  = existsb (fun r => (0 <? nth i r 0)%Z) xv.
Proof.
  unfold decrement. rewrite !map_map.
  induction xv as [|r xv IH]; [reflexivity|].
  cbn [map existsb]. rewrite IH. f_equal. rewrite map_map.
  destruct (Nat.lt_ge_cases i (length r)) as [Hi|Hi].
  - rewrite nth_map_default with (d := 0%Z) by assumption.
    unfold gt_m1. destruct (Z.ltb_spec (-1) (nth i r 0%Z - 1)),
      (Z.ltb_spec 0 (nth i r 0%Z)); try reflexivity; lia.
  - rewrite !nth_overflow by (rewrite ?length_map; assumption).
    reflexivity.
Qed.

(** X17: node evidence is written into the size prior, and stays there.
    After a call of [_sample] with node evidence that returns, the entry
    [i] of the parameter [logits_n] is [-inf] for every position [i] at
    which some example of the evidence carries a label, and the other
    entries are as before. The write outlives the call: [forward] on the
    same model then returns [-inf] for every example whose number of nodes
    is such a position plus one, and [logpdf] of a batch with such an
    example is [-inf]. *)
Theorem evidence_overwrites_size_prior E self n cx cond_a (s : state E)
  r s' :
  _sample E self n (Some cx) cond_a s = (inr r, s') ->
  let ev := rows (heap s) cx in
  let seen i := existsb (fun row => (0 <? nth i row 0)%Z) ev in
  (forall i, i < nd_x self ->
     nth i (logits_n_now self (fill_n s')) NegInf
     = if seen i then NegInf
       else nth i (logits_n_now self (fill_n s)) NegInf) /\
  (forall x a (t : state E),
     fill_n t = fill_n s' ->
     let xv := rows (heap t) x in
     let mask_xn : matrix bool := map (map present) xv in
     rows_of_width (nd_x self) xv ->
     Forall (Forall (fun v => 0 <= v)%Z) xv ->
     Forall (fun r => exists v, In v r /\ v <> 0%Z) xv ->
     forallb (has_shape (nd_x self) (nd_x self)) a = true ->
     has_shape (length xv) (nc self)
       (network_x E (Some mask_xn) (decrement xv)) = true ->
     has_shape (length xv) (nc self)
       (network_a E (Some (edge_mask self mask_xn))
          (map (tril_flatten (nd_x self)) a)) = true ->
     forall b, b < length xv ->
       seen (Z.to_nat (count_non_padding (nth b xv []) - 1)) = true ->
       exists v,
         fst (forward E self x a t) = inr v /\
         length v = length xv /\
         nth b v NegInf = NegInf /\
         fst (logpdf E self x a t) = inr NegInf).
Proof.
  intros H ev seen. destruct r as [xs as_].
  destruct (_sample_inv_draws E self n (Some cx) cond_a s xs as_ s' H)
    as (HB & _ & _ & Hfin & Hfill & _).
  cbn [node_evidence option_map fill_after] in Hfill, Hfin.
  fold ev in Hfill, Hfin.
  assert (Hnow : forall i, i < nd_x self ->
            nth i (logits_n_now self (fill_n s')) NegInf
            = if seen i then NegInf
              else nth i (logits_n_now self (fill_n s)) NegInf).
  { intros i Hi. rewrite !nth_logits_n_now by assumption.
    rewrite Hfill, nth_fill_or by assumption.
    rewrite existsb_evidence. fold (seen i).
    destruct (nth i (fill_n s) false), (seen i); reflexivity. }
  split; [exact Hnow|].
  intros x a t Ht xv mask_xn Hw Hpos Hnode Ha Hsx Hsa b Hb Hseen.
  assert (Hd : drawable self (fill_n t)).
  { rewrite Ht, Hfill. unfold drawable. unfold size_logits in Hfin.
    cbn [fill_after] in Hfin. fold ev in Hfin.
    rewrite forallb_forall in Hfin. apply Hfin.
    remember (resolved_size n (Some cx) cond_a) as B0 eqn:HB0.
    destruct B0 as [|B0]; [exfalso; lia|]. now left. }
  pose proof (forward_value_now E self x a t Hw Hpos Hnode Ha Hsx Hsa Hd)
    as Hf.
  fold xv mask_xn in Hf.
  set (v := zip_with logit_plus _ _) in Hf.
  pose proof (has_shape_length _ _ _ Hsx) as Hlx.
  pose proof (has_shape_length _ _ _ Hsa) as Hla.
  assert (Hlen : length v = length xv).
  { unfold v, add_logs.
    rewrite length_zip_with, !length_map, length_zip_with. lia. }
  assert (Hnth : nth b v NegInf = NegInf).
  { unfold v.
    rewrite nth_zip_with with (d1 := NegInf) (d2 := 0%R)
      by (unfold add_logs;
          rewrite ?length_map, ?length_zip_with; lia).
    rewrite nth_map_default with (d := []) by assumption.
    rewrite nth_normalize_NegInf; [reflexivity|].
    pose proof (proj1 (Forall_nth _ _) Hnode b [] Hb) as Hex.
    pose proof (proj1 (Forall_nth _ _) Hw b [] Hb) as Hwb.
    pose proof (count_non_padding_bounds _ Hex) as Hcb.
    cbn beta in Hwb. rewrite Ht, Hnow by lia. now rewrite Hseen. }
  exists v. split; [exact Hf|]. split; [exact Hlen|]. split; [exact Hnth|].
  unfold logpdf, bind.
  destruct (forward E self x a t) as [[e|w] t1]; cbn [fst] in Hf |- *;
    [discriminate Hf|].
  injection Hf as ->. unfold ret. cbn [fst]. f_equal.
  unfold logit_mean.
  replace (forallb is_fin v) with false; [reflexivity|].
  symmetry. apply not_true_is_false. intros Hall.
  rewrite forallb_forall in Hall.
  assert (Hin : In (nth b v NegInf) v) by (apply nth_In; lia).
  specialize (Hall _ Hin). now rewrite Hnth in Hall.
Qed.

Lemma evidence_overwrites_size_prior_witness :
  let E := toy_engine 1 2 in
  let self := toy_model 1 2 in
  let h : store := fun b => if b =? 0 then [[2; 0]%Z]
                            else if b =? 1 then [[3; 0]%Z] else [] in
  let s := toy_state 1 2 h in
  let r := _sample E self 1 (Some (mkRef 0 0 1)) None s in
  fst r = inr ([[2; 2]%Z], [[[0; 1]; [1; 0]]%Z]) /\
  logits_n_now self (fill_n (snd r)) = [NegInf; Fin 0%R] /\
  fst (logpdf E self (mkRef 1 0 1) [[[0; 0]; [0; 0]]%Z] (snd r)) = inr NegInf.
Proof.
  intros E self h s r.
  assert (Hr : r = (inr ([[2; 2]%Z], [[[0; 1]; [1; 0]]%Z]), snd r)).
  { rewrite (surjective_pairing r) at 1. now f_equal. }
  split; [now rewrite Hr|]. split; [reflexivity|].
  destruct (evidence_overwrites_size_prior E self 1 (mkRef 0 0 1) None s
              _ (snd r) Hr) as [_ H].
  destruct (H (mkRef 1 0 1) [[[0; 0]; [0; 0]]%Z] (snd r) eq_refl)
    with (b := 0) as (v & _ & _ & _ & Hl).
  - repeat constructor.
  - repeat constructor; lia.
  - constructor; [|constructor]. exists 3%Z. split; [now left|lia].
  - reflexivity.
  - reflexivity.
  - reflexivity.
  - cbn. lia.
  - reflexivity.
  - exact Hl.
Defined.

Lemma logits_n_now_all_filled self fill :
  (forall i, i < nd_x self -> nth i fill false = true) ->
  existsb is_fin (logits_n_now self fill) = false.
Proof.
  intros H. apply not_true_is_false. intros Hex.
  apply existsb_exists in Hex as (v & Hin & Hv).
  unfold logits_n_now in Hin. apply in_map_iff in Hin as (i & <- & Hi).
  apply in_seq in Hi. rewrite H in Hv by lia. discriminate Hv.
Qed.

(** X18: evidence at every node position cannot be conditioned on. When
    the node evidence of a call of [_sample] carries, for every position,
    a label in some example, every entry of [logits_n] is overwritten and
    the size distribution cannot be built: the call raises [ValueError],
    after the caller's evidence has been decremented, the node mask set
    and the scores computed, and before anything is drawn; the parameter
    is left without a finite entry. *)
Theorem full_node_evidence_raises E self cx (s : state E) :
  let xv := rows (heap s) cx in
  let ev := decrement xv in
  let mask_x : matrix bool := map (map gt_m1) ev in
  let s' := snd (_sample E self (len cx) (Some cx) None s) in
  length xv = len cx -> 0 < len cx -> 0 < nd_x self ->
  rows_of_width (nd_x self) xv ->
  (forall i, i < nd_x self -> exists b, (0 < nth i (nth b xv []) 0)%Z) ->
  has_shape (len cx) (nc self) (network_x E (Some mask_x) ev) = true ->
  fst (_sample E self (len cx) (Some cx) None s) = inl ValueError /\
  rows (heap s') cx = ev /\ marg_x s' = Some mask_x /\ rng s' = rng s /\
  existsb is_fin (logits_n_now self (fill_n s')) = false.
Proof.
  intros xv ev mask_x s' Hlen HB HN Hw Hcover Hsx.
  assert (Hmask : has_shape (len cx) (nd_x self) mask_x = true).
  { apply has_shape_map_map. apply has_shape_spec.
    split; [unfold ev; now rewrite length_decrement|].
    now apply rows_of_width_decrement. }
  assert (Hall : forall i, i < nd_x self ->
            nth i (fill_or (nd_x self) (fill_n s) mask_x) false = true).
  { intros i Hi. rewrite nth_fill_or by assumption.
    unfold mask_x, ev. rewrite existsb_evidence.
    destruct (Hcover i Hi) as (b & Hb).
    assert (Hex : existsb (fun r => (0 <? nth i r 0)%Z) xv = true).
    { apply existsb_exists. exists (nth b xv []). split.
      - apply nth_In. destruct (Nat.lt_ge_cases b (length xv)); [assumption|].
        rewrite (nth_overflow xv) in Hb by assumption.
        destruct i; cbn in Hb; lia.
      - now apply Z.ltb_lt. }
    rewrite Hex. apply orb_true_r. }
  pose proof (logits_n_now_all_filled self _ Hall) as Hdead.
  assert (Hrun : _sample E self (len cx) (Some cx) None s
                 = (inl ValueError,
                    mkState (store_isub (heap s) cx 1) (rng s)
                            (Some mask_x) (marg_a s)
                            (fill_or (nd_x self) (fill_n s) mask_x))).
  { unfold _sample. rewrite bind_ret_l.
    unfold bind, isub, read, guard, masked_fill_logits_n, read_logits_n,
      set_marginalization_mask_x, call_network_x, Categorical_draw, ret,
      raise.
    cbn [heap rng marg_x marg_a fill_n]. rewrite rows_store_isub.
    fold (decrement (rows (heap s) cx)). fold xv. fold ev. fold mask_x.
    rewrite Hmask. cbn [heap rng marg_x marg_a fill_n].
    rewrite Hsx, has_shape_repeat. cbn [andb].
    rewrite repeat_length.
    assert (Hh : hd [] (repeat (logits_n_now self
                                  (fill_or (nd_x self) (fill_n s) mask_x))
                               (len cx))
                 = logits_n_now self (fill_or (nd_x self) (fill_n s) mask_x)).
    { destruct (len cx); [lia | reflexivity]. }
    rewrite Hh, length_logits_n_now.
    assert (Hb1 : (0 <? len cx) && (0 <? nd_x self) = true).
    { apply andb_true_intro. split; now apply Nat.ltb_lt. }
    rewrite Hb1.
    assert (Hb2 : forallb (existsb is_fin)
                    (repeat (logits_n_now self
                               (fill_or (nd_x self) (fill_n s) mask_x))
                            (len cx)) = false).
    { destruct (len cx) as [|k]; [lia|]. cbn [repeat forallb].
      now rewrite Hdead. }
    now rewrite Hb2. }
  unfold s'. rewrite Hrun. cbn [fst snd heap rng marg_x marg_a fill_n].
  split; [reflexivity|]. split; [apply rows_store_isub|].
  split; [reflexivity|]. split; [reflexivity | exact Hdead].
Qed.

Lemma full_node_evidence_raises_witness :
  let E := toy_engine 1 2 in
  let self := toy_model 1 2 in
  let h : store := fun b => if b =? 0 then [[2; 1]%Z] else [] in
  let s := toy_state 1 2 h in
  fst (_sample E self 1 (Some (mkRef 0 0 1)) None s) = inl ValueError /\
  rows (heap (snd (_sample E self 1 (Some (mkRef 0 0 1)) None s)))
       (mkRef 0 0 1) = [[1; 0]%Z].
Proof.
  intros E self h s.
  destruct (full_node_evidence_raises E self (mkRef 0 0 1) s)
    as (H1 & H2 & _).
  - reflexivity.
  - cbn. lia.
  - cbn. lia.
  - repeat constructor.
  - intros i Hi. exists 0. destruct i as [|[|i]]; cbn in *; lia.
  - reflexivity.
  - split; [exact H1 | exact H2].
Defined.
